(** * BasicSignalFiltering: a verified model of [process_signal.py]

    The pipeline of [process_signal.py] (notch and low-pass filtering with a
    zero-phase two-pass applier, a one-sided periodogram, and band-power
    aggregation) is embedded here over the real numbers: every Python
    [float] is read as an element of [R], so sums and products are exact
    and associative.  The few operations whose outcome is decided by
    rounding, or which have no real value, are parameters of the model
    ([float_ops]).  Exceptions are explicit: a computation returns
    [Ok v] or [Raise e].

    The numpy and scipy routines the script calls are modelled from their
    mathematical definition (module [Np] and module [Signal]); the four
    functions of the script itself keep their names. *)

From Stdlib Require Import Reals List Lia Lra ZArith Bool RNsatz.
Import ListNotations.
Open Scope R_scope.

Set Implicit Arguments.

(** ** Exceptions *)

(** The exceptions the modelled code can raise.  numpy's [LinAlgError] is a
    subclass of [ValueError] and is reported as [ValueError]. *)
Inductive exn : Set :=
| ValueError
| ZeroDivisionError
| IndexError.

Inductive result (A : Type) : Type :=
| Ok (v : A)
| Raise (e : exn).

Arguments Ok {A} v.
Arguments Raise {A} e.

Definition bind {A B : Type} (c : result A) (k : A -> result B) : result B :=
  match c with
  | Ok v => k v
  | Raise e => Raise e
  end.

Notation "x <- c ;; k" := (bind c (fun x => k))
  (at level 61, c at next level, right associativity).
Notation "' p <- c ;; k" := (bind c (fun x => let p := x in k))
  (at level 61, p pattern, c at next level, right associativity).

Definition succeeds {A : Type} (c : result A) : Prop := exists v, c = Ok v.

(** ** Comparisons and Python division on reals *)

Definition Rleb (x y : R) : bool := if Rle_dec x y then true else false.
Definition Rltb (x y : R) : bool := if Rlt_dec x y then true else false.
Definition Reqb (x y : R) : bool := if Req_dec_T x y then true else false.

(** [x / y] on Python floats: raises [ZeroDivisionError] when [y] is zero. *)
Definition py_div (x y : R) : result R :=
  if Reqb y 0 then Raise ZeroDivisionError else Ok (x / y).

(** ** Floating point beyond the exact reading

    Floats are read as real numbers and the arithmetic of the code as
    exact arithmetic, with three exceptions, where the outcome of the
    code is decided by rounding or has no real counterpart.  They are the
    fields of [float_ops], parameters of the model:
    - [fl_round], the rounding of a real number to the nearest float:
      [generate_signal] truncates the float product
      [sample_rate * duration], which is the rounded exact product, and
      this decides the number of samples;
    - [fl_tan], numpy's [tan], which returns a finite float also where
      the tangent has a pole;
    - [fl_divide], numpy's division of floats, which raises nothing on a
      zero divisor. *)
Record float_ops : Type := {
  fl_round : R -> R;
  fl_tan : R -> R;
  fl_divide : R -> R -> R
}.

(** What is assumed of the three.  Rounding is monotone and leaves the
    whole numbers up to [2^53] as they are. *)
Definition round_ok (F : float_ops) : Prop :=
  (forall x y, x <= y -> fl_round F x <= fl_round F y) /\
  (forall m : Z, (Z.abs m <= 2 ^ 53)%Z -> fl_round F (IZR m) = IZR m).

(** The tangent is the exact one away from its poles. *)
Definition tan_ok (F : float_ops) : Prop :=
  forall x, cos x <> 0 -> fl_tan F x = tan x.

(** The quotient is the exact one for a non-zero divisor. *)
Definition divide_ok (F : float_ops) : Prop :=
  forall x y, y <> 0 -> fl_divide F x y = x / y.

(** Exact arithmetic itself, which meets the three assumptions. *)
Definition exact_ops : float_ops :=
  {| fl_round := fun x => x; fl_tan := tan; fl_divide := Rdiv |}.

(** ** Complex numbers as pairs *)

Definition C : Type := (R * R)%type.

Definition Cre (z : C) : R := fst z.
Definition Cim (z : C) : R := snd z.
Definition Czero : C := (0, 0).
Definition Cone : C := (1, 0).
Definition Cplus (z w : C) : C := (Cre z + Cre w, Cim z + Cim w).
Definition Copp (z : C) : C := (- Cre z, - Cim z).
Definition Cminus (z w : C) : C := Cplus z (Copp w).
Definition Cmult (z w : C) : C :=
  (Cre z * Cre w - Cim z * Cim w, Cre z * Cim w + Cim z * Cre w).
Definition Cscale (r : R) (z : C) : C := (r * Cre z, r * Cim z).
Definition Cconj (z : C) : C := (Cre z, - Cim z).
Definition Cnorm2 (z : C) : R := Cre z * Cre z + Cim z * Cim z.
Definition Cinv (z : C) : C := (Cre z / Cnorm2 z, - Cim z / Cnorm2 z).
Definition Cdiv (z w : C) : C := Cmult z (Cinv w).
Definition RtoC (r : R) : C := (r, 0).

(** [Cexp t] is [exp (i t)]. *)
Definition Cexp (t : R) : C := (cos t, sin t).

Definition Csum (l : list C) : C := fold_right Cplus Czero l.
Definition Cprod (l : list C) : C := fold_right Cmult Cone l.

(** ** numpy *)

Module Np.

(** [np.sum] of a one-dimensional array. *)
Definition sum (l : list R) : R := fold_right Rplus 0 l.

(** [np.abs] of a complex number. *)
Definition abs (z : C) : R := sqrt (Cre z * Cre z + Cim z * Cim z).

(** [np.arange(lo, hi)] on integers. *)
Definition arange (lo hi : Z) : list Z :=
  map (fun i => (lo + Z.of_nat i)%Z) (seq 0 (Z.to_nat (hi - lo))).

(** [np.arange(lo, hi, 2)] on integers. *)
Definition arange2 (lo hi : Z) : list Z :=
  map (fun i => (lo + 2 * Z.of_nat i)%Z)
      (seq 0 (Z.to_nat ((hi - lo + 1) / 2))).

(** The [k]-th coefficient of the discrete Fourier transform of [x]:
    the sum over [m] of [x[m] * exp (-2 pi i m k / N)], neither scaled
    nor windowed. *)
Definition dft_coeff (x : list R) (k : nat) : C :=
  Csum (map (fun m =>
               Cscale (nth m x 0)
                      (Cexp (- (2 * PI * INR m * INR k / INR (length x)))))
            (seq 0 (length x))).

(** [np.fft.fft]: all [N] coefficients; an empty input is rejected
    ("Invalid number of FFT data points (0) specified"). *)
Definition fft (x : list R) : result (list C) :=
  match x with
  | [] => Raise ValueError
  | _ => Ok (map (dft_coeff x) (seq 0 (length x)))
  end.

(** [np.fft.fftfreq(n, d)]: the integers [0 .. (n-1)//2] followed by
    [-(n//2) .. -1], all multiplied by [1.0 / (n * d)]. *)
Definition fftfreq (n : nat) (d : R) : result (list R) :=
  val <- py_div 1 (INR n * d) ;;
  let N := ((Z.of_nat n - 1) / 2 + 1)%Z in
  let p1 := arange 0 N in
  let p2 := arange (- (Z.of_nat n / 2)) 0 in
  Ok (map (fun i => IZR i * val) (p1 ++ p2)).

(** [v[mask]] for a boolean [mask]: the entries of [v] where the mask is
    true.  A mask of a length other than that of [v] is rejected ("boolean
    index did not match indexed array"), except the mask of length 0,
    which numpy accepts on an array of any length and which selects
    nothing. *)
Definition bool_index (v : list R) (mask : list bool) : result (list R) :=
  if (Nat.eqb (length mask) 0 || Nat.eqb (length mask) (length v))%bool
  then Ok (map snd (filter fst (combine mask v)))
  else Raise IndexError.

(** Elementwise [&] of two boolean arrays of one length. *)
Fixpoint band (m1 m2 : list bool) : list bool :=
  match m1, m2 with
  | x :: t1, y :: t2 => (x && y)%bool :: band t1 t2
  | _, _ => []
  end.

End Np.

(** ** The spectral analyser and the band-power aggregator *)

Definition compute_psd (signal_data : list R) (sample_rate : R)
  : result (list R * list R) :=
  fft_vals <- Np.fft signal_data ;;
  d <- py_div 1 sample_rate ;;
  freqs <- Np.fftfreq (length signal_data) d ;;
  let half_index := (length freqs / 2)%nat in
  let freqs_pos := firstn half_index freqs in
  let psd := map (fun z => Np.abs z ^ 2) (firstn half_index fft_vals) in
  Ok (freqs_pos, psd).

(** The loop of [compute_band_powers]; [band_powers] is the list built so
    far, extended by [append]. *)
Fixpoint band_loop (freqs psd : list R) (bands : list (R * R))
  (band_powers : list R) : result (list R) :=
  match bands with
  | [] => Ok band_powers
  | (low_edge, high_edge) :: rest =>
      let band_indices :=
        Np.band (map (fun f => Rleb low_edge f) freqs)
                (map (fun f => Rltb f high_edge) freqs) in
      sel <- Np.bool_index psd band_indices ;;
      let band_power := Np.sum sel in
      band_loop freqs psd rest (band_powers ++ [band_power])
  end.

Definition compute_band_powers (freqs psd : list R) (bands : list (R * R))
  : result (list R) :=
  band_loop freqs psd bands [].

(** [sum(band_powers)] of [main]: Python's left-to-right sum from 0. *)
Definition total_power (band_powers : list R) : R :=
  fold_left Rplus band_powers 0.

(** The bands of [main]: [[(i, i + 10) for i in range(0, 100, 10)]]. *)
Definition main_bands : list (R * R) :=
  map (fun i => (IZR i, IZR (i + 10)))
      (map (fun k => (0 + 10 * Z.of_nat k)%Z) (seq 0 10)).

(** ** scipy.signal *)

Module Signal.

(** [iirnotch(w0, Q)] with the default [fs = 2.0]: the second-order notch
    of bandwidth [w0 / Q].  The range test is the library's
    [w0 > 1.0 or w0 < 0.0]; [Q] is not validated, and [w0 / Q] is a
    division of Python floats.  [beta] is numpy's tangent and
    [gain = 1.0 / (1.0 + beta)] a division of numpy floats: both return a
    float on every argument. *)
Definition iirnotch (F : float_ops) (w0 Q : R) : result (list R * list R) :=
  let w0 := 2 * w0 / 2 in
  if (Rltb 1 w0 || Rltb w0 0)%bool then Raise ValueError else
  bw <- py_div w0 Q ;;
  let bw := bw * PI in
  let w0 := w0 * PI in
  let beta := fl_tan F (bw / 2) in
  let gain := fl_divide F 1 (1 + beta) in
  let b := map (Rmult gain) [1; -2 * cos w0; 1] in
  let a := [1; -2 * gain * cos w0; 2 * gain - 1] in
  Ok (b, a).

(** Zero padding of a coefficient array up to [n] entries. *)
Definition pad_to (n : nat) (c : list R) : list R :=
  c ++ repeat 0 (n - length c).

(** One update of the delay line of the transposed direct form II:
    [z'[i] = z[i+1] + x * b[i+1] - y * a[i+1]], where [bt], [at'] and [zt]
    are [b[1:]], [a[1:]] and [z[1:]]. *)
Fixpoint next_state (bt at' zt : list R) (x y : R) : list R :=
  match bt, at' with
  | bi :: bt', ai :: at'' =>
      (hd 0 zt + x * bi - y * ai) :: next_state bt' at'' (tl zt) x y
  | _, _ => []
  end.

(** The filter loop over the samples, from the state [z]: each output is
    [y = z[0] + b[0] * x]; the result is the outputs and the final state. *)
Fixpoint lfilter_run (b a x z : list R) : list R * list R :=
  match x with
  | [] => ([], z)
  | xm :: x' =>
      let y := hd 0 z + hd 0 b * xm in
      let z' := next_state (tl b) (tl a) (tl z) xm y in
      let '(ys, zf) := lfilter_run b a x' z' in
      (y :: ys, zf)
  end.

(** [lfilter(b, a, x, zi=zi)] on a one-dimensional [x]: the coefficients
    are divided by [a[0]] and padded to one length [n]; [a[0] = 0] and a
    state of a length other than [n - 1] are rejected. *)
Definition lfilter (b a x zi : list R) : result (list R * list R) :=
  match a with
  | [] => Raise ValueError
  | a0 :: _ =>
      if Reqb a0 0 then Raise ValueError else
      let n := Nat.max (length a) (length b) in
      if negb (Nat.eqb (length zi) (n - 1)) then Raise ValueError else
      let b' := map (fun c => c / a0) (pad_to n b) in
      let a' := map (fun c => c / a0) (pad_to n a) in
      Ok (lfilter_run b' a' x zi)
  end.

(** [while len(a) > 1 and a[0] == 0.0: a = a[1:]]. *)
Fixpoint strip_zeros (a : list R) : list R :=
  match a with
  | a0 :: t =>
      match t with
      | [] => a
      | _ :: _ => if Reqb a0 0 then strip_zeros t else a
      end
  | [] => []
  end.

(** Elementwise [b[1:] - a[1:] * b0]. *)
Fixpoint zi_rhs (bt at' : list R) (b0 : R) : list R :=
  match bt, at' with
  | bk :: bt', ak :: at'' => (bk - ak * b0) :: zi_rhs bt' at'' b0
  | _, _ => []
  end.

(** The entries [zi[1], zi[2], ...] of the solution of
    [(I - companion(a).T) zi = B], by forward substitution from [zi[0]]:
    [zi[k] = (1 + a[1] + ... + a[k]) * zi[0] - (B[0] + ... + B[k-1])]. *)
Fixpoint zi_tail (z0 asum csum : R) (at' B : list R) : list R :=
  match at', B with
  | ak :: at'', Bk :: B' =>
      let asum' := asum + ak in
      let csum' := csum + Bk in
      (asum' * z0 - csum') :: zi_tail z0 asum' csum' at'' B'
  | _, _ => []
  end.

(** [np.linalg.solve(IminusA, B)] for [IminusA = I - companion(a).T] with
    [a[0] = 1]: the determinant is the sum of the entries of [a], a
    singular matrix raises [LinAlgError], and otherwise the solution is
    the one the row sums give.  [at'] is [a[1:]]. *)
Definition solve_IminusA (at' B : list R) : result (list R) :=
  let det := 1 + Np.sum at' in
  if Reqb det 0 then Raise ValueError else
  let z0 := Np.sum B / det in
  Ok (z0 :: zi_tail z0 1 0 (removelast at') B).

(** [lfilter_zi(b, a)]: the state of the filter at the steady state of
    its step response.  An empty [a] is rejected, and so is a filter of
    fewer than two taps ([companion] needs two).  An [a] made of zeros
    only, where the library goes on with non-finite values, is reported
    as [ValueError] too: [lfilter] rejects such a filter in any case. *)
Definition lfilter_zi (b a : list R) : result (list R) :=
  match strip_zeros a with
  | [] => Raise ValueError
  | (a0 :: _) as a1 =>
      if Reqb a0 0 then Raise ValueError else
      let b1 := map (fun c => c / a0) b in
      let a2 := map (fun c => c / a0) a1 in
      let n := Nat.max (length a2) (length b1) in
      let a3 := pad_to n a2 in
      let b3 := pad_to n b1 in
      if Nat.ltb n 2 then Raise ValueError else
      let B := zi_rhs (tl b3) (tl a3) (hd 0 b3) in
      solve_IminusA (tl a3) B
  end.

(** [odd_ext(x, n)]: [x] extended by [n] samples at each end, each end
    being the reflection of the neighbouring samples through the end
    point: [2 * x[0] - x[n:0:-1]] on the left and
    [2 * x[-1] - x[-2:-(n+2):-1]] on the right. *)
Definition odd_ext (x : list R) (n : nat) : result (list R) :=
  if Nat.ltb n 1 then Ok x else
  if Nat.ltb (length x - 1) n then Raise ValueError else
  let left_end := hd 0 x in
  let left_ext := rev (firstn n (skipn 1 x)) in
  let right_end := last x 0 in
  let right_ext := rev (firstn n (skipn (length x - 1 - n) x)) in
  Ok (map (fun v => 2 * left_end - v) left_ext
        ++ x
        ++ map (fun v => 2 * right_end - v) right_ext).

(** [filtfilt(b, a, x)] with the defaults [padtype='odd'], [padlen=None]
    and [method='pad'] on a one-dimensional [x]: the pad length is
    [3 * max(len(a), len(b))], a signal that is not longer is rejected,
    the extended signal is filtered forwards and backwards from the
    steady state scaled by the first sample, and the padding is cut. *)
Definition filtfilt (b a x : list R) : result (list R) :=
  let ntaps := Nat.max (length a) (length b) in
  let edge := (ntaps * 3)%nat in
  if Nat.leb (length x) edge then Raise ValueError else
  ext <- (if Nat.ltb 0 edge then odd_ext x edge else Ok x) ;;
  zi <- lfilter_zi b a ;;
  let x0 := hd 0 ext in
  ' (y, _) <- lfilter b a ext (map (fun z => z * x0) zi) ;;
  let y0 := last y 0 in
  ' (y, _) <- lfilter b a (rev y) (map (fun z => z * y0) zi) ;;
  let y := rev y in
  Ok (if Nat.ltb 0 edge
      then firstn (length y - edge - edge) (skipn edge y)
      else y).

(** [buttap(N)]: the analog Butterworth prototype of order [N], no zero,
    the poles [-exp(1j * pi * m / (2 * N))] for [m] in
    [arange(-N+1, N, 2)], gain 1. *)
Definition buttap (N : Z) : result (list C * list C * R) :=
  if (N <? 0)%Z then Raise ValueError else
  let m := Np.arange2 (- N + 1) N in
  let p := map (fun m => Copp (Cexp (PI * IZR m / (2 * IZR N)))) m in
  Ok ([], p, 1).

(** [lp2lp_zpk(z, p, k, wo)]: the prototype scaled to the cutoff [wo]. *)
Definition lp2lp_zpk (z p : list C) (k wo : R) : list C * list C * R :=
  let degree := (length p - length z)%nat in
  (map (Cscale wo) z, map (Cscale wo) p, k * wo ^ degree).

(** [bilinear_zpk(z, p, k, fs)]: zeros and poles through
    [s -> (2 fs + s) / (2 fs - s)], the zeros at infinity moved to [-1],
    and the gain compensated. *)
Definition bilinear_zpk (z p : list C) (k fs : R) : list C * list C * R :=
  let degree := (length p - length z)%nat in
  let fs2 := 2 * fs in
  let warp := fun s => Cdiv (Cplus (RtoC fs2) s) (Cminus (RtoC fs2) s) in
  let z_z := map warp z ++ repeat (Copp Cone) degree in
  let p_z := map warp p in
  let k_z :=
    k * Cre (Cdiv (Cprod (map (Cminus (RtoC fs2)) z))
                  (Cprod (map (Cminus (RtoC fs2)) p))) in
  (z_z, p_z, k_z).

(** One step of [np.poly]: [convolve(a, [1, -zero])]. *)
Fixpoint convolve_root (prev : C) (a : list C) (zero : C) : list C :=
  match a with
  | [] => [Cmult prev (Copp zero)]
  | c :: a' => Cplus c (Cmult prev (Copp zero)) :: convolve_root c a' zero
  end.

(** [np.poly(seq_of_zeros)]: the coefficients, highest power first, of
    the monic polynomial with the given roots. *)
Definition poly (seq_of_zeros : list C) : list C :=
  fold_left (fun a zero => convolve_root Czero a zero) seq_of_zeros [Cone].

(** [zpk2tf(z, p, k)].  The library keeps the real parts of the
    coefficients when the roots come in conjugate pairs, which is the
    case of every filter designed here; the model keeps the real parts. *)
Definition zpk2tf (z p : list C) (k : R) : list R * list R :=
  (map (fun c => k * Cre c) (poly z), map Cre (poly p)).

(** [butter(N, Wn, btype='low')], a digital design returned as [(b, a)]:
    [iirfilter] with the Butterworth prototype, the cutoff pre-warped by
    [2 * fs * tan(pi * Wn / fs)] at [fs = 2.0].  The cutoff must satisfy
    [0 < Wn < 1]. *)
Definition butter (N : Z) (Wn : R) : result (list R * list R) :=
  ' (z, p, k) <- buttap N ;;
  if (Rleb Wn 0 || Rleb 1 Wn)%bool then Raise ValueError else
  let fs := 2 in
  let warped := 2 * fs * tan (PI * Wn / fs) in
  let '(z1, p1, k1) := lp2lp_zpk z p k warped in
  let '(z2, p2, k2) := bilinear_zpk z1 p1 k1 fs in
  Ok (zpk2tf z2 p2 k2).

End Signal.

(** ** The two filter stages *)

(** The first three statements of [apply_notch_filter]: the notch
    coefficients for a frequency in Hz. *)
Definition design_notch (F : float_ops)
  (freq_to_remove sample_rate q_factor : R) : result (list R * list R) :=
  let nyquist_freq := sample_rate / 2 in
  notch_normalized_freq <- py_div freq_to_remove nyquist_freq ;;
  Signal.iirnotch F notch_normalized_freq q_factor.

Definition apply_notch_filter (F : float_ops) (signal_data : list R)
  (freq_to_remove sample_rate q_factor : R) : result (list R) :=
  ' (notch_num, notch_den) <-
      design_notch F freq_to_remove sample_rate q_factor ;;
  Signal.filtfilt notch_num notch_den signal_data.

(** The first three statements of [apply_lowpass_filter]. *)
Definition design_lowpass (cutoff_freq sample_rate : R) (order : Z)
  : result (list R * list R) :=
  let nyquist_freq := sample_rate / 2 in
  normalized_cutoff <- py_div cutoff_freq nyquist_freq ;;
  Signal.butter order normalized_cutoff.

Definition apply_lowpass_filter (signal_data : list R)
  (cutoff_freq sample_rate : R) (order : Z) : result (list R) :=
  ' (lp_num, lp_den) <- design_lowpass cutoff_freq sample_rate order ;;
  Signal.filtfilt lp_num lp_den signal_data.

(** ** Notions of the specification *)

(** A frequency lies in the half-open band [[low, high)]. *)
Definition in_band (band : R * R) (f : R) : Prop :=
  fst band <= f < snd band.

Definition in_band_dec (band : R * R) (f : R)
  : {in_band band f} + {~ in_band band f}.
Proof.
  unfold in_band.
  destruct (Rle_dec (fst band) f); destruct (Rlt_dec f (snd band));
    (left; split; assumption) || (right; intros [? ?]; contradiction).
Defined.

(** The power of a band over a spectral estimate given as a sequence of
    (frequency, power) pairs: the sum of the powers of the bins whose
    frequency lies in the band. *)
Fixpoint band_sum (estimate : list (R * R)) (band : R * R) : R :=
  match estimate with
  | [] => 0
  | (f, p) :: rest =>
      (if in_band_dec band f then p else 0) + band_sum rest band
  end.

(** The contribution of one bin to all the bands. *)
Definition bin_share (bands : list (R * R)) (f p : R) : R :=
  Np.sum (map (fun band => if in_band_dec band f then p else 0) bands).

Definition bands_disjoint (b1 b2 : R * R) : Prop :=
  forall f, ~ (in_band b1 f /\ in_band b2 f).

(** The bands are pairwise disjoint and their union is [[0, nyquist)]. *)
Definition partitions (bands : list (R * R)) (nyquist : R) : Prop :=
  ForallOrdPairs bands_disjoint bands /\
  forall f, (0 <= f < nyquist) <-> (exists band, In band bands /\ in_band band f).

Definition strictly_increasing (l : list R) : Prop :=
  forall i j, (i < j < length l)%nat -> nth i l 0 < nth j l 0.

(** A filter the applier accepts: a non-zero leading denominator
    coefficient, at least two taps, and no pole at [z = 1]. *)
Definition applicable (b a : list R) : Prop :=
  hd 0 a <> 0 /\ (2 <= Nat.max (length a) (length b))%nat /\ Np.sum a <> 0.

(** The value at [exp (i w)] of the polynomial in [z^-1] with the
    coefficients [c]: numerator or denominator of a frequency response. *)
Definition freqz_poly (c : list R) (w : R) : C :=
  Csum (map (fun k => Cscale (nth k c 0) (Cexp (- (INR k * w))))
            (seq 0 (length c))).

(** The squared magnitude of the frequency response of the filter
    [(b, a)] at the angle [w], where the denominator does not vanish. *)
Definition response_mag2 (b a : list R) (w : R) : R :=
  Cnorm2 (freqz_poly b w) / Cnorm2 (freqz_poly a w).

(** The angle on the unit circle of a frequency in Hz. *)
Definition digital_angle (freq sample_rate : R) : R :=
  freq / (sample_rate / 2) * PI.

(** The digital pole of index [m] of the Butterworth filter of order [N]
    at the pre-warped cutoff [wo]: the analog pole
    [wo * -exp(1j * pi * m / (2 * N))] through the bilinear map. *)
Definition digital_pole (N : Z) (wo : R) (m : Z) : C :=
  let s := Cscale wo (Copp (Cexp (PI * IZR m / (2 * IZR N)))) in
  Cdiv (Cplus (RtoC (2 * 2)) s) (Cminus (RtoC (2 * 2)) s).

(** The tangent of half the notch bandwidth, the [beta] of [iirnotch]. *)
Definition notch_beta (freq sample_rate q_factor : R) : R :=
  tan (freq / (sample_rate / 2) / q_factor * PI / 2).

(** The [beta] that [iirnotch] computes, with numpy's tangent: the same
    away from the poles of the tangent. *)
Definition float_beta (F : float_ops) (freq sample_rate q_factor : R) : R :=
  fl_tan F (freq / (sample_rate / 2) / q_factor * PI / 2).

(** ** The signal generator and the entry point *)

(** [int(x)] on a float: truncation towards zero. *)
Definition py_int (x : R) : Z :=
  if Rle_dec 0 x then Int_part x else (- Int_part (- x))%Z.

(** [np.linspace(start, stop, num, endpoint=False)]: [num] points from
    [start] in steps of [(stop - start) / num]; a negative [num] is
    rejected.  The library multiplies by the step, or divides by [num]
    first when the step is zero. *)
Definition np_linspace (start stop : R) (num : Z) : result (list R) :=
  if (num <? 0)%Z then Raise ValueError else
  let div := IZR num in
  let delta := stop - start in
  let y := map IZR (Np.arange 0 num) in
  let y1 :=
    if (0 <? num)%Z then
      let step := delta / div in
      if Reqb step 0
      then map (fun v => v / div * delta) y
      else map (fun v => v * step) y
    else map (fun v => v * delta) y in
  Ok (map (fun v => v + start) y1).

(** Elementwise sum of two arrays of one length. *)
Fixpoint zip_add (x y : list R) : list R :=
  match x, y with
  | u :: x', v :: y' => (u + v) :: zip_add x' y'
  | _, _ => []
  end.

(** [x + y] on one-dimensional arrays: elementwise on equal lengths, an
    array of one entry is broadcast, any other pair of shapes is
    rejected. *)
Definition np_add (x y : list R) : result (list R) :=
  if Nat.eqb (length x) (length y) then Ok (zip_add x y)
  else match x, y with
       | [u], _ => Ok (map (fun v => u + v) y)
       | _, [v] => Ok (map (fun u => u + v) x)
       | _, _ => Raise ValueError
       end.

(** [generate_signal].  The number of samples is the truncation of the
    float product [sample_rate * duration], the exact product rounded.
    The draw of [np.random.randn(n)] is the parameter [randn], which
    returns [n] samples. *)
Definition generate_signal (F : float_ops) (randn : nat -> list R)
  (sample_rate duration : R) : result (list R * list R) :=
  t <- np_linspace 0 duration
         (py_int (fl_round F (sample_rate * duration))) ;;
  let tone5 := map (fun v => 0.8 * v) (map (fun v => sin (2 * PI * 5 * v)) t) in
  let tone15 := map (fun v => 0.5 * v) (map (fun v => sin (2 * PI * 15 * v)) t) in
  tones <- np_add tone5 tone15 ;;
  let noise := map (fun v => 0.2 * v) (randn (length t)) in
  signal_data <- np_add tones noise ;;
  Ok (t, signal_data).

(** The values [main] computes, prints and hands to the plots. *)
Record main_values : Type := {
  mv_t : list R;
  mv_raw_signal : list R;
  mv_filtered_signal_low : list R;
  mv_freqs_raw : list R;
  mv_psd_raw : list R;
  mv_freqs_cleaned : list R;
  mv_psd_cleaned : list R;
  mv_band_powers_raw : list R;
  mv_band_powers_cleaned : list R;
  mv_total_power_raw : R;
  mv_total_power_cleaned : R
}.

(** [main] without its plots and prints, which only display the values
    computed here. *)
Definition main (F : float_ops) (randn : nat -> list R)
  : result main_values :=
  let sample_rate := 200 in
  let duration := 5 in
  ' (t, raw_signal) <- generate_signal F randn sample_rate duration ;;
  filtered_signal_notch <- apply_notch_filter F raw_signal 15 sample_rate 30 ;;
  filtered_signal_low <-
    apply_lowpass_filter filtered_signal_notch 10 sample_rate 4 ;;
  ' (freqs_raw, psd_raw) <- compute_psd raw_signal sample_rate ;;
  ' (freqs_cleaned, psd_cleaned) <- compute_psd filtered_signal_low sample_rate ;;
  let bands := main_bands in
  band_powers_raw <- compute_band_powers freqs_raw psd_raw bands ;;
  band_powers_cleaned <- compute_band_powers freqs_cleaned psd_cleaned bands ;;
  let total_power_raw := total_power band_powers_raw in
  let total_power_cleaned := total_power band_powers_cleaned in
  Ok {| mv_t := t;
        mv_raw_signal := raw_signal;
        mv_filtered_signal_low := filtered_signal_low;
        mv_freqs_raw := freqs_raw;
        mv_psd_raw := psd_raw;
        mv_freqs_cleaned := freqs_cleaned;
        mv_psd_cleaned := psd_cleaned;
        mv_band_powers_raw := band_powers_raw;
        mv_band_powers_cleaned := band_powers_cleaned;
        mv_total_power_raw := total_power_raw;
        mv_total_power_cleaned := total_power_cleaned |}.

(** ** Notions for the further properties *)

(** The linear combination [alpha * x + beta * y] of two signals. *)
Definition lincomb (alpha beta : R) (x y : list R) : list R :=
  map (fun p => alpha * fst p + beta * snd p) (combine x y).

(** The sum of the terms [term k v] over the entries [v] of a list, [k]
    being the position of [v], counted from [k0]. *)
Fixpoint Csum_indexed (term : nat -> R -> C) (k0 : nat) (x : list R) : C :=
  match x with
  | [] => Czero
  | v :: t => Cplus (term k0 v) (Csum_indexed term (S k0) t)
  end.

(** The alternating sum [c0 - c1 + c2 - ...], from the sign [s]. *)
Fixpoint alt_sum (s : R) (c : list R) : R :=
  match c with
  | [] => 0
  | x :: t => s * x + alt_sum (- s) t
  end.

(** The same over complex coefficients. *)
Fixpoint Calt_sum (s : R) (c : list C) : C :=
  match c with
  | [] => Czero
  | z :: t => Cplus (Cscale s z) (Calt_sum (- s) t)
  end.

(** * Properties *)

(** ** Comparisons *)

Lemma Rleb_true (x y : R) : Rleb x y = true <-> x <= y.
Proof. unfold Rleb; destruct (Rle_dec x y); split; intros; auto; discriminate. Qed.

Lemma Rltb_true (x y : R) : Rltb x y = true <-> x < y.
Proof. unfold Rltb; destruct (Rlt_dec x y); split; intros; auto; discriminate. Qed.

Lemma Reqb_true (x y : R) : Reqb x y = true <-> x = y.
Proof. unfold Reqb; destruct (Req_dec_T x y); split; intros; auto; discriminate. Qed.

Lemma Rleb_false (x y : R) : Rleb x y = false <-> y < x.
Proof.
  unfold Rleb; destruct (Rle_dec x y); split; intros; try lra; discriminate.
Qed.

Lemma Rltb_false (x y : R) : Rltb x y = false <-> y <= x.
Proof.
  unfold Rltb; destruct (Rlt_dec x y); split; intros; try lra; discriminate.
Qed.

Lemma Reqb_false (x y : R) : Reqb x y = false <-> x <> y.
Proof.
  unfold Reqb; destruct (Req_dec_T x y); split; intros; auto;
    try discriminate; contradiction.
Qed.

Lemma Reqb_refl (x : R) : Reqb x x = true.
Proof. apply Reqb_true; reflexivity. Qed.

Lemma py_div_ok (x y : R) : y <> 0 -> py_div x y = Ok (x / y).
Proof. intros H; unfold py_div; apply Reqb_false in H; rewrite H; reflexivity. Qed.

Lemma py_div_zero (x : R) : py_div x 0 = Raise ZeroDivisionError.
Proof. unfold py_div; rewrite Reqb_refl; reflexivity. Qed.

(** ** Band powers *)

Section BandPowers.

Variables freqs psd : list R.

Lemma band_mask (lo hi : R) :
  Np.band (map (fun f => Rleb lo f) freqs)
          (map (fun f => Rltb f hi) freqs)
  = map (fun f => (Rleb lo f && Rltb f hi)%bool) freqs.
Proof. induction freqs as [|f t IH]; simpl; [reflexivity | now rewrite IH]. Qed.

Lemma in_band_test (band : R * R) (f : R) :
  (Rleb (fst band) f && Rltb f (snd band))%bool = true <-> in_band band f.
Proof.
  rewrite andb_true_iff, Rleb_true, Rltb_true; unfold in_band; tauto.
Qed.

End BandPowers.

Lemma selected_sum (band : R * R) (freqs psd : list R) :
  Np.sum (map snd (filter fst
            (combine (map (fun f => (Rleb (fst band) f && Rltb f (snd band))%bool)
                          freqs) psd)))
  = band_sum (combine freqs psd) band.
Proof.
  revert psd; induction freqs as [|f t IH]; intros [|p psd]; simpl; try reflexivity.
  destruct (in_band_dec band f) as [Hin|Hout].
  - apply in_band_test in Hin; rewrite Hin; simpl; now rewrite IH.
  - destruct (Rleb (fst band) f && Rltb f (snd band))%bool eqn:E.
    + apply in_band_test in E; contradiction.
    + simpl; rewrite IH; lra.
Qed.

Lemma band_loop_spec (freqs psd : list R) (bands : list (R * R)) :
  length freqs = length psd ->
  forall acc,
    band_loop freqs psd bands acc
    = Ok (acc ++ map (band_sum (combine freqs psd)) bands).
Proof.
  intros Hlen; induction bands as [|[lo hi] rest IH]; intros acc; simpl.
  - now rewrite app_nil_r.
  - rewrite (band_mask freqs lo hi).
    unfold Np.bool_index; rewrite length_map, Hlen, Nat.eqb_refl, orb_true_r.
    cbn [bind]; rewrite IH, <- app_assoc; simpl.
    now rewrite <- (selected_sum (lo, hi)).
Qed.

Lemma band_loop_mismatch (freqs psd : list R) (band : R * R) rest acc :
  length freqs <> length psd -> freqs <> [] ->
  band_loop freqs psd (band :: rest) acc = Raise IndexError.
Proof.
  intros Hlen Hne; destruct band as [lo hi]; simpl.
  rewrite (band_mask freqs lo hi).
  unfold Np.bool_index; rewrite length_map.
  apply Nat.eqb_neq in Hlen; rewrite Hlen.
  destruct freqs; [contradiction | reflexivity].
Qed.

(** Without frequencies the mask is empty and every band sums nothing,
    whatever the powers. *)
Lemma band_loop_no_freqs (psd : list R) (bands : list (R * R)) :
  forall acc,
    band_loop [] psd bands acc = Ok (acc ++ map (fun _ => 0) bands).
Proof.
  induction bands as [|[lo hi] rest IH]; intros acc; simpl.
  - now rewrite app_nil_r.
  - unfold Np.bool_index; cbn [length Nat.eqb orb combine filter map bind].
    rewrite IH, <- app_assoc; reflexivity.
Qed.

Lemma band_sum_empty (estimate : list (R * R)) (band : R * R) :
  (forall f p, In (f, p) estimate -> ~ in_band band f) ->
  band_sum estimate band = 0.
Proof.
  induction estimate as [|[f p] t IH]; intros H; simpl; [reflexivity|].
  destruct (in_band_dec band f) as [Hin|_].
  - exfalso; apply (H f p); [now left | exact Hin].
  - rewrite IH; [lra | intros f' p' Hin; apply (H f' p'); now right].
Qed.

Lemma band_sum_nonneg (estimate : list (R * R)) (band : R * R) :
  (forall f p, In (f, p) estimate -> 0 <= p) ->
  0 <= band_sum estimate band.
Proof.
  induction estimate as [|[f p] t IH]; intros H; simpl; [lra|].
  assert (0 <= p) by (apply (H f p); now left).
  assert (0 <= band_sum t band)
    by (apply IH; intros f' p' Hin; apply (H f' p'); now right).
  destruct (in_band_dec band f); lra.
Qed.

(** ** Lists *)

Lemma nth_map_in {A B : Type} (f : A -> B) (l : list A) (k : nat) d d' :
  (k < length l)%nat -> nth k (map f l) d = f (nth k l d').
Proof.
  revert k; induction l as [|a l IH]; intros [|k] Hk; simpl in *; try lia.
  - reflexivity.
  - apply IH; lia.
Qed.

(** ** The spectral estimate *)

Lemma arange_length (lo hi : Z) : length (Np.arange lo hi) = Z.to_nat (hi - lo).
Proof. unfold Np.arange; now rewrite length_map, length_seq. Qed.

Lemma arange_nth (lo hi : Z) (k : nat) :
  (k < Z.to_nat (hi - lo))%nat ->
  nth k (Np.arange lo hi) 0%Z = (lo + Z.of_nat k)%Z.
Proof.
  intros Hk; unfold Np.arange.
  rewrite (nth_map_in _ _ 0%Z 0%nat) by (now rewrite length_seq).
  rewrite seq_nth by exact Hk; reflexivity.
Qed.

Lemma fftfreq_split (n : nat) :
  (Z.to_nat ((Z.of_nat n - 1) / 2 + 1 - 0)
   + Z.to_nat (0 - - (Z.of_nat n / 2)) = n)%nat.
Proof.
  destruct n as [|n]; [reflexivity|].
  pose proof (Z.div_mod (Z.of_nat (S n)) 2 ltac:(lia)) as H1.
  pose proof (Z.mod_pos_bound (Z.of_nat (S n)) 2 ltac:(lia)) as H2.
  pose proof (Z.div_mod (Z.of_nat (S n) - 1) 2 ltac:(lia)) as H3.
  pose proof (Z.mod_pos_bound (Z.of_nat (S n) - 1) 2 ltac:(lia)) as H4.
  lia.
Qed.

Lemma half_le_first_part (n : nat) :
  (n / 2 <= Z.to_nat ((Z.of_nat n - 1) / 2 + 1 - 0))%nat.
Proof.
  destruct n as [|n]; [simpl; lia|].
  pose proof (Nat.div_mod_eq (S n) 2) as H0.
  pose proof (Nat.mod_upper_bound (S n) 2 ltac:(lia)) as H0'.
  pose proof (Z.div_mod (Z.of_nat (S n) - 1) 2 ltac:(lia)) as H3.
  pose proof (Z.mod_pos_bound (Z.of_nat (S n) - 1) 2 ltac:(lia)) as H4.
  lia.
Qed.

Lemma fftfreq_ok (n : nat) (d : R) :
  (0 < n)%nat -> d <> 0 ->
  exists freqs,
    Np.fftfreq n d = Ok freqs /\ length freqs = n /\
    forall k, (k < n / 2)%nat -> nth k freqs 0 = INR k * (1 / (INR n * d)).
Proof.
  intros Hn Hd.
  assert (Hnd : INR n * d <> 0).
  { apply Rmult_integral_contrapositive_currified; [|exact Hd].
    apply not_0_INR; lia. }
  unfold Np.fftfreq; rewrite (py_div_ok _ Hnd); cbn [bind].
  eexists; split; [reflexivity|]; split.
  - rewrite length_map, length_app, !arange_length; apply fftfreq_split.
  - intros k Hk.
    pose proof (half_le_first_part n) as Hhalf.
    set (val := 1 / (INR n * d)).
    rewrite (nth_map_in _ _ 0 0%Z)
      by (rewrite length_app, !arange_length;
          pose proof (fftfreq_split n); lia).
    rewrite app_nth1 by (rewrite arange_length; lia).
    rewrite arange_nth by lia.
    now rewrite Z.add_0_l, <- INR_IZR_INZ.
Qed.

Lemma abs_squared (z : C) : Np.abs z ^ 2 = Cnorm2 z.
Proof.
  unfold Np.abs, Cnorm2; simpl; rewrite Rmult_1_r; apply sqrt_sqrt.
  nra.
Qed.

Lemma Cnorm2_nonneg (z : C) : 0 <= Cnorm2 z.
Proof. unfold Cnorm2; nra. Qed.

Lemma fft_ok (x : list R) :
  x <> [] -> Np.fft x = Ok (map (Np.dft_coeff x) (seq 0 (length x))).
Proof. destruct x; [contradiction | reflexivity]. Qed.

Lemma half_lt_INR (k n : nat) : (k < n / 2)%nat -> 2 * INR k < INR n.
Proof.
  intros Hk.
  pose proof (Nat.div_mod_eq n 2) as H0.
  assert (H : (2 * k + 1 < n + 1)%nat) by lia.
  apply lt_INR in H; rewrite !plus_INR, mult_INR in H; simpl in H; lra.
Qed.

(** What [compute_psd] returns on a non-empty signal at a non-zero rate. *)
Lemma compute_psd_ok (signal_data : list R) (sample_rate : R) :
  signal_data <> [] -> sample_rate <> 0 ->
  let N := length signal_data in
  exists freqs psd,
    compute_psd signal_data sample_rate = Ok (freqs, psd) /\
    length freqs = (N / 2)%nat /\ length psd = (N / 2)%nat /\
    forall k, (k < N / 2)%nat ->
      nth k freqs 0 = INR k * sample_rate / INR N /\
      nth k psd 0 = Cnorm2 (Np.dft_coeff signal_data k).
Proof.
  intros Hx Hfs N.
  assert (HN : (0 < N)%nat) by (subst N; destruct signal_data; simpl; [contradiction | lia]).
  assert (Hd : 1 / sample_rate <> 0).
  { unfold Rdiv; rewrite Rmult_1_l; now apply Rinv_neq_0_compat. }
  destruct (fftfreq_ok HN Hd) as (freqs & Hfreq & Hlen & Hnth).
  unfold compute_psd.
  rewrite (fft_ok Hx), (py_div_ok _ Hfs); cbn [bind].
  fold N; rewrite Hfreq; cbn [bind]; rewrite Hlen.
  assert (Hhalf : (N / 2 <= N)%nat) by (apply Nat.Div0.div_le_upper_bound; lia).
  do 2 eexists; split; [reflexivity|]; split; [|split].
  - rewrite length_firstn; lia.
  - rewrite length_map, length_firstn, length_map, length_seq; lia.
  - intros k Hk; split.
    + rewrite nth_firstn.
      apply Nat.ltb_lt in Hk as Hk'; rewrite Hk'.
      rewrite (Hnth k Hk).
      assert (HNR : INR N <> 0) by (apply not_0_INR; lia).
      field; split; assumption.
    + rewrite (nth_map_in _ _ 0 Czero)
        by (rewrite length_firstn, length_map, length_seq; lia).
      rewrite nth_firstn.
      apply Nat.ltb_lt in Hk as Hk'; rewrite Hk'.
      rewrite (nth_map_in _ _ Czero 0%nat) by (rewrite length_seq; lia).
      rewrite seq_nth by lia.
      apply abs_squared.
Qed.

Lemma compute_band_powers_spec (freqs psd : list R) (bands : list (R * R)) :
  length freqs = length psd ->
  compute_band_powers freqs psd bands
  = Ok (map (band_sum (combine freqs psd)) bands).
Proof.
  intros Hlen; unfold compute_band_powers; now rewrite band_loop_spec.
Qed.

Lemma total_power_sum (l : list R) : total_power l = Np.sum l.
Proof.
  unfold total_power.
  assert (H : forall a, fold_left Rplus l a = a + Np.sum l).
  { induction l as [|x t IH]; intros a; simpl; [lra|]. rewrite IH; lra. }
  rewrite H; lra.
Qed.

Lemma bin_share_outside (bands : list (R * R)) (f p : R) :
  (forall band, In band bands -> ~ in_band band f) -> bin_share bands f p = 0.
Proof.
  unfold bin_share; induction bands as [|b t IH]; intros H; simpl; [reflexivity|].
  destruct (in_band_dec b f) as [Hin|_].
  - exfalso; apply (H b); [now left | exact Hin].
  - rewrite IH; [lra | intros b' Hb'; apply H; now right].
Qed.

Lemma bin_share_once (bands : list (R * R)) (f p : R) :
  ForallOrdPairs bands_disjoint bands ->
  (exists band, In band bands /\ in_band band f) ->
  bin_share bands f p = p.
Proof.
  induction 1 as [|b t Hb Ht IH]; intros (band & Hin & Hf).
  - destruct Hin.
  - unfold bin_share; simpl; fold (bin_share t f p).
    destruct (in_band_dec b f) as [Hbf|Hbf].
    + rewrite bin_share_outside; [lra|].
      intros b' Hb' Hb'f.
      rewrite Forall_forall in Hb.
      exact (Hb b' Hb' f (conj Hbf Hb'f)).
    + rewrite IH; [lra|].
      destruct Hin as [->|Hin]; [contradiction|].
      now exists band.
Qed.

Lemma band_sums_by_bin (estimate : list (R * R)) (bands : list (R * R)) :
  Np.sum (map (band_sum estimate) bands)
  = Np.sum (map (fun bin => bin_share bands (fst bin) (snd bin)) estimate).
Proof.
  induction estimate as [|[f p] t IH]; simpl.
  - induction bands as [|b bs IHb]; simpl; [reflexivity | rewrite IHb; lra].
  - rewrite <- IH; unfold bin_share; clear IH.
    induction bands as [|b bs IHb]; simpl; [lra | rewrite IHb; lra].
Qed.

(** ** The claims on the spectral estimate and the band powers *)

(** C1: on a signal of [N >= 1] samples at a positive rate, [compute_psd]
    returns exactly [N / 2] frequencies and [N / 2] powers; the [k]-th
    frequency is [k * rate / N], below the Nyquist frequency, the
    frequencies increase strictly, and the [k]-th power is the squared
    magnitude of the [k]-th coefficient of the plain (unscaled,
    unwindowed) discrete Fourier transform. *)
Theorem compute_psd_bins (signal_data : list R) (sample_rate : R) :
  signal_data <> [] -> 0 < sample_rate ->
  exists freqs psd,
    compute_psd signal_data sample_rate = Ok (freqs, psd) /\
    length freqs = (length signal_data / 2)%nat /\
    length psd = (length signal_data / 2)%nat /\
    (forall k, (k < length signal_data / 2)%nat ->
       nth k freqs 0 = INR k * sample_rate / INR (length signal_data) /\
       nth k freqs 0 < sample_rate / 2 /\
       nth k psd 0 = Cnorm2 (Np.dft_coeff signal_data k)) /\
    strictly_increasing freqs.
Proof.
  intros Hx Hfs.
  assert (Hfs0 : sample_rate <> 0) by lra.
  destruct (compute_psd_ok Hx Hfs0) as (freqs & psd & Hrun & Hlf & Hlp & Hk).
  set (N := length signal_data) in *.
  assert (HN : 0 < INR N).
  { apply lt_0_INR; subst N; destruct signal_data; simpl; [contradiction | lia]. }
  exists freqs, psd; repeat split; try assumption.
  - now apply Hk.
  - destruct (Hk k H) as [-> _].
    apply half_lt_INR in H.
    apply Rmult_lt_reg_r with (INR N); [exact HN|].
    unfold Rdiv; rewrite Rmult_assoc, Rinv_l by lra.
    nra.
  - now apply Hk.
  - intros i j [Hij Hj]; rewrite Hlf in Hj.
    destruct (Hk i ltac:(lia)) as [-> _]; destruct (Hk j Hj) as [-> _].
    apply lt_INR in Hij.
    unfold Rdiv; apply Rmult_lt_compat_r; [now apply Rinv_0_lt_compat|].
    now apply Rmult_lt_compat_r.
Qed.

Lemma compute_psd_bins_witness :
  [1; 0; -1; 0] <> [] /\ 0 < 200 /\
  exists freqs psd,
    compute_psd [1; 0; -1; 0] 200 = Ok (freqs, psd) /\
    length freqs = 2%nat /\ length psd = 2%nat /\
    (forall k, (k < 2)%nat ->
       nth k freqs 0 = INR k * 200 / INR 4 /\
       nth k freqs 0 < 200 / 2 /\
       nth k psd 0 = Cnorm2 (Np.dft_coeff [1; 0; -1; 0] k)) /\
    strictly_increasing freqs.
Proof.
  split; [discriminate|]; split; [lra|].
  apply (@compute_psd_bins [1; 0; -1; 0] 200); [discriminate | lra].
Defined.

(** C2: on a spectral estimate (as many frequencies as powers),
    [compute_band_powers] returns one value per band, in the order of the
    bands; the value of a band is the sum of the powers of the bins whose
    frequency [f] satisfies [low <= f < high]; a band holding no bin, and
    so any band starting at or above a bound on all the frequencies, gets
    0; an empty list of bands gives an empty report. *)
Theorem compute_band_powers_sums (freqs psd : list R) (bands : list (R * R)) :
  length freqs = length psd ->
  exists report,
    compute_band_powers freqs psd bands = Ok report /\
    length report = length bands /\
    (forall i, (i < length bands)%nat ->
       nth i report 0 = band_sum (combine freqs psd) (nth i bands (0, 0))) /\
    (forall i, (i < length bands)%nat ->
       (forall f, In f freqs -> ~ in_band (nth i bands (0, 0)) f) ->
       nth i report 0 = 0) /\
    (forall i nyquist, (i < length bands)%nat ->
       (forall f, In f freqs -> f < nyquist) ->
       nyquist <= fst (nth i bands (0, 0)) ->
       nth i report 0 = 0) /\
    (bands = [] -> report = []).
Proof.
  intros Hlen.
  exists (map (band_sum (combine freqs psd)) bands).
  assert (Hnth : forall i, (i < length bands)%nat ->
            nth i (map (band_sum (combine freqs psd)) bands) 0
            = band_sum (combine freqs psd) (nth i bands (0, 0))).
  { intros i Hi; now apply nth_map_in. }
  assert (Hempty : forall i, (i < length bands)%nat ->
            (forall f, In f freqs -> ~ in_band (nth i bands (0, 0)) f) ->
            nth i (map (band_sum (combine freqs psd)) bands) 0 = 0).
  { intros i Hi Hout; rewrite Hnth by exact Hi.
    apply band_sum_empty; intros f p Hin.
    apply Hout; eapply in_combine_l; exact Hin. }
  repeat split.
  - now apply compute_band_powers_spec.
  - apply length_map.
  - exact Hnth.
  - exact Hempty.
  - intros i nyquist Hi Hbelow Hlow; apply Hempty; [exact Hi|].
    intros f Hf [Hge _]; specialize (Hbelow f Hf); lra.
  - intros ->; reflexivity.
Qed.

Lemma compute_band_powers_sums_witness :
  length [0; 5; 10; 15] = length [1; 2; 3; 4] /\
  exists report,
    compute_band_powers [0; 5; 10; 15] [1; 2; 3; 4] [(0, 10); (10, 20); (100, 110)]
    = Ok report /\
    length report = 3%nat.
Proof.
  split; [reflexivity|].
  destruct (@compute_band_powers_sums [0; 5; 10; 15] [1; 2; 3; 4]
              [(0, 10); (10, 20); (100, 110)] eq_refl)
    as (report & Hrun & Hlen & _).
  exists report; split; assumption.
Defined.

Lemma band_sums_total (freqs psd : list R) (bands : list (R * R))
  (nyquist : R) :
  length freqs = length psd ->
  (forall f, In f freqs -> 0 <= f < nyquist) ->
  partitions bands nyquist ->
  Np.sum (map (band_sum (combine freqs psd)) bands) = Np.sum psd.
Proof.
  intros Hlen Hrange [Hdisj Hcover].
  rewrite band_sums_by_bin.
  revert psd Hlen; induction freqs as [|f t IH]; intros [|p psd] Hlen;
    simpl in *; try discriminate; [reflexivity|].
  rewrite bin_share_once.
  - rewrite IH; [reflexivity | | lia].
    intros f' Hf'; apply Hrange; now right.
  - exact Hdisj.
  - apply Hcover, Hrange; now left.
Qed.

(** The frequencies of an estimate lie in [[0, rate / 2)]. *)
Lemma compute_psd_range (signal_data : list R) (sample_rate : R)
  (freqs psd : list R) :
  0 < sample_rate ->
  compute_psd signal_data sample_rate = Ok (freqs, psd) ->
  length freqs = length psd /\
  forall f, In f freqs -> 0 <= f < sample_rate / 2.
Proof.
  intros Hfs Hrun.
  destruct signal_data as [|x0 xs]; [discriminate|].
  assert (Hx : x0 :: xs <> []) by discriminate.
  assert (Hfs0 : sample_rate <> 0) by lra.
  destruct (compute_psd_ok Hx Hfs0) as (freqs' & psd' & Hrun' & Hlf & Hlp & Hk).
  rewrite Hrun in Hrun'; injection Hrun' as <- <-.
  split; [congruence|].
  intros f Hin; destruct (In_nth _ _ 0 Hin) as (k & Hlt & <-).
  rewrite Hlf in Hlt; destruct (Hk k Hlt) as [-> _].
  set (N := length (x0 :: xs)) in *.
  assert (HN : 0 < INR N) by (apply lt_0_INR; subst N; simpl; lia).
  pose proof (@half_lt_INR k N Hlt) as Hhalf.
  pose proof (pos_INR k) as Hk0.
  assert (Hinv : 0 < / INR N) by now apply Rinv_0_lt_compat.
  split.
  - unfold Rdiv; apply Rmult_le_pos; [apply Rmult_le_pos|]; lra.
  - apply Rmult_lt_reg_r with (INR N); [exact HN|].
    unfold Rdiv; rewrite Rmult_assoc, Rinv_l by lra.
    nra.
Qed.

(** The ten bands of [main] partition [[0, 100)], the range below the
    Nyquist frequency of its 200 Hz signal. *)
Lemma main_bands_partition : partitions main_bands 100.
Proof.
  unfold partitions, main_bands; simpl; split.
  - repeat constructor;
      intros f [[H1 H2] [H3 H4]]; simpl in *; lra.
  - intros f; split.
    + intros [H0 H100].
      destruct (Rlt_dec f 10); [exists (0, 10); split; [simpl; auto 12 | unfold in_band; simpl; lra]|].
      destruct (Rlt_dec f 20); [exists (10, 20); split; [simpl; auto 12 | unfold in_band; simpl; lra]|].
      destruct (Rlt_dec f 30); [exists (20, 30); split; [simpl; auto 12 | unfold in_band; simpl; lra]|].
      destruct (Rlt_dec f 40); [exists (30, 40); split; [simpl; auto 12 | unfold in_band; simpl; lra]|].
      destruct (Rlt_dec f 50); [exists (40, 50); split; [simpl; auto 12 | unfold in_band; simpl; lra]|].
      destruct (Rlt_dec f 60); [exists (50, 60); split; [simpl; auto 12 | unfold in_band; simpl; lra]|].
      destruct (Rlt_dec f 70); [exists (60, 70); split; [simpl; auto 12 | unfold in_band; simpl; lra]|].
      destruct (Rlt_dec f 80); [exists (70, 80); split; [simpl; auto 12 | unfold in_band; simpl; lra]|].
      destruct (Rlt_dec f 90); [exists (80, 90); split; [simpl; auto 12 | unfold in_band; simpl; lra]|].
      exists (90, 100); split; [simpl; auto 12 | unfold in_band; simpl; lra].
    + intros (band & Hin & H1 & H2).
      repeat (destruct Hin as [<-|Hin]; [simpl in *; lra|]).
      destruct Hin.
Qed.

(** In [main] the band powers of a signal add up to the total power of
    its estimate. *)
Corollary main_total_power (signal_data : list R) :
  signal_data <> [] ->
  exists freqs psd report,
    compute_psd signal_data 200 = Ok (freqs, psd) /\
    compute_band_powers freqs psd main_bands = Ok report /\
    total_power report = Np.sum psd.
Proof.
  intros Hx.
  assert (H200 : 200 <> 0) by lra.
  destruct (compute_psd_ok Hx H200) as (freqs & psd & Hrun & _).
  destruct (@compute_psd_range signal_data 200 freqs psd ltac:(lra) Hrun)
    as [Hlen Hrange].
  exists freqs, psd, (map (band_sum (combine freqs psd)) main_bands).
  split; [exact Hrun|]; split.
  - now apply compute_band_powers_spec.
  - rewrite total_power_sum.
    apply band_sums_total with (nyquist := 100); [exact Hlen | | ].
    + intros f Hf; specialize (Hrange f Hf); lra.
    + exact main_bands_partition.
Qed.

(** C4: when the bands partition [[0, nyquist)] and every frequency of
    the estimate lies in that interval, the band powers add up to the
    sum of all the powers of the estimate. *)
Theorem band_powers_additive (freqs psd : list R) (bands : list (R * R))
  (nyquist : R) :
  length freqs = length psd ->
  (forall f, In f freqs -> 0 <= f < nyquist) ->
  partitions bands nyquist ->
  exists report,
    compute_band_powers freqs psd bands = Ok report /\
    total_power report = Np.sum psd.
Proof.
  intros Hlen Hrange Hpart.
  exists (map (band_sum (combine freqs psd)) bands); split.
  - now apply compute_band_powers_spec.
  - rewrite total_power_sum.
    now apply band_sums_total with (nyquist := nyquist).
Qed.

Lemma band_powers_additive_witness :
  length [0; 50] = length [0; 4] /\
  (forall f, In f [0; 50] -> 0 <= f < 100) /\
  partitions main_bands 100 /\
  exists report,
    compute_band_powers [0; 50] [0; 4] main_bands = Ok report /\
    total_power report = Np.sum [0; 4].
Proof.
  assert (Hrange : forall f, In f [0; 50] -> 0 <= f < 100).
  { simpl; intros f [<-|[<-|[]]]; lra. }
  split; [reflexivity|]; split; [exact Hrange|];
    split; [exact main_bands_partition|].
  exact (@band_powers_additive [0; 50] [0; 4] main_bands 100 eq_refl Hrange
           main_bands_partition).
Defined.

(** C7, as the code has it: at a non-zero rate [compute_psd] fails
    exactly on the empty signal, with the [ValueError] of the transform;
    every signal of one sample or more yields [N / 2] bins, so a single
    sample yields the empty estimate and no error. *)
Theorem compute_psd_failure (signal_data : list R) (sample_rate : R) :
  sample_rate <> 0 ->
  (compute_psd signal_data sample_rate = Raise ValueError
   <-> length signal_data = 0%nat) /\
  ((1 <= length signal_data)%nat ->
   exists freqs psd,
     compute_psd signal_data sample_rate = Ok (freqs, psd) /\
     length freqs = (length signal_data / 2)%nat /\
     length psd = (length signal_data / 2)%nat) /\
  (length signal_data = 1%nat ->
   compute_psd signal_data sample_rate = Ok ([], [])).
Proof.
  intros Hfs.
  assert (Hok : (1 <= length signal_data)%nat ->
     exists freqs psd,
       compute_psd signal_data sample_rate = Ok (freqs, psd) /\
       length freqs = (length signal_data / 2)%nat /\
       length psd = (length signal_data / 2)%nat).
  { intros HN.
    assert (Hx : signal_data <> []) by (intros ->; simpl in HN; lia).
    destruct (compute_psd_ok Hx Hfs) as (freqs & psd & Hrun & Hlf & Hlp & _).
    now exists freqs, psd. }
  split; [|split].
  - split.
    + intros Hfail; destruct signal_data as [|x t]; [reflexivity|].
      destruct Hok as (freqs & psd & Hrun & _); [simpl; lia|].
      rewrite Hrun in Hfail; discriminate.
    + intros HN; apply length_zero_iff_nil in HN; subst; reflexivity.
  - exact Hok.
  - intros H1; destruct Hok as (freqs & psd & Hrun & Hlf & Hlp); [lia|].
    rewrite H1 in Hlf, Hlp; simpl in Hlf, Hlp.
    apply length_zero_iff_nil in Hlf, Hlp; now subst.
Qed.

Lemma compute_psd_failure_witness :
  200 <> 0 /\
  (compute_psd [] 200 = Raise ValueError <-> length (@nil R) = 0%nat) /\
  compute_psd [3] 200 = Ok ([], []).
Proof.
  assert (H200 : 200 <> 0) by lra.
  split; [exact H200|]; split.
  - exact (proj1 (@compute_psd_failure [] 200 H200)).
  - exact (proj2 (proj2 (@compute_psd_failure [3] 200 H200)) eq_refl).
Defined.

Lemma compute_psd_zero_rate (signal_data : list R) :
  signal_data <> [] -> compute_psd signal_data 0 = Raise ZeroDivisionError.
Proof.
  intros Hx; unfold compute_psd.
  rewrite (fft_ok Hx), py_div_zero; reflexivity.
Qed.

(** C7 as stated fails: a signal of a single sample is not rejected. *)
Lemma compute_psd_single_sample :
  length [3] = 1%nat /\ compute_psd [3] 200 = Ok ([], []).
Proof.
  split; [reflexivity|].
  assert (H200 : 200 <> 0) by lra.
  assert (Hx : [3] <> []) by discriminate.
  destruct (compute_psd_ok Hx H200) as (freqs & psd & Hrun & Hlf & Hlp & _).
  simpl in Hlf, Hlp; apply length_zero_iff_nil in Hlf, Hlp; now subst.
Qed.

(** C8, as the code has it: a band with [high <= low] is not rejected;
    it holds no bin and its entry in the report is 0. *)
Theorem inverted_band_power_zero (freqs psd : list R)
  (bands : list (R * R)) (i : nat) :
  length freqs = length psd ->
  (i < length bands)%nat ->
  snd (nth i bands (0, 0)) <= fst (nth i bands (0, 0)) ->
  exists report,
    compute_band_powers freqs psd bands = Ok report /\
    length report = length bands /\
    nth i report 0 = 0.
Proof.
  intros Hlen Hi Hinv.
  exists (map (band_sum (combine freqs psd)) bands); split; [|split].
  - now apply compute_band_powers_spec.
  - apply length_map.
  - rewrite (nth_map_in _ _ 0 (0, 0)) by exact Hi.
    apply band_sum_empty; intros f p _ [H1 H2]; lra.
Qed.

Lemma inverted_band_power_zero_witness :
  length [5; 15] = length [2; 3] /\ (0 < length [(20, 10)]%R)%nat /\
  snd (nth 0 [(20, 10)] (0, 0)) <= fst (nth 0 [(20, 10)] (0, 0)) /\
  exists report,
    compute_band_powers [5; 15] [2; 3] [(20, 10)] = Ok report /\
    length report = 1%nat /\ nth 0 report 0 = 0.
Proof.
  assert (H : snd (nth 0 [(20, 10)] (0, 0)) <= fst (nth 0 [(20, 10)] (0, 0)))
    by (simpl; lra).
  split; [reflexivity|]; split; [simpl; lia|]; split; [exact H|].
  exact (@inverted_band_power_zero [5; 15] [2; 3] [(20, 10)] 0 eq_refl
           (Nat.lt_0_succ 0) H).
Defined.

(** C8 as stated fails: the band [(20, 10)] is mapped to a power. *)
Lemma inverted_band_accepted :
  10 <= 20 /\ compute_band_powers [5; 15] [2; 3] [(20, 10)] = Ok [0].
Proof.
  split; [lra|].
  rewrite compute_band_powers_spec by reflexivity; simpl.
  repeat (destruct (in_band_dec _ _) as [[? ?]|_]; simpl in *; try lra).
  repeat f_equal; lra.
Qed.

(** C10: every power of the estimate of [compute_psd] is non-negative,
    and so is every entry of every report of [compute_band_powers] on
    that estimate. *)
Theorem powers_nonnegative (signal_data : list R) (sample_rate : R) :
  signal_data <> [] -> sample_rate <> 0 ->
  exists freqs psd,
    compute_psd signal_data sample_rate = Ok (freqs, psd) /\
    (forall p, In p psd -> 0 <= p) /\
    forall bands, exists report,
      compute_band_powers freqs psd bands = Ok report /\
      forall v, In v report -> 0 <= v.
Proof.
  intros Hx Hfs.
  destruct (compute_psd_ok Hx Hfs) as (freqs & psd & Hrun & Hlf & Hlp & Hk).
  assert (Hpsd : forall p, In p psd -> 0 <= p).
  { intros p Hin; destruct (In_nth _ _ 0 Hin) as (k & Hlt & <-).
    rewrite Hlp in Hlt; destruct (Hk k Hlt) as [_ ->]; apply Cnorm2_nonneg. }
  exists freqs, psd; split; [exact Hrun|]; split; [exact Hpsd|].
  intros bands; exists (map (band_sum (combine freqs psd)) bands); split.
  - apply compute_band_powers_spec; congruence.
  - intros v Hv; apply in_map_iff in Hv as (band & <- & _).
    apply band_sum_nonneg; intros f p Hin.
    apply Hpsd; eapply in_combine_r; exact Hin.
Qed.

Lemma powers_nonnegative_witness :
  [1; 0; -1; 0] <> [] /\ 200 <> 0 /\
  exists freqs psd,
    compute_psd [1; 0; -1; 0] 200 = Ok (freqs, psd) /\
    (forall p, In p psd -> 0 <= p).
Proof.
  assert (H200 : 200 <> 0) by lra.
  assert (Hx : [1; 0; -1; 0] <> []) by discriminate.
  split; [exact Hx|]; split; [exact H200|].
  destruct (@powers_nonnegative [1; 0; -1; 0] 200 Hx H200)
    as (freqs & psd & Hrun & Hpsd & _).
  now exists freqs, psd.
Defined.

(** ** The zero-phase applier *)

Lemma bind_ok {A B : Type} (c : result A) (k : A -> result B) (v : B) :
  bind c k = Ok v -> exists u, c = Ok u /\ k u = Ok v.
Proof. destruct c as [u|e]; simpl; [now exists u | discriminate]. Qed.

Ltac bind_inv H :=
  let u := fresh "u" in
  let Hu := fresh "Hu" in
  apply bind_ok in H; destruct H as (u & Hu & H).

Lemma pad_to_length (n : nat) (c : list R) :
  (length c <= n)%nat -> length (Signal.pad_to n c) = n.
Proof.
  intros H; unfold Signal.pad_to; rewrite length_app, repeat_length; lia.
Qed.

Lemma sum_app (l1 l2 : list R) : Np.sum (l1 ++ l2) = Np.sum l1 + Np.sum l2.
Proof. induction l1 as [|x t IH]; simpl; [lra | rewrite IH; lra]. Qed.

Lemma sum_repeat_zero (n : nat) : Np.sum (repeat 0 n) = 0.
Proof. induction n as [|n IH]; simpl; [reflexivity | rewrite IH; lra]. Qed.

Lemma sum_scale (k : R) (l : list R) :
  Np.sum (map (fun c => c / k) l) = Np.sum l / k.
Proof.
  induction l as [|x t IH]; simpl; [unfold Rdiv; ring | rewrite IH; unfold Rdiv; ring].
Qed.

Lemma next_state_length (bt at' zt : list R) (x y : R) :
  length (Signal.next_state bt at' zt x y) = Nat.min (length bt) (length at').
Proof.
  revert at' zt; induction bt as [|bi bt IH]; intros [|ai at'] zt; simpl;
    try reflexivity.
  now rewrite IH.
Qed.

Lemma lfilter_run_length (b a x z : list R) :
  length (fst (Signal.lfilter_run b a x z)) = length x.
Proof.
  revert z; induction x as [|xm x IH]; intros z; simpl; [reflexivity|].
  specialize (IH (Signal.next_state (tl b) (tl a) (tl z) xm
                    (hd 0 z + hd 0 b * xm))).
  destruct (Signal.lfilter_run b a x _) as [ys zf]; simpl in *; lia.
Qed.

Lemma lfilter_length (b a x zi y zf : list R) :
  Signal.lfilter b a x zi = Ok (y, zf) -> length y = length x.
Proof.
  unfold Signal.lfilter; destruct a as [|a0 a]; [discriminate|].
  destruct (Reqb a0 0); [discriminate|].
  destruct (negb _); [discriminate|].
  intros H.
  match type of H with Ok ?r = _ =>
    assert (Hfst : fst r = y) by (now replace r with (y, zf) by congruence) end.
  rewrite <- Hfst; apply lfilter_run_length.
Qed.

Lemma lfilter_ok (b a x zi : list R) :
  hd 0 a <> 0 -> a <> [] ->
  length zi = (Nat.max (length a) (length b) - 1)%nat ->
  succeeds (Signal.lfilter b a x zi).
Proof.
  intros Ha0 Ha Hzi; unfold Signal.lfilter.
  destruct a as [|a0 a]; [contradiction|]; simpl in Ha0.
  apply Reqb_false in Ha0; rewrite Ha0.
  rewrite Hzi, Nat.eqb_refl; simpl; eexists; reflexivity.
Qed.

Lemma strip_zeros_head (a : list R) : hd 0 a <> 0 -> Signal.strip_zeros a = a.
Proof.
  destruct a as [|a0 [|a1 t]]; simpl; try reflexivity.
  intros H; apply Reqb_false in H; now rewrite H.
Qed.

Lemma zi_rhs_length (bt at' : list R) (b0 : R) :
  length (Signal.zi_rhs bt at' b0) = Nat.min (length bt) (length at').
Proof.
  revert at'; induction bt as [|bk bt IH]; intros [|ak at']; simpl;
    try reflexivity.
  now rewrite IH.
Qed.

Lemma zi_tail_length (z0 asum csum : R) (at' B : list R) :
  length (Signal.zi_tail z0 asum csum at' B) = Nat.min (length at') (length B).
Proof.
  revert asum csum B; induction at' as [|ak at' IH]; intros asum csum [|Bk B];
    simpl; try reflexivity.
  now rewrite IH.
Qed.

Lemma length_tl {A : Type} (l : list A) : length (tl l) = (length l - 1)%nat.
Proof. destruct l; simpl; lia. Qed.

Lemma length_removelast {A : Type} (l : list A) :
  length (removelast l) = (length l - 1)%nat.
Proof. rewrite removelast_firstn_len, length_firstn; lia. Qed.

(** The determinant of the steady-state system is the sum of the
    denominator coefficients, normalised by the first. *)
Lemma padded_tail_sum (a0 : R) (a : list R) (n : nat) :
  a0 <> 0 ->
  1 + Np.sum (tl (Signal.pad_to n (map (fun c => c / a0) (a0 :: a))))
  = Np.sum (a0 :: a) / a0.
Proof.
  intros Ha0; unfold Signal.pad_to; simpl.
  rewrite sum_app, sum_repeat_zero, sum_scale; field; exact Ha0.
Qed.

Lemma lfilter_zi_ok (b a : list R) :
  applicable b a ->
  exists zi, Signal.lfilter_zi b a = Ok zi /\
             length zi = (Nat.max (length a) (length b) - 1)%nat.
Proof.
  intros (Ha0 & Hn & Hsum).
  unfold Signal.lfilter_zi; rewrite (strip_zeros_head _ Ha0).
  destruct a as [|a0 a]; [simpl in Ha0; contradiction|].
  simpl hd in Ha0; apply Reqb_false in Ha0 as Ha0b; rewrite Ha0b.
  rewrite !length_map.
  set (n := Nat.max (length (a0 :: a)) (length b)) in *.
  destruct (Nat.ltb_spec n 2) as [Hlt|_]; [lia|].
  unfold Signal.solve_IminusA.
  rewrite (padded_tail_sum a n Ha0).
  assert (Hdet : Np.sum (a0 :: a) / a0 <> 0).
  { unfold Rdiv; apply Rmult_integral_contrapositive_currified;
      [exact Hsum | now apply Rinv_neq_0_compat]. }
  apply Reqb_false in Hdet; rewrite Hdet.
  eexists; split; [reflexivity|].
  simpl length; rewrite zi_tail_length, zi_rhs_length, length_removelast,
    !length_tl, !pad_to_length by (rewrite length_map; lia).
  rewrite ?length_app, ?length_map, ?repeat_length.
  subst n; simpl length in *; lia.
Qed.

Lemma last_nth (l : list R) : last l 0 = nth (length l - 1) l 0.
Proof.
  induction l as [|x [|y t] IH]; try reflexivity.
  change (last (x :: y :: t) 0) with (last (y :: t) 0); rewrite IH.
  simpl; now rewrite Nat.sub_0_r.
Qed.

Lemma hd_nth (l : list R) : hd 0 l = nth 0 l 0.
Proof. now destruct l. Qed.

(** The shape of the odd extension: [n] reflected samples, the signal,
    [n] reflected samples. *)
Lemma odd_ext_shape (x : list R) (n : nat) :
  (n < length x)%nat ->
  exists ext,
    Signal.odd_ext x n = Ok ext /\
    length ext = (length x + 2 * n)%nat /\
    (forall i, (i < length x)%nat -> nth (n + i) ext 0 = nth i x 0) /\
    (forall i, (i < n)%nat ->
       nth i ext 0 = 2 * nth 0 x 0 - nth (n - i) x 0) /\
    (forall i, (i < n)%nat ->
       nth (n + length x + i) ext 0
       = 2 * nth (length x - 1) x 0 - nth (length x - 2 - i) x 0).
Proof.
  intros Hn; unfold Signal.odd_ext.
  destruct (Nat.ltb_spec n 1) as [Hn0|Hn1].
  - assert (n = 0%nat) by lia; subst n.
    exists x; repeat split; intros; lia.
  - destruct (Nat.ltb_spec (length x - 1) n) as [Hbad|_]; [lia|].
    set (L := length x) in *.
    set (le := map (fun v => 2 * hd 0 x - v) (rev (firstn n (skipn 1 x)))).
    set (re := map (fun v => 2 * last x 0 - v)
                   (rev (firstn n (skipn (L - 1 - n) x)))).
    assert (Hle : length le = n).
    { subst le; rewrite length_map, length_rev, length_firstn, length_skipn.
      fold L; lia. }
    assert (Hre : length re = n).
    { subst re; rewrite length_map, length_rev, length_firstn, length_skipn.
      fold L; lia. }
    exists (le ++ x ++ re); split; [reflexivity|]; split; [|split; [|split]].
    + rewrite !length_app, Hle, Hre; fold L; lia.
    + intros i Hi.
      rewrite app_nth2 by lia; rewrite Hle.
      replace (n + i - n)%nat with i by lia.
      now rewrite app_nth1 by exact Hi.
    + intros i Hi.
      rewrite app_nth1 by lia; subst le.
      rewrite (nth_map_in _ _ 0 0)
        by (rewrite length_rev, length_firstn, length_skipn; fold L; lia).
      rewrite rev_nth
        by (rewrite length_firstn, length_skipn; fold L; lia).
      rewrite length_firstn, length_skipn; fold L.
      replace (Nat.min n (L - 1)) with n by lia.
      rewrite nth_firstn.
      destruct (Nat.ltb_spec (n - S i) n) as [_|Hbad]; [|lia].
      rewrite nth_skipn, hd_nth.
      replace (1 + (n - S i))%nat with (n - i)%nat by lia; reflexivity.
    + intros i Hi.
      rewrite app_nth2 by lia; rewrite Hle.
      rewrite app_nth2 by (fold L; lia); fold L.
      replace (n + L + i - n - L)%nat with i by lia.
      subst re.
      rewrite (nth_map_in _ _ 0 0)
        by (rewrite length_rev, length_firstn, length_skipn; fold L; lia).
      rewrite rev_nth
        by (rewrite length_firstn, length_skipn; fold L; lia).
      rewrite length_firstn, length_skipn; fold L.
      replace (Nat.min n (L - (L - 1 - n))) with n by lia.
      rewrite nth_firstn.
      destruct (Nat.ltb_spec (n - S i) n) as [_|Hbad]; [|lia].
      rewrite nth_skipn, last_nth; fold L.
      replace (L - 1 - n + (n - S i))%nat with (L - 2 - i)%nat by lia.
      reflexivity.
Qed.

(** What a successful call of the applier went through. *)
Lemma filtfilt_inv (b a x y : list R) :
  Signal.filtfilt b a x = Ok y ->
  let edge := (3 * Nat.max (length b) (length a))%nat in
  (edge < length x)%nat /\
  exists ext zi y1 z1 y2 z2,
    Signal.odd_ext x edge = Ok ext /\
    Signal.lfilter_zi b a = Ok zi /\
    Signal.lfilter b a ext (map (fun z => z * hd 0 ext) zi) = Ok (y1, z1) /\
    Signal.lfilter b a (rev y1) (map (fun z => z * last y1 0) zi)
    = Ok (y2, z2) /\
    length y2 = (length x + 2 * edge)%nat /\
    y = firstn (length x) (skipn edge (rev y2)).
Proof.
  intros H edge; unfold Signal.filtfilt in H.
  replace (Nat.max (length a) (length b) * 3)%nat with edge in H
    by (subst edge; lia).
  destruct (Nat.leb_spec (length x) edge) as [|Hlen]; [discriminate|].
  split; [exact Hlen|].
  bind_inv H. rename u into ext, Hu into Hext.
  assert (Hext' : Signal.odd_ext x edge = Ok ext).
  { destruct (Nat.ltb_spec 0 edge) as [|He0]; [exact Hext|].
    assert (edge = 0%nat) as -> by lia; exact Hext. }
  bind_inv H. rename u into zi, Hu into Hzi.
  bind_inv H. destruct u as [y1 z1]. rename Hu into H1.
  bind_inv H. destruct u as [y2 z2]. rename Hu into H2.
  destruct (odd_ext_shape x Hlen) as (ext' & Hext'' & Hlext & _).
  rewrite Hext' in Hext''; injection Hext'' as <-.
  pose proof (lfilter_length _ _ _ _ H1) as Hl1.
  pose proof (lfilter_length _ _ _ _ H2) as Hl2.
  rewrite length_rev, Hl1, Hlext in Hl2.
  exists ext, zi, y1, z1, y2, z2; repeat split; try assumption.
  injection H as <-.
  destruct (Nat.ltb_spec 0 edge) as [He|He0].
  - rewrite length_rev, Hl2; f_equal; lia.
  - assert (edge = 0%nat) as He by lia; rewrite He in *; simpl.
    rewrite firstn_all2; [reflexivity | rewrite length_rev; lia].
Qed.

Lemma filtfilt_length (b a x y : list R) :
  Signal.filtfilt b a x = Ok y -> length y = length x.
Proof.
  intros H; destruct (filtfilt_inv _ _ _ H) as (Hlen & ext & zi & y1 & z1 & y2 & z2 & _ & _ & _ & _ & Hl2 & ->).
  rewrite length_firstn, length_skipn, length_rev, Hl2; lia.
Qed.

Lemma filtfilt_short (b a x : list R) :
  (length x <= 3 * Nat.max (length b) (length a))%nat ->
  Signal.filtfilt b a x = Raise ValueError.
Proof.
  intros H; unfold Signal.filtfilt.
  destruct (Nat.leb_spec (length x) (Nat.max (length a) (length b) * 3));
    [reflexivity | lia].
Qed.

(** A signal longer than the padding, through an applicable filter, is
    filtered. *)
Lemma filtfilt_ok (b a x : list R) :
  applicable b a ->
  (3 * Nat.max (length b) (length a) < length x)%nat ->
  exists y, Signal.filtfilt b a x = Ok y /\ length y = length x.
Proof.
  intros Happ Hlen.
  assert (Hy : succeeds (Signal.filtfilt b a x)).
  { unfold Signal.filtfilt.
    set (edge := (Nat.max (length a) (length b) * 3)%nat).
    assert (Hedge : (edge < length x)%nat) by (subst edge; lia).
    destruct (Nat.leb_spec (length x) edge) as [|_]; [lia|].
    destruct (odd_ext_shape x Hedge) as (ext & Hext & _).
    replace (if Nat.ltb 0 edge then Signal.odd_ext x edge else Ok x)
      with (Ok (A:=list R) ext).
    2:{ destruct (Nat.ltb_spec 0 edge) as [|He0]; [now rewrite Hext|].
        assert (edge = 0%nat) as He by lia; rewrite He in Hext.
        exact (eq_sym Hext). }
    cbn [bind].
    destruct (lfilter_zi_ok Happ) as (zi & -> & Hzi); cbn [bind].
    destruct Happ as (Ha0 & Hn & _).
    assert (Ha : a <> []) by (intros ->; simpl in Ha0; lra).
    destruct (@lfilter_ok b a ext (map (fun z => z * hd 0 ext) zi) Ha0 Ha)
      as ([y1 z1] & ->); [now rewrite length_map|]; cbn [bind].
    destruct (@lfilter_ok b a (rev y1) (map (fun z => z * last y1 0) zi) Ha0 Ha)
      as ([y2 z2] & ->); [now rewrite length_map|]; cbn [bind].
    eexists; reflexivity. }
  destruct Hy as (y & Hy); exists y; split; [exact Hy|].
  now apply filtfilt_length in Hy.
Qed.

(** ** The notch design *)

(** The coefficients [iirnotch] computes from the gain and the cosine of
    the notch angle. *)
Lemma exact_round_ok : round_ok exact_ops.
Proof. split; [intros x y H; exact H | intros m _; reflexivity]. Qed.

Lemma exact_tan_ok : tan_ok exact_ops.
Proof. intros x _; reflexivity. Qed.

Lemma exact_divide_ok : divide_ok exact_ops.
Proof. intros x y _; reflexivity. Qed.

Lemma iirnotch_ok (F : float_ops) (w Q : R) :
  0 <= w <= 1 -> Q <> 0 ->
  Signal.iirnotch F w Q
  = Ok (let gain := fl_divide F 1 (1 + fl_tan F (w / Q * PI / 2)) in
        ([gain * 1; gain * (-2 * cos (w * PI)); gain * 1],
         [1; -2 * gain * cos (w * PI); 2 * gain - 1])).
Proof.
  intros [Hw0 Hw1] HQ; unfold Signal.iirnotch.
  replace (2 * w / 2) with w by field.
  assert (H1 : Rltb 1 w = false) by (apply Rltb_false; lra).
  assert (H0 : Rltb w 0 = false) by (apply Rltb_false; lra).
  rewrite H1, H0, (py_div_ok _ HQ); reflexivity.
Qed.

Lemma iirnotch_out_of_range (F : float_ops) (w Q : R) :
  w < 0 \/ 1 < w -> Signal.iirnotch F w Q = Raise ValueError.
Proof.
  intros Hw; unfold Signal.iirnotch.
  replace (2 * w / 2) with w by field.
  destruct Hw as [Hw|Hw].
  - apply Rltb_true in Hw; rewrite Hw, orb_true_r; reflexivity.
  - apply Rltb_true in Hw; rewrite Hw; reflexivity.
Qed.

Lemma iirnotch_zero_Q (F : float_ops) (w : R) :
  0 <= w <= 1 -> Signal.iirnotch F w 0 = Raise ZeroDivisionError.
Proof.
  intros [Hw0 Hw1]; unfold Signal.iirnotch.
  replace (2 * w / 2) with w by field.
  assert (H1 : Rltb 1 w = false) by (apply Rltb_false; lra).
  assert (H0 : Rltb w 0 = false) by (apply Rltb_false; lra).
  rewrite H1, H0, py_div_zero; reflexivity.
Qed.

Lemma design_notch_unfold (F : float_ops) (f fs Q : R) :
  fs <> 0 -> design_notch F f fs Q = Signal.iirnotch F (f / (fs / 2)) Q.
Proof.
  intros Hfs; unfold design_notch.
  rewrite py_div_ok by lra; reflexivity.
Qed.

Lemma normalized_range (f fs : R) :
  0 < fs ->
  (0 <= f / (fs / 2) <-> 0 <= f) /\ (f / (fs / 2) <= 1 <-> f <= fs / 2) /\
  (f / (fs / 2) < 0 <-> f < 0) /\ (1 < f / (fs / 2) <-> fs / 2 < f).
Proof.
  intros Hfs.
  assert (Hn : 0 < fs / 2) by lra.
  assert (Hi : 0 < / (fs / 2)) by now apply Rinv_0_lt_compat.
  assert (He : f = f / (fs / 2) * (fs / 2)) by (field; lra).
  set (w := f / (fs / 2)) in *.
  repeat split; intros Hw; nra.
Qed.

(** C6, as the code has it: at a positive sample rate the notch design
    raises [ValueError] exactly for a frequency below 0 or above the
    Nyquist frequency, raises [ZeroDivisionError] exactly for a frequency
    in that closed range with a zero quality factor, and in every other
    case, the end points 0 and Nyquist and a negative quality factor
    included, returns its three numerator and three denominator
    coefficients. *)
Theorem design_notch_errors (F : float_ops) (f fs Q : R) :
  0 < fs ->
  (design_notch F f fs Q = Raise ValueError <-> (f < 0 \/ fs / 2 < f)) /\
  (design_notch F f fs Q = Raise ZeroDivisionError
   <-> (0 <= f <= fs / 2 /\ Q = 0)) /\
  ((0 <= f <= fs / 2 /\ Q <> 0)
   <-> exists b a, design_notch F f fs Q = Ok (b, a) /\
                   length b = 3%nat /\ length a = 3%nat).
Proof.
  intros Hfs.
  destruct (normalized_range f Hfs) as (Hge0 & Hle1 & Hlt0 & Hgt1).
  rewrite design_notch_unfold by lra.
  set (w := f / (fs / 2)) in *.
  assert (Hcases : (w < 0 \/ 1 < w) \/ (0 <= w <= 1 /\ Q = 0)
                   \/ (0 <= w <= 1 /\ Q <> 0)).
  { destruct (Rlt_dec w 0); [tauto|]. destruct (Rlt_dec 1 w); [tauto|].
    destruct (Req_dec_T Q 0); right; [left | right]; split; auto; lra. }
  assert (Hf : (f < 0 \/ fs / 2 < f) <-> (w < 0 \/ 1 < w)) by tauto.
  assert (Hr : 0 <= f <= fs / 2 <-> 0 <= w <= 1) by tauto.
  rewrite Hf, Hr; clear Hf Hr Hge0 Hle1 Hlt0 Hgt1.
  destruct Hcases as [Hout | [[Hin HQ] | [Hin HQ]]].
  - rewrite (iirnotch_out_of_range F Q Hout).
    split; [tauto|]; split; split.
    + discriminate.
    + intros [Hw _]; lra.
    + intros [Hw _]; lra.
    + intros (b & a & Hrun & _); discriminate.
  - subst Q; rewrite (iirnotch_zero_Q F Hin).
    split; [|split]; split.
    + discriminate.
    + intros Hw; lra.
    + tauto.
    + reflexivity.
    + intros [_ HQ]; contradiction.
    + intros (b & a & Hrun & _); discriminate.
  - rewrite (iirnotch_ok F Hin HQ).
    split; [|split]; split.
    + discriminate.
    + intros Hw; lra.
    + discriminate.
    + intros [_ HQ0]; contradiction.
    + intros _; do 2 eexists; split; [reflexivity | split; reflexivity].
    + tauto.
Qed.

Lemma design_notch_errors_witness :
  0 < 200 /\
  (design_notch exact_ops (-1) 200 30 = Raise ValueError) /\
  (design_notch exact_ops 15 200 0 = Raise ZeroDivisionError) /\
  (exists b a, design_notch exact_ops 100 200 (-30) = Ok (b, a) /\
               length b = 3%nat /\ length a = 3%nat).
Proof.
  assert (H200 : 0 < 200) by lra.
  split; [exact H200|]; split; [|split].
  - apply (proj1 (@design_notch_errors exact_ops (-1) 200 30 H200)); lra.
  - apply (proj1 (proj2 (@design_notch_errors exact_ops 15 200 0 H200))); lra.
  - apply (proj2 (proj2 (@design_notch_errors exact_ops 100 200 (-30) H200))); lra.
Defined.

(** C6 as stated fails: the Nyquist frequency itself and a negative
    quality factor are both accepted, whatever the floating-point
    operations. *)
Lemma design_notch_accepts_edge_and_negative_Q :
  ~ (0 < 100 < 200 / 2) /\
  (forall F, succeeds (design_notch F 100 200 30)) /\
  -30 <= 0 /\
  (forall F, succeeds (design_notch F 15 200 (-30))).
Proof.
  split; [lra|]; split; [|split; [lra|]].
  - intros F; rewrite design_notch_unfold by lra.
    rewrite iirnotch_ok by lra; eexists; reflexivity.
  - intros F; rewrite design_notch_unfold by lra.
    rewrite iirnotch_ok by lra; eexists; reflexivity.
Qed.

(** ** The response of the notch *)

Lemma freqz_poly3 (c0 c1 c2 w : R) :
  freqz_poly [c0; c1; c2] w
  = (c0 + c1 * cos w + c2 * (cos w * cos w - sin w * sin w),
     - (c1 * sin w) - c2 * (2 * sin w * cos w)).
Proof.
  unfold freqz_poly, Csum, Cscale, Cexp, Cplus, Czero, Cre, Cim; simpl.
  rewrite !cos_neg, !sin_neg, Rmult_0_l, Rmult_1_l, cos_0, sin_0.
  replace ((1 + 1) * w) with (2 * w) by ring.
  rewrite cos_2a, sin_2a; f_equal; ring.
Qed.

Lemma sin2_cos2' (w : R) : sin w * sin w + cos w * cos w = 1.
Proof. pose proof (sin2_cos2 w) as H; unfold Rsqr in H; exact H. Qed.

(** The squared magnitudes of the numerator and of the denominator of a
    notch with gain [g] and notch cosine [c0]. *)
Lemma notch_numerator_norm (g c0 w : R) :
  Cnorm2 (freqz_poly [g * 1; g * (-2 * c0); g * 1] w)
  = 4 * g * g * (cos w - c0) * (cos w - c0).
Proof.
  rewrite freqz_poly3; unfold Cnorm2, Cre, Cim; simpl.
  pose proof (sin2_cos2' w) as H.
  set (s := sin w) in *; set (c := cos w) in *; nsatz.
Qed.

Lemma notch_denominator_norm (g c0 w : R) :
  Cnorm2 (freqz_poly [1; -2 * g * c0; 2 * g - 1] w)
  = 4 * g * g * (cos w - c0) * (cos w - c0)
    + 4 * (1 - g) * (1 - g) * sin w * sin w.
Proof.
  rewrite freqz_poly3; unfold Cnorm2, Cre, Cim; simpl.
  pose proof (sin2_cos2' w) as H.
  set (s := sin w) in *; set (c := cos w) in *; nsatz.
Qed.

Lemma notch_angle_facts (w : R) :
  0 < w < 1 -> 0 < sin (w * PI) /\ -1 < cos (w * PI) < 1.
Proof.
  intros [H0 H1]; pose proof PI_RGT_0 as Hpi.
  assert (Ha : 0 < w * PI) by nra.
  assert (Hb : w * PI < PI) by nra.
  split; [now apply sin_gt_0|].
  split.
  - rewrite <- cos_PI; apply cos_decreasing_1; lra.
  - rewrite <- cos_0; apply cos_decreasing_1; lra.
Qed.

Lemma notch_beta_pos (f fs Q : R) :
  0 < f -> 0 < fs -> f / (fs / 2) < Q -> 0 < notch_beta f fs Q.
Proof.
  intros Hf Hfs HQ; unfold notch_beta.
  set (w := f / (fs / 2)) in *.
  assert (Hw : 0 < w) by (subst w; apply Rdiv_lt_0_compat; lra).
  assert (HQ0 : 0 < Q) by lra.
  assert (Hr : 0 < w / Q < 1).
  { split; [apply Rdiv_lt_0_compat; lra|].
    apply Rmult_lt_reg_r with Q; [exact HQ0|].
    unfold Rdiv; rewrite Rmult_assoc, Rinv_l by lra; lra. }
  pose proof PI_RGT_0 as Hpi.
  apply tan_gt_0; nra.
Qed.

(** Where the tangent has a pole its value in [R] is 0. *)
Lemma tan_nonzero_cos (x : R) : tan x <> 0 -> cos x <> 0.
Proof.
  intros Ht Hc; apply Ht; unfold tan, Rdiv.
  rewrite Hc, Rinv_0; ring.
Qed.

(** Away from the poles of the tangent the computed [beta] is the exact
    one. *)
Lemma float_beta_exact (F : float_ops) (f fs Q : R) :
  tan_ok F -> cos (f / (fs / 2) / Q * PI / 2) <> 0 ->
  float_beta F f fs Q = notch_beta f fs Q.
Proof. intros HF Hc; unfold float_beta, notch_beta; now apply HF. Qed.

Lemma float_beta_pos (F : float_ops) (f fs Q : R) :
  tan_ok F -> 0 < f -> 0 < fs -> f / (fs / 2) < Q ->
  0 < float_beta F f fs Q.
Proof.
  intros HF Hf Hfs HQ.
  pose proof (notch_beta_pos Hf Hfs HQ) as Hpos.
  rewrite float_beta_exact; [exact Hpos | exact HF |].
  apply tan_nonzero_cos; unfold notch_beta in Hpos; lra.
Qed.

Lemma ratio_le_1 (n d : R) : 0 < d -> n <= d -> n / d <= 1.
Proof.
  intros Hd Hn; apply Rmult_le_reg_r with d; [exact Hd|].
  unfold Rdiv; rewrite Rmult_assoc, Rinv_l by lra; lra.
Qed.

Lemma ratio_ge (l n d : R) : 0 < d -> l * d <= n -> l <= n / d.
Proof.
  intros Hd Hn; apply Rmult_le_reg_r with d; [exact Hd|].
  unfold Rdiv; rewrite Rmult_assoc, Rinv_l by lra; lra.
Qed.

(** C5, as the code has it: for [0 < freq < rate / 2], [Q > 0] and a
    half-bandwidth tangent [beta] other than 0 and -1 (as for every
    [Q] above [freq / (rate / 2)]; where the tangent has a pole its
    value in [R] is 0, so the poles are left out), the designed notch
    has a numerator
    that vanishes at the angle of [freq] while the denominator vanishes
    nowhere on the unit circle, so the response there is exactly 0; the
    squared magnitude of the response never exceeds 1, is 1 at the
    angles 0 and [PI], and at any angle [w] is within
    [(beta / (cos w - cos w0))^2] of 1. *)
Theorem notch_response (F : float_ops) (f fs Q : R) :
  tan_ok F -> divide_ok F ->
  0 < f < fs / 2 -> 0 < Q ->
  notch_beta f fs Q <> 0 -> 1 + notch_beta f fs Q <> 0 ->
  exists b a,
    design_notch F f fs Q = Ok (b, a) /\
    freqz_poly b (digital_angle f fs) = Czero /\
    (forall w, 0 < Cnorm2 (freqz_poly a w)) /\
    response_mag2 b a (digital_angle f fs) = 0 /\
    (forall w, response_mag2 b a w <= 1) /\
    (forall w, cos w <> cos (digital_angle f fs) ->
       1 - (notch_beta f fs Q / (cos w - cos (digital_angle f fs))) ^ 2
       <= response_mag2 b a w) /\
    response_mag2 b a 0 = 1 /\ response_mag2 b a PI = 1.
Proof.
  intros HF Hdiv [Hf0 Hf1] HQ Hb0 Hb1.
  assert (Hfs : 0 < fs) by lra.
  destruct (normalized_range f Hfs) as (Hge0 & Hle1 & Hlt0 & Hgt1).
  rewrite design_notch_unfold by lra.
  unfold digital_angle, notch_beta in *.
  set (w0 := f / (fs / 2)) in *.
  assert (Hw : 0 < w0 < 1).
  { split; [subst w0; apply Rdiv_lt_0_compat; lra|].
    destruct (Rlt_dec w0 1) as [|Hn]; [assumption|].
    assert (1 <= w0) as H1 by lra.
    destruct H1 as [H1|H1]; [apply Hgt1 in H1; lra|].
    assert (f <= fs / 2) by lra.
    assert (f = w0 * (fs / 2)) by (subst w0; field; lra).
    nra. }
  rewrite iirnotch_ok by lra.
  rewrite (HF _ (tan_nonzero_cos Hb0)), (Hdiv 1 _ Hb1).
  destruct (notch_angle_facts Hw) as (Hs0 & Hc0lo & Hc0hi).
  remember (tan (w0 / Q * PI / 2)) as beta eqn:Ebeta.
  remember (cos (w0 * PI)) as c0 eqn:Ec0.
  remember (sin (w0 * PI)) as s0 eqn:Es0.
  cbv zeta.
  remember (1 / (1 + beta)) as g eqn:Eg.
  assert (Hg : g * (1 + beta) = 1) by (subst g; field; exact Hb1).
  assert (Hg0 : g <> 0) by (intros E; rewrite E in Hg; lra).
  assert (Hg1 : 1 - g = g * beta) by lra.
  assert (Hg1' : 1 - g <> 0).
  { rewrite Hg1; now apply Rmult_integral_contrapositive_currified. }
  assert (Hgg : 0 < g * g) by nra.
  assert (Hmm : 0 < (1 - g) * (1 - g)) by nra.
  assert (HA : forall w,
    0 < Cnorm2 (freqz_poly [1; -2 * g * c0; 2 * g - 1] w)).
  { intros w; rewrite notch_denominator_norm.
    pose proof (sin2_cos2' w) as Hsc.
    destruct (Req_dec_T (sin w) 0) as [Hz|Hnz].
    - rewrite Hz in *.
      assert (Hc : (cos w - c0) * (cos w - c0) > 0).
      { assert (cos w = 1 \/ cos w = -1) as [->| ->] by nra; nra. }
      nra.
    - assert (Hss : 0 < sin w * sin w).
      { pose proof (Rle_0_sqr (sin w)) as Hq; unfold Rsqr in Hq.
        destruct Hq as [Hq|Hq]; [exact Hq|].
        symmetry in Hq; apply Rmult_integral in Hq; tauto. }
      pose proof (Rle_0_sqr (cos w - c0)) as Hcc; unfold Rsqr in Hcc.
      clear - Hss Hcc Hgg Hmm.
      assert (0 < (1 - g) * (1 - g) * (sin w * sin w))
        by (apply Rmult_lt_0_compat; assumption).
      assert (0 <= g * g * ((cos w - c0) * (cos w - c0)))
        by (apply Rmult_le_pos; lra).
      lra. }
  do 2 eexists; split; [reflexivity|].
  split; [|split; [|split; [|split; [|split; [|split]]]]].
  - rewrite freqz_poly3; rewrite <- Ec0, <- Es0.
    pose proof (sin2_cos2' (w0 * PI)) as Hsc; rewrite <- Ec0, <- Es0 in Hsc.
    unfold Czero; f_equal; nsatz.
  - exact HA.
  - unfold response_mag2; rewrite notch_numerator_norm, <- Ec0.
    unfold Rdiv; ring.
  - intros w; unfold response_mag2; apply ratio_le_1; [apply HA|].
    rewrite notch_numerator_norm, notch_denominator_norm.
    assert (0 <= sin w * sin w) by nra.
    nra.
  - intros w Hne.
    unfold response_mag2; apply ratio_ge; [apply HA|].
    rewrite notch_numerator_norm, notch_denominator_norm.
    pose proof (sin2_cos2' w) as Hsc.
    remember (sin w) as s eqn:Es; remember (cos w) as c eqn:Ec.
    assert (Hd : c - c0 <> 0) by lra.
    remember (beta / (c - c0)) as t eqn:Et.
    assert (Ht : t * (c - c0) = beta) by (subst t; field; exact Hd).
    assert (Hg1t : 1 - g = g * (t * (c - c0))) by (rewrite Ht; exact Hg1).
    rewrite Hg1t; simpl.
    remember ((c - c0) * (c - c0)) as D eqn:ED.
    assert (HD : 0 < D) by (subst D; nra).
    assert (Hs1 : s * s <= 1) by nra.
    assert (Ht2 : 0 <= t * t) by nra.
    assert (Hkey : (1 - t * t) * (1 + t * t * (s * s)) <= 1) by nra.
    assert (HgD : 0 <= 4 * (g * g) * D) by nra.
    replace ((1 - t * (t * 1))
             * (4 * g * g * (c - c0) * (c - c0)
                + 4 * (g * (t * (c - c0))) * (g * (t * (c - c0))) * s * s))
      with ((4 * (g * g) * D) * ((1 - t * t) * (1 + t * t * (s * s))))
      by (subst D; ring).
    replace (4 * g * g * (c - c0) * (c - c0)) with (4 * (g * g) * D)
      by (subst D; ring).
    nra.
  - unfold response_mag2.
    pose proof (HA 0) as HA0.
    rewrite notch_numerator_norm in *; rewrite notch_denominator_norm in *.
    rewrite sin_0, cos_0 in *.
    replace (4 * g * g * (1 - c0) * (1 - c0) + 4 * (1 - g) * (1 - g) * 0 * 0)
      with (4 * g * g * (1 - c0) * (1 - c0)) in * by ring.
    field; lra.
  - unfold response_mag2.
    pose proof (HA PI) as HAp.
    rewrite notch_numerator_norm in *; rewrite notch_denominator_norm in *.
    rewrite sin_PI, cos_PI in *.
    replace (4 * g * g * (-1 - c0) * (-1 - c0) + 4 * (1 - g) * (1 - g) * 0 * 0)
      with (4 * g * g * (-1 - c0) * (-1 - c0)) in * by ring.
    field; lra.
Qed.

Lemma notch_response_witness :
  tan_ok exact_ops /\ divide_ok exact_ops /\
  0 < 15 < 200 / 2 /\ 0 < 30 /\
  notch_beta 15 200 30 <> 0 /\ 1 + notch_beta 15 200 30 <> 0 /\
  exists b a,
    design_notch exact_ops 15 200 30 = Ok (b, a) /\
    freqz_poly b (digital_angle 15 200) = Czero /\
    response_mag2 b a (digital_angle 15 200) = 0 /\
    response_mag2 b a 0 = 1.
Proof.
  assert (Hf : 0 < 15 < 200 / 2) by lra.
  assert (HQ : 0 < 30) by lra.
  assert (Hpos : 0 < notch_beta 15 200 30).
  { apply notch_beta_pos; lra. }
  assert (Hb0 : notch_beta 15 200 30 <> 0) by lra.
  assert (Hb1 : 1 + notch_beta 15 200 30 <> 0) by lra.
  split; [exact exact_tan_ok|]; split; [exact exact_divide_ok|].
  split; [exact Hf|]; split; [exact HQ|]; split; [exact Hb0|];
    split; [exact Hb1|].
  destruct (@notch_response exact_ops 15 200 30 exact_tan_ok exact_divide_ok
              Hf HQ Hb0 Hb1)
    as (b & a & Hrun & Hzero & _ & Hmag & _ & _ & Hdc & _).
  exists b, a; repeat split; assumption.
Defined.

(** C5 as stated fails: at [Q = 1/4] the notch designed for 50 Hz at a
    rate of 200 Hz has equal numerator and denominator, both vanishing
    at the angle of 50 Hz; the response is 1 wherever it is defined and
    rejects nothing. *)
Lemma notch_degenerate :
  0 < 50 < 200 / 2 /\ 0 < 1 / 4 /\
  (forall F, tan_ok F -> divide_ok F ->
     design_notch F 50 200 (1 / 4) = Ok ([1; 0; 1], [1; 0; 1])) /\
  Cnorm2 (freqz_poly [1; 0; 1] (digital_angle 50 200)) = 0 /\
  forall w, Cnorm2 (freqz_poly [1; 0; 1] w) <> 0 ->
            response_mag2 [1; 0; 1] [1; 0; 1] w = 1.
Proof.
  split; [lra|]; split; [lra|]; split; [|split].
  - intros F HF HD; rewrite design_notch_unfold by lra.
    replace (50 / (200 / 2)) with (1 / 2) by field.
    rewrite iirnotch_ok by lra; cbv zeta.
    replace (1 / 2 / (1 / 4) * PI / 2) with PI by field.
    replace (1 / 2 * PI) with (PI / 2) by field.
    rewrite HF by (rewrite cos_PI; lra).
    rewrite tan_PI, HD by lra.
    rewrite cos_PI2.
    do 2 f_equal; repeat f_equal; field.
  - unfold digital_angle.
    replace (50 / (200 / 2) * PI) with (PI / 2) by field.
    rewrite freqz_poly3, cos_PI2, sin_PI2; unfold Cnorm2, Cre, Cim; simpl; ring.
  - intros w Hw; unfold response_mag2; field; exact Hw.
Qed.

(** ** Complex arithmetic *)

Ltac Csimpl :=
  unfold Cdiv, Cinv, Cminus, Cmult, Cplus, Copp, Cconj, Cscale, Cnorm2,
    RtoC, Cone, Czero, Cre, Cim in *; simpl in *.

Lemma C_eq (z w : C) : Cre z = Cre w -> Cim z = Cim w -> z = w.
Proof. destruct z, w; unfold Cre, Cim; simpl; intros -> ->; reflexivity. Qed.

Lemma Cmult_comm (z w : C) : Cmult z w = Cmult w z.
Proof. apply C_eq; Csimpl; ring. Qed.

Lemma Cmult_assoc (x y z : C) : Cmult x (Cmult y z) = Cmult (Cmult x y) z.
Proof. apply C_eq; Csimpl; ring. Qed.

Lemma Cmult_1_l (z : C) : Cmult Cone z = z.
Proof. apply C_eq; Csimpl; ring. Qed.

Lemma Cmult_1_r (z : C) : Cmult z Cone = z.
Proof. apply C_eq; Csimpl; ring. Qed.

Lemma Cnorm2_mult (z w : C) : Cnorm2 (Cmult z w) = Cnorm2 z * Cnorm2 w.
Proof. Csimpl; ring. Qed.

Lemma Cconj_mult (z w : C) : Cconj (Cmult z w) = Cmult (Cconj z) (Cconj w).
Proof. apply C_eq; Csimpl; ring. Qed.

Lemma Cconj_div (z w : C) : Cconj (Cdiv z w) = Cdiv (Cconj z) (Cconj w).
Proof.
  apply C_eq; Csimpl;
    replace (- snd w * - snd w) with (snd w * snd w) by ring;
    unfold Rdiv; ring.
Qed.

Lemma Cprod_app (l1 l2 : list C) :
  Cprod (l1 ++ l2) = Cmult (Cprod l1) (Cprod l2).
Proof.
  induction l1 as [|z t IH]; simpl.
  - now rewrite Cmult_1_l.
  - now rewrite IH, Cmult_assoc.
Qed.

Lemma Cprod_rev (l : list C) : Cprod (rev l) = Cprod l.
Proof.
  induction l as [|z t IH]; simpl; [reflexivity|].
  now rewrite Cprod_app, IH; simpl; rewrite Cmult_1_r, Cmult_comm.
Qed.

Lemma Cprod_conj (l : list C) : Cprod (map Cconj l) = Cconj (Cprod l).
Proof.
  induction l as [|z t IH]; simpl.
  - apply C_eq; Csimpl; ring.
  - now rewrite IH, Cconj_mult.
Qed.

Lemma Cnorm2_prod_pos (l : list C) :
  (forall z, In z l -> 0 < Cnorm2 z) -> 0 < Cnorm2 (Cprod l).
Proof.
  induction l as [|z t IH]; intros H; simpl.
  - Csimpl; lra.
  - rewrite Cnorm2_mult; apply Rmult_lt_0_compat.
    + apply H; now left.
    + apply IH; intros w Hw; apply H; now right.
Qed.

Lemma sum_Cre (l : list C) : Np.sum (map Cre l) = Cre (Csum l).
Proof. induction l as [|z t IH]; simpl; [reflexivity | now rewrite IH]. Qed.

(** ** The polynomial of given roots *)

Lemma convolve_root_length (prev : C) (a : list C) (zero : C) :
  length (Signal.convolve_root prev a zero) = S (length a).
Proof.
  revert prev; induction a as [|c a IH]; intros prev; simpl;
    [reflexivity | now rewrite IH].
Qed.

Lemma convolve_root_sum (prev : C) (a : list C) (zero : C) :
  Csum (Signal.convolve_root prev a zero)
  = Cminus (Cmult (Cplus prev (Csum a)) (Cminus Cone zero)) prev.
Proof.
  revert prev; induction a as [|c a IH]; intros prev; simpl.
  - apply C_eq; Csimpl; ring.
  - rewrite IH; apply C_eq; Csimpl; ring.
Qed.

Lemma poly_fold_length (roots : list C) (acc : list C) :
  length (fold_left (fun a zero => Signal.convolve_root Czero a zero) roots acc)
  = (length acc + length roots)%nat.
Proof.
  revert acc; induction roots as [|r t IH]; intros acc; simpl; [lia|].
  rewrite IH, convolve_root_length; lia.
Qed.

Lemma poly_length (roots : list C) :
  length (Signal.poly roots) = S (length roots).
Proof. unfold Signal.poly; now rewrite poly_fold_length. Qed.

Lemma poly_fold_sum (roots : list C) (acc : list C) :
  Csum (fold_left (fun a zero => Signal.convolve_root Czero a zero) roots acc)
  = Cmult (Csum acc) (Cprod (map (Cminus Cone) roots)).
Proof.
  revert acc; induction roots as [|r t IH]; intros acc; simpl.
  - now rewrite Cmult_1_r.
  - rewrite IH, convolve_root_sum, Cmult_assoc; f_equal.
    apply C_eq; Csimpl; ring.
Qed.

(** The sum of the coefficients is the value of the polynomial at 1. *)
Lemma poly_sum (roots : list C) :
  Csum (Signal.poly roots) = Cprod (map (Cminus Cone) roots).
Proof.
  unfold Signal.poly; rewrite poly_fold_sum; simpl.
  rewrite <- (Cmult_1_l (Cprod _)) at 2; f_equal.
  apply C_eq; Csimpl; ring.
Qed.

Lemma poly_fold_head (roots : list C) (c : C) (acc : list C) :
  hd Czero (fold_left (fun a zero => Signal.convolve_root Czero a zero)
                      roots (c :: acc)) = c.
Proof.
  revert c acc; induction roots as [|r t IH]; intros c acc; simpl;
    [reflexivity|].
  rewrite IH; apply C_eq; Csimpl; ring.
Qed.

(** The polynomial is monic. *)
Lemma poly_head (roots : list C) : hd Czero (Signal.poly roots) = Cone.
Proof. unfold Signal.poly; apply poly_fold_head. Qed.

(** ** The Butterworth design *)

Lemma arange2_symmetric (N : Z) :
  (0 <= N)%Z ->
  Np.arange2 (- N + 1) N
  = map (fun i => (- N + 1 + 2 * Z.of_nat i)%Z) (seq 0 (Z.to_nat N)).
Proof.
  intros HN; unfold Np.arange2.
  replace ((N - (- N + 1) + 1) / 2)%Z with N; [reflexivity|].
  replace (N - (- N + 1) + 1)%Z with (N * 2)%Z by lia.
  now rewrite Z.div_mul.
Qed.

Lemma arange2_symmetric_length (N : Z) :
  (0 <= N)%Z -> length (Np.arange2 (- N + 1) N) = Z.to_nat N.
Proof.
  intros HN; rewrite arange2_symmetric by exact HN.
  now rewrite length_map, length_seq.
Qed.

Lemma arange2_symmetric_bound (N m : Z) :
  (0 <= N)%Z -> In m (Np.arange2 (- N + 1) N) -> (- N < m < N)%Z.
Proof.
  intros HN Hin; rewrite arange2_symmetric in Hin by exact HN.
  apply in_map_iff in Hin as (i & <- & Hi); apply in_seq in Hi; lia.
Qed.

(** The indices of the poles, read backwards, are their opposites. *)
Lemma arange2_symmetric_rev (N : Z) :
  (0 <= N)%Z ->
  rev (Np.arange2 (- N + 1) N) = map Z.opp (Np.arange2 (- N + 1) N).
Proof.
  intros HN; rewrite arange2_symmetric by exact HN.
  set (n := Z.to_nat N).
  apply (nth_ext _ _ 0%Z 0%Z).
  - now rewrite length_rev, !length_map.
  - intros i Hi; rewrite length_rev, length_map, length_seq in Hi.
    rewrite rev_nth by (now rewrite length_map, length_seq).
    rewrite length_map, length_seq.
    rewrite (nth_map_in _ _ 0%Z 0%nat) by (rewrite length_seq; lia).
    rewrite (nth_map_in _ _ 0%Z 0%Z) by (now rewrite length_map, length_seq).
    rewrite (nth_map_in _ _ 0%Z 0%nat) by (now rewrite length_seq).
    rewrite !seq_nth by lia.
    subst n; lia.
Qed.

Lemma digital_pole_conj (N : Z) (wo : R) (m : Z) :
  digital_pole N wo (- m) = Cconj (digital_pole N wo m).
Proof.
  unfold digital_pole; cbv zeta; rewrite Cconj_div; f_equal.
  - rewrite opp_IZR.
    replace (PI * - IZR m / (2 * IZR N)) with (- (PI * IZR m / (2 * IZR N)))
      by (unfold Rdiv; ring).
    apply C_eq; unfold Cexp; Csimpl; rewrite ?cos_neg, ?sin_neg; ring.
  - rewrite opp_IZR.
    replace (PI * - IZR m / (2 * IZR N)) with (- (PI * IZR m / (2 * IZR N)))
      by (unfold Rdiv; ring).
    apply C_eq; unfold Cexp; Csimpl; rewrite ?cos_neg, ?sin_neg; ring.
Qed.

(** The product of the factors [1 - p] over the poles is real. *)
Lemma pole_product_real (N : Z) (wo : R) :
  (0 <= N)%Z ->
  Cim (Cprod (map (fun m => Cminus Cone (digital_pole N wo m))
                  (Np.arange2 (- N + 1) N))) = 0.
Proof.
  intros HN.
  set (F := fun m => Cminus Cone (digital_pole N wo m)).
  set (ms := Np.arange2 (- N + 1) N).
  assert (Hconj : Cconj (Cprod (map F ms)) = Cprod (map F ms)).
  { rewrite <- Cprod_conj, map_map.
    rewrite <- (Cprod_rev (map F ms)), <- map_rev.
    subst ms; rewrite arange2_symmetric_rev by exact HN.
    rewrite map_map; f_equal; apply map_ext; intros m.
    subst F; cbv beta; rewrite digital_pole_conj.
    apply C_eq; Csimpl; ring. }
  apply (f_equal Cim) in Hconj; unfold Cconj, Cim in *; simpl in Hconj.
  lra.
Qed.

Lemma Cnorm2_one_minus_div (u v : C) :
  Cnorm2 u <> 0 ->
  Cnorm2 (Cminus Cone (Cdiv v u)) = Cnorm2 (Cminus u v) / Cnorm2 u.
Proof.
  destruct u as [a b], v as [c d]; intros H; Csimpl; field; exact H.
Qed.

Lemma pole_factor_nonzero (N : Z) (wo : R) (m : Z) :
  0 < wo -> (- N < m < N)%Z ->
  0 < Cnorm2 (Cminus Cone (digital_pole N wo m)).
Proof.
  intros Hwo Hm.
  assert (HN : 0 < IZR N) by (apply IZR_lt; lia).
  pose proof PI_RGT_0 as Hpi.
  set (t := PI * IZR m / (2 * IZR N)).
  assert (Ht : - (PI / 2) < t < PI / 2).
  { assert (Hm1 : - IZR N < IZR m) by (rewrite <- opp_IZR; apply IZR_lt; lia).
    assert (Hm2 : IZR m < IZR N) by (apply IZR_lt; lia).
    assert (Hq : -1 < IZR m / IZR N < 1).
    { split.
      - apply Rmult_lt_reg_r with (IZR N); [exact HN|].
        unfold Rdiv; rewrite Rmult_assoc, Rinv_l by lra; lra.
      - apply Rmult_lt_reg_r with (IZR N); [exact HN|].
        unfold Rdiv; rewrite Rmult_assoc, Rinv_l by lra; lra. }
    replace t with (PI / 2 * (IZR m / IZR N)) by (subst t; field; lra).
    split; nra. }
  assert (Hcos : 0 < cos t) by (apply cos_gt_0; lra).
  pose proof (sin2_cos2' t) as Hsc.
  unfold digital_pole; cbv zeta; fold t.
  set (q := Cscale wo (Copp (Cexp t))).
  assert (Hu : 0 < Cnorm2 (Cminus (RtoC (2 * 2)) q)).
  { subst q; unfold Cexp; Csimpl.
    assert (0 < 2 * 2 + - (wo * - cos t)) by nra.
    assert (0 <= (0 + - (wo * - sin t)) * (0 + - (wo * - sin t))) by nra.
    nra. }
  rewrite Cnorm2_one_minus_div by lra.
  apply Rdiv_lt_0_compat; [|exact Hu].
  replace (Cnorm2 (Cminus (Cminus (RtoC (2 * 2)) q) (Cplus (RtoC (2 * 2)) q)))
    with (4 * (wo * wo) * (sin t * sin t + cos t * cos t))
    by (subst q; unfold Cexp; Csimpl; ring).
  rewrite Hsc; nra.
Qed.

Lemma hd_map_Cre (l : list C) : hd 0 (map Cre l) = Cre (hd Czero l).
Proof. destruct l; reflexivity. Qed.

(** The design succeeds on an order of 0 or more and a cutoff strictly
    inside (0, 1); both coefficient arrays have [N + 1] entries, the
    denominator is monic and does not vanish at [z = 1]. *)
Lemma butter_ok (N : Z) (Wn : R) :
  (0 <= N)%Z -> 0 < Wn < 1 ->
  exists b a,
    Signal.butter N Wn = Ok (b, a) /\
    length b = S (Z.to_nat N) /\ length a = S (Z.to_nat N) /\
    hd 0 a = 1 /\ Np.sum a <> 0.
Proof.
  intros HN [HW0 HW1].
  unfold Signal.butter, Signal.buttap.
  destruct (Z.ltb_spec N 0) as [|_]; [lia|]; cbn [bind].
  assert (H0 : Rleb Wn 0 = false) by (apply Rleb_false; lra).
  assert (H1 : Rleb 1 Wn = false) by (apply Rleb_false; lra).
  rewrite H0, H1; cbn [orb].
  unfold Signal.lp2lp_zpk, Signal.bilinear_zpk, Signal.zpk2tf.
  set (wo := 2 * 2 * tan (PI * Wn / 2)).
  assert (Hwo : 0 < wo).
  { pose proof PI_RGT_0 as Hpi.
    assert (0 < tan (PI * Wn / 2)) by (apply tan_gt_0; nra).
    subst wo; lra. }
  set (ms := Np.arange2 (- N + 1) N).
  do 2 eexists; split; [reflexivity|].
  rewrite !map_map.
  assert (Hlen : length ms = Z.to_nat N)
    by (subst ms; now apply arange2_symmetric_length).
  split; [|split; [|split]].
  - rewrite length_map, poly_length; simpl.
    now rewrite repeat_length, !length_map, Hlen, Nat.sub_0_r.
  - now rewrite length_map, poly_length, length_map, Hlen.
  - now rewrite hd_map_Cre, poly_head.
  - rewrite sum_Cre, poly_sum, map_map.
    match goal with |- Cre ?P <> 0 => set (P0 := P) end.
    assert (HP : P0 = Cprod (map (fun m => Cminus Cone (digital_pole N wo m)) ms))
      by reflexivity.
    assert (Him : Cim P0 = 0)
      by (rewrite HP; subst ms; now apply pole_product_real).
    assert (Hnorm : 0 < Cnorm2 P0).
    { rewrite HP; apply Cnorm2_prod_pos; intros z Hz.
      apply in_map_iff in Hz as (m & <- & Hm).
      apply pole_factor_nonzero; [exact Hwo|].
      subst ms; now apply arange2_symmetric_bound. }
    unfold Cnorm2 in Hnorm; rewrite Him in Hnorm.
    intros E; rewrite E in Hnorm; lra.
Qed.

Lemma butter_out_of_range (N : Z) (Wn : R) :
  Wn <= 0 \/ 1 <= Wn -> exists e, Signal.butter N Wn = Raise e.
Proof.
  intros HW; unfold Signal.butter, Signal.buttap.
  destruct (Z.ltb_spec N 0); cbn [bind]; [eexists; reflexivity|].
  assert (Hor : (Rleb Wn 0 || Rleb 1 Wn)%bool = true).
  { apply orb_true_iff; destruct HW; [left | right]; now apply Rleb_true. }
  rewrite Hor; eexists; reflexivity.
Qed.

Lemma butter_lengths (N : Z) (Wn : R) (b a : list R) :
  Signal.butter N Wn = Ok (b, a) ->
  length b = S (Z.to_nat N) /\ length a = S (Z.to_nat N).
Proof.
  intros H.
  destruct (Z.ltb_spec N 0) as [Hneg|Hpos].
  - unfold Signal.butter, Signal.buttap in H.
    apply Z.ltb_lt in Hneg; rewrite Hneg in H; discriminate.
  - destruct (Rle_dec Wn 0) as [Hw0|Hw0].
    + destruct (@butter_out_of_range N Wn (or_introl Hw0)) as (e & He).
      rewrite He in H; discriminate.
    + destruct (Rle_dec 1 Wn) as [Hw1|Hw1].
      * destruct (@butter_out_of_range N Wn (or_intror Hw1)) as (e & He).
        rewrite He in H; discriminate.
      * destruct (@butter_ok N Wn Hpos) as (b' & a' & Hrun & Hb & Ha & _);
          [lra|].
        rewrite Hrun in H; injection H as <- <-; now split.
Qed.

(** ** The two stages *)

Lemma design_notch_lengths (F : float_ops) (f fs Q : R) (b a : list R) :
  design_notch F f fs Q = Ok (b, a) -> length b = 3%nat /\ length a = 3%nat.
Proof.
  unfold design_notch, py_div, Signal.iirnotch.
  destruct (Reqb (fs / 2) 0); [discriminate|]; cbn [bind]; cbv zeta.
  destruct (_ || _)%bool; [discriminate|]; unfold py_div.
  destruct (Reqb Q 0); [discriminate|]; cbn [bind].
  intros H; injection H as <- <-; now split.
Qed.

Lemma design_notch_applicable (F : float_ops) (f fs Q : R) :
  divide_ok F ->
  0 < f < fs / 2 -> Q <> 0 -> 1 + float_beta F f fs Q <> 0 ->
  exists b a, design_notch F f fs Q = Ok (b, a) /\ applicable b a /\
              length b = 3%nat /\ length a = 3%nat.
Proof.
  intros Hdiv [Hf0 Hf1] HQ Hb1.
  assert (Hfs : 0 < fs) by lra.
  destruct (normalized_range f Hfs) as (Hge0 & Hle1 & Hlt0 & Hgt1).
  rewrite design_notch_unfold by lra.
  unfold float_beta in Hb1.
  set (w0 := f / (fs / 2)) in *.
  assert (Hw : 0 < w0 < 1).
  { split; [subst w0; apply Rdiv_lt_0_compat; lra|].
    destruct (Rlt_dec w0 1) as [|Hn]; [assumption|].
    assert (1 <= w0) as H1 by lra.
    destruct H1 as [H1|H1]; [apply Hgt1 in H1; lra|].
    assert (f = w0 * (fs / 2)) by (subst w0; field; lra).
    nra. }
  rewrite iirnotch_ok by lra; cbv zeta.
  rewrite (Hdiv 1 _ Hb1).
  destruct (notch_angle_facts Hw) as (_ & _ & Hc0).
  remember (fl_tan F (w0 / Q * PI / 2)) as beta eqn:Ebeta.
  remember (cos (w0 * PI)) as c0 eqn:Ec0.
  remember (1 / (1 + beta)) as g eqn:Eg.
  assert (Hg : g * (1 + beta) = 1) by (subst g; field; exact Hb1).
  assert (Hg0 : g <> 0) by (intros E; rewrite E in Hg; lra).
  do 2 eexists; split; [reflexivity|]; split; [|split; reflexivity].
  split; [simpl; lra|]; split; [simpl; lia|].
  simpl.
  replace (1 + (-2 * g * c0 + (2 * g - 1 + 0))) with (2 * g * (1 - c0)) by ring.
  apply Rmult_integral_contrapositive_currified; [|lra].
  apply Rmult_integral_contrapositive_currified; [lra | exact Hg0].
Qed.

Lemma design_lowpass_applicable (cutoff fs : R) (order : Z) :
  0 < cutoff < fs / 2 -> (1 <= order)%Z ->
  exists b a, design_lowpass cutoff fs order = Ok (b, a) /\ applicable b a /\
              length b = S (Z.to_nat order) /\ length a = S (Z.to_nat order).
Proof.
  intros [Hc0 Hc1] Hord.
  assert (Hfs : 0 < fs) by lra.
  destruct (normalized_range cutoff Hfs) as (Hge0 & Hle1 & Hlt0 & Hgt1).
  unfold design_lowpass; rewrite py_div_ok by lra; cbn [bind].
  set (w := cutoff / (fs / 2)) in *.
  assert (Hw : 0 < w < 1).
  { split; [subst w; apply Rdiv_lt_0_compat; lra|].
    destruct (Rlt_dec w 1) as [|Hn]; [assumption|].
    assert (1 <= w) as H1 by lra.
    destruct H1 as [H1|H1]; [apply Hgt1 in H1; lra|].
    assert (cutoff = w * (fs / 2)) by (subst w; field; lra).
    nra. }
  destruct (@butter_ok order w ltac:(lia) Hw) as (b & a & Hrun & Hb & Ha & Hhd & Hsum).
  exists b, a; split; [exact Hrun|]; split; [|now split].
  split; [rewrite Hhd; lra|]; split; [rewrite Ha; lia | exact Hsum].
Qed.

(** C3: the zero-phase applier returns as many samples as it is given,
    in general and in the notch and low-pass stages; and the stages do
    return on valid input: a frequency strictly between 0 and the
    Nyquist frequency, a notch whose gain [1 / (1 + beta)] is finite (or
    an order of 1 or more), and a signal longer than the padding. *)
Theorem zero_phase_preserves_length :
  (forall b a x y, Signal.filtfilt b a x = Ok y -> length y = length x) /\
  (forall F x f fs Q y,
     apply_notch_filter F x f fs Q = Ok y -> length y = length x) /\
  (forall x cutoff fs order y,
     apply_lowpass_filter x cutoff fs order = Ok y -> length y = length x) /\
  (forall b a x,
     applicable b a -> (3 * Nat.max (length b) (length a) < length x)%nat ->
     exists y, Signal.filtfilt b a x = Ok y /\ length y = length x) /\
  (forall F x f fs Q,
     divide_ok F ->
     0 < f < fs / 2 -> Q <> 0 -> 1 + float_beta F f fs Q <> 0 ->
     (9 < length x)%nat ->
     exists y, apply_notch_filter F x f fs Q = Ok y /\ length y = length x) /\
  (forall x cutoff fs order,
     0 < cutoff < fs / 2 -> (1 <= order)%Z ->
     (3 * (Z.to_nat order + 1) < length x)%nat ->
     exists y, apply_lowpass_filter x cutoff fs order = Ok y /\
               length y = length x).
Proof.
  split; [|split; [|split; [|split; [|split]]]].
  - intros b a x y; apply filtfilt_length.
  - intros F x f fs Q y H; unfold apply_notch_filter in H.
    bind_inv H; destruct u as [b a]; now apply filtfilt_length in H.
  - intros x cutoff fs order y H; unfold apply_lowpass_filter in H.
    bind_inv H; destruct u as [b a]; now apply filtfilt_length in H.
  - intros b a x; apply filtfilt_ok.
  - intros F x f fs Q Hdiv Hf HQ Hbeta Hlen.
    destruct (design_notch_applicable Hdiv Hf HQ Hbeta)
      as (b & a & Hrun & Happ & Hb & Ha).
    unfold apply_notch_filter; rewrite Hrun; cbn [bind].
    apply filtfilt_ok; [exact Happ | rewrite Hb, Ha; simpl; lia].
  - intros x cutoff fs order Hc Hord Hlen.
    destruct (design_lowpass_applicable Hc Hord)
      as (b & a & Hrun & Happ & Hb & Ha).
    unfold apply_lowpass_filter; rewrite Hrun; cbn [bind].
    apply filtfilt_ok; [exact Happ | rewrite Hb, Ha; lia].
Qed.

Lemma zero_phase_preserves_length_witness :
  divide_ok exact_ops /\
  0 < 15 < 200 / 2 /\ 30 <> 0 /\ 1 + float_beta exact_ops 15 200 30 <> 0 /\
  (9 < length [1; 2; 3; 4; 5; 4; 3; 2; 1; 0]%R)%nat /\
  (exists y, apply_notch_filter exact_ops
               [1; 2; 3; 4; 5; 4; 3; 2; 1; 0] 15 200 30 = Ok y
             /\ length y = 10%nat) /\
  0 < 10 < 200 / 2 /\ (1 <= 2)%Z /\
  (3 * (Z.to_nat 2 + 1) < length [1; 2; 3; 4; 5; 4; 3; 2; 1; 0]%R)%nat /\
  (exists y, apply_lowpass_filter [1; 2; 3; 4; 5; 4; 3; 2; 1; 0] 10 200 2 = Ok y
             /\ length y = 10%nat).
Proof.
  assert (Hdiv : divide_ok exact_ops) by exact exact_divide_ok.
  assert (Hf : 0 < 15 < 200 / 2) by lra.
  assert (HQ : 30 <> 0) by lra.
  assert (Hpos : 0 < float_beta exact_ops 15 200 30)
    by (apply float_beta_pos; [exact exact_tan_ok | lra..]).
  assert (Hb1 : 1 + float_beta exact_ops 15 200 30 <> 0) by lra.
  assert (Hlen : (9 < length [1; 2; 3; 4; 5; 4; 3; 2; 1; 0]%R)%nat)
    by (simpl; lia).
  assert (Hc : 0 < 10 < 200 / 2) by lra.
  assert (Hord : (1 <= 2)%Z) by lia.
  assert (Hlen2 : (3 * (Z.to_nat 2 + 1)
                   < length [1; 2; 3; 4; 5; 4; 3; 2; 1; 0]%R)%nat)
    by (simpl; lia).
  destruct zero_phase_preserves_length as (_ & _ & _ & _ & Hnotch & Hlow).
  repeat (split; [assumption|]); split; [|repeat (split; [assumption|])].
  - exact (Hnotch exact_ops _ 15 200 30 Hdiv Hf HQ Hb1 Hlen).
  - exact (Hlow _ 10 200 2%Z Hc Hord Hlen2).
Defined.

(** On an applicable filter and a signal longer than the padding the
    applier returns, and what it returns is the middle part of the padded
    signal filtered forwards and backwards. *)
Lemma filtfilt_run (b a x : list R) :
  let pad := (3 * Nat.max (length b) (length a))%nat in
  applicable b a -> (pad < length x)%nat ->
  exists ext zi y1 z1 y2 z2,
    Signal.odd_ext x pad = Ok ext /\
    Signal.lfilter_zi b a = Ok zi /\
    Signal.lfilter b a ext (map (fun z => z * hd 0 ext) zi) = Ok (y1, z1) /\
    Signal.lfilter b a (rev y1) (map (fun z => z * last y1 0) zi)
    = Ok (y2, z2) /\
    length y2 = (length x + 2 * pad)%nat /\
    Signal.filtfilt b a x = Ok (firstn (length x) (skipn pad (rev y2))).
Proof.
  intros pad Happ Hlen.
  destruct (filtfilt_ok x Happ Hlen) as (y & Hy & _).
  destruct (filtfilt_inv _ _ _ Hy)
    as (_ & ext & zi & y1 & z1 & y2 & z2 & Hext & Hzi & H1 & H2 & Hl2 & Hyeq).
  fold pad in Hext, Hl2, Hyeq.
  exists ext, zi, y1, z1, y2, z2.
  repeat (split; [assumption|]).
  now rewrite Hy, Hyeq.
Qed.

(** C9: the applier pads the signal at each end with
    [3 * max (len b) (len a)] samples reflected through the end point,
    filters the padded signal forwards and backwards, and returns the
    middle part, cutting the padding; a signal that is not longer than
    the padding is rejected with [ValueError].  On an applicable filter
    and a longer signal the applier does return, and its result is that
    middle part.  The padding is 9 samples in the notch stage and
    [3 * (order + 1)] in the low-pass stage, and on valid input each
    stage returns the middle part of the two passes over its padded
    input. *)
Theorem zero_phase_padding :
  (forall b a x,
     let pad := (3 * Nat.max (length b) (length a))%nat in
     ((length x <= pad)%nat -> Signal.filtfilt b a x = Raise ValueError) /\
     ((pad < length x)%nat ->
      exists ext,
        Signal.odd_ext x pad = Ok ext /\
        length ext = (length x + 2 * pad)%nat /\
        (forall i, (i < length x)%nat -> nth (pad + i) ext 0 = nth i x 0) /\
        (forall i, (i < pad)%nat ->
           nth i ext 0 = 2 * nth 0 x 0 - nth (pad - i) x 0) /\
        (forall i, (i < pad)%nat ->
           nth (pad + length x + i) ext 0
           = 2 * nth (length x - 1) x 0 - nth (length x - 2 - i) x 0) /\
        (forall y, Signal.filtfilt b a x = Ok y ->
          exists zi y1 z1 y2 z2,
            Signal.lfilter_zi b a = Ok zi /\
            Signal.lfilter b a ext (map (fun z => z * hd 0 ext) zi)
            = Ok (y1, z1) /\
            Signal.lfilter b a (rev y1) (map (fun z => z * last y1 0) zi)
            = Ok (y2, z2) /\
            length y2 = (length x + 2 * pad)%nat /\
            y = firstn (length x) (skipn pad (rev y2))) /\
        (applicable b a ->
          exists zi y1 z1 y2 z2,
            Signal.lfilter_zi b a = Ok zi /\
            Signal.lfilter b a ext (map (fun z => z * hd 0 ext) zi)
            = Ok (y1, z1) /\
            Signal.lfilter b a (rev y1) (map (fun z => z * last y1 0) zi)
            = Ok (y2, z2) /\
            length y2 = (length x + 2 * pad)%nat /\
            Signal.filtfilt b a x
            = Ok (firstn (length x) (skipn pad (rev y2)))))) /\
  (forall F x f fs Q b a,
     design_notch F f fs Q = Ok (b, a) ->
     (3 * Nat.max (length b) (length a) = 9)%nat /\
     ((length x <= 9)%nat -> apply_notch_filter F x f fs Q = Raise ValueError)) /\
  (forall F x f fs Q,
     divide_ok F ->
     0 < f < fs / 2 -> Q <> 0 -> 1 + float_beta F f fs Q <> 0 ->
     (9 < length x)%nat ->
     exists b a ext zi y1 z1 y2 z2,
       design_notch F f fs Q = Ok (b, a) /\
       Signal.odd_ext x 9 = Ok ext /\
       length ext = (length x + 18)%nat /\
       Signal.lfilter_zi b a = Ok zi /\
       Signal.lfilter b a ext (map (fun z => z * hd 0 ext) zi) = Ok (y1, z1) /\
       Signal.lfilter b a (rev y1) (map (fun z => z * last y1 0) zi)
       = Ok (y2, z2) /\
       apply_notch_filter F x f fs Q
       = Ok (firstn (length x) (skipn 9 (rev y2)))) /\
  (forall x cutoff fs order b a,
     design_lowpass cutoff fs order = Ok (b, a) ->
     (3 * Nat.max (length b) (length a) = 3 * (Z.to_nat order + 1))%nat /\
     ((length x <= 3 * (Z.to_nat order + 1))%nat ->
      apply_lowpass_filter x cutoff fs order = Raise ValueError)) /\
  (forall x cutoff fs order,
     0 < cutoff < fs / 2 -> (1 <= order)%Z ->
     let pad := (3 * (Z.to_nat order + 1))%nat in
     (pad < length x)%nat ->
     exists b a ext zi y1 z1 y2 z2,
       design_lowpass cutoff fs order = Ok (b, a) /\
       Signal.odd_ext x pad = Ok ext /\
       length ext = (length x + 2 * pad)%nat /\
       Signal.lfilter_zi b a = Ok zi /\
       Signal.lfilter b a ext (map (fun z => z * hd 0 ext) zi) = Ok (y1, z1) /\
       Signal.lfilter b a (rev y1) (map (fun z => z * last y1 0) zi)
       = Ok (y2, z2) /\
       apply_lowpass_filter x cutoff fs order
       = Ok (firstn (length x) (skipn pad (rev y2)))).
Proof.
  split; [|split; [|split; [|split]]].
  - intros b a x pad; split.
    + apply filtfilt_short.
    + intros Hlen.
      destruct (odd_ext_shape x Hlen) as (ext & Hext & Hl & Hmid & Hleft & Hright).
      exists ext; repeat (split; [assumption|]).
      split.
      * intros y Hy.
        destruct (filtfilt_inv _ _ _ Hy)
          as (_ & ext' & zi & y1 & z1 & y2 & z2 & Hext' & Hzi & H1 & H2 & Hl2 & Hyeq).
        fold pad in Hext', Hl2, Hyeq.
        rewrite Hext in Hext'; injection Hext' as <-.
        now exists zi, y1, z1, y2, z2.
      * intros Happ.
        destruct (@filtfilt_run b a x Happ Hlen)
          as (ext' & zi & y1 & z1 & y2 & z2 & Hext' & Hzi & H1 & H2 & Hl2 & Hrun).
        fold pad in Hext', Hl2, Hrun.
        rewrite Hext in Hext'; injection Hext' as <-.
        now exists zi, y1, z1, y2, z2.
  - intros F x f fs Q b a Hrun.
    destruct (design_notch_lengths _ _ _ _ Hrun) as [Hb Ha].
    split; [rewrite Hb, Ha; reflexivity|].
    intros Hlen; unfold apply_notch_filter; rewrite Hrun; cbn [bind].
    apply filtfilt_short; rewrite Hb, Ha; simpl; lia.
  - intros F x f fs Q Hdiv Hf HQ Hbeta Hlen.
    destruct (design_notch_applicable Hdiv Hf HQ Hbeta)
      as (b & a & Hrun & Happ & Hb & Ha).
    assert (Hpad : (3 * Nat.max (length b) (length a) = 9)%nat)
      by (rewrite Hb, Ha; reflexivity).
    destruct (@filtfilt_run b a x Happ ltac:(rewrite Hpad; exact Hlen))
      as (ext & zi & y1 & z1 & y2 & z2 & Hext & Hzi & H1 & H2 & Hl2 & Hy).
    rewrite Hpad in Hext, Hy.
    destruct (odd_ext_shape x Hlen) as (ext' & Hext' & Hl & _).
    rewrite Hext in Hext'; injection Hext' as <-.
    exists b, a, ext, zi, y1, z1, y2, z2.
    repeat (split; [assumption|]).
    unfold apply_notch_filter; rewrite Hrun; cbn [bind]; exact Hy.
  - intros x cutoff fs order b a Hrun.
    assert (Hl : length b = S (Z.to_nat order) /\ length a = S (Z.to_nat order)).
    { unfold design_lowpass in Hrun; bind_inv Hrun.
      now apply butter_lengths in Hrun. }
    destruct Hl as [Hb Ha].
    split; [rewrite Hb, Ha; lia|].
    intros Hlen; unfold apply_lowpass_filter; rewrite Hrun; cbn [bind].
    apply filtfilt_short; rewrite Hb, Ha; lia.
  - intros x cutoff fs order Hc Hord pad Hlen.
    destruct (design_lowpass_applicable Hc Hord)
      as (b & a & Hrun & Happ & Hb & Ha).
    assert (Hpad : (3 * Nat.max (length b) (length a))%nat = pad)
      by (subst pad; rewrite Hb, Ha; lia).
    destruct (@filtfilt_run b a x Happ ltac:(rewrite Hpad; exact Hlen))
      as (ext & zi & y1 & z1 & y2 & z2 & Hext & Hzi & H1 & H2 & Hl2 & Hy).
    rewrite Hpad in Hext, Hy.
    destruct (odd_ext_shape x Hlen) as (ext' & Hext' & Hl & _).
    rewrite Hext in Hext'; injection Hext' as <-.
    exists b, a, ext, zi, y1, z1, y2, z2.
    repeat (split; [assumption|]).
    unfold apply_lowpass_filter; rewrite Hrun; cbn [bind]; exact Hy.
Qed.

Lemma zero_phase_padding_witness :
  (length [1; 2; 3; 4; 5; 6; 7; 8; 9]%R
   <= 3 * Nat.max (length [1; 0; 1]%R) (length [1; 0; 1]%R))%nat /\
  Signal.filtfilt [1; 0; 1] [1; 0; 1] [1; 2; 3; 4; 5; 6; 7; 8; 9]
  = Raise ValueError /\
  (3 * Nat.max (length [1; 0; 1]%R) (length [1; 0; 1]%R)
   < length [1; 2; 3; 4; 5; 6; 7; 8; 9; 10]%R)%nat /\
  applicable [1; 0; 1] [1; 0; 1] /\
  exists ext y2,
    Signal.odd_ext [1; 2; 3; 4; 5; 6; 7; 8; 9; 10] 9 = Ok ext /\
    length ext = 28%nat /\
    nth 0 ext 0 = 2 * 1 - 10 /\ nth 27 ext 0 = 2 * 10 - 1 /\
    length y2 = 28%nat /\
    Signal.filtfilt [1; 0; 1] [1; 0; 1] [1; 2; 3; 4; 5; 6; 7; 8; 9; 10]
    = Ok (firstn 10 (skipn 9 (rev y2))).
Proof.
  assert (H : (length [1; 2; 3; 4; 5; 6; 7; 8; 9]%R
               <= 3 * Nat.max (length [1; 0; 1]%R) (length [1; 0; 1]%R))%nat)
    by (simpl; lia).
  assert (H' : (3 * Nat.max (length [1; 0; 1]%R) (length [1; 0; 1]%R)
                < length [1; 2; 3; 4; 5; 6; 7; 8; 9; 10]%R)%nat)
    by (simpl; lia).
  assert (Happ : applicable [1; 0; 1] [1; 0; 1])
    by (split; [simpl; lra | split; [simpl; lia | simpl; lra]]).
  split; [exact H|]; split; [|split; [exact H'|]; split; [exact Happ|]].
  - exact (proj1 (proj1 zero_phase_padding [1; 0; 1] [1; 0; 1]
                    [1; 2; 3; 4; 5; 6; 7; 8; 9]) H).
  - destruct (proj2 (proj1 zero_phase_padding [1; 0; 1] [1; 0; 1]
                       [1; 2; 3; 4; 5; 6; 7; 8; 9; 10]) H')
      as (ext & Hext & Hlen & _ & Hleft & Hright & _ & Hrun).
    destruct (Hrun Happ) as (zi & y1 & z1 & y2 & z2 & _ & _ & _ & Hl2 & Hy).
    exists ext, y2; split; [exact Hext|]; split; [exact Hlen|].
    split; [exact (Hleft 0%nat ltac:(simpl; lia))|].
    split; [exact (Hright 8%nat ltac:(simpl; lia))|].
    split; [exact Hl2 | exact Hy].
Defined.

(** ** The steady state of [lfilter_zi] *)

(** The state built by forward substitution is a fixed point of the
    state update of [lfilter] on the constant input 1. *)
Lemma zi_tail_steady (z0 b0 : R) (at' bt : list R) :
  length bt = length at' -> at' <> [] ->
  forall asum csum,
    (asum + Np.sum at') * z0 = csum + Np.sum (Signal.zi_rhs bt at' b0) ->
    let zt := Signal.zi_tail z0 asum csum (removelast at')
                (Signal.zi_rhs bt at' b0) in
    Signal.next_state bt at' zt 1 (z0 + b0 * 1) = (asum * z0 - csum) :: zt.
Proof.
  revert bt; induction at' as [|ak at' IH]; intros [|bk bt] Hlen Hne asum csum Hsum;
    simpl in Hlen; try discriminate; [contradiction|].
  injection Hlen as Hlen.
  destruct at' as [|ak' at'].
  - destruct bt; [|discriminate]; simpl in *; f_equal; lra.
  - destruct bt as [|bk' bt]; [discriminate|].
    change (removelast (ak :: ak' :: at')) with (ak :: removelast (ak' :: at')).
    cbn [Signal.zi_rhs Signal.zi_tail]; cbv zeta.
    assert (Hne' : ak' :: at' <> []) by discriminate.
    assert (Hsum' : (asum + ak + Np.sum (ak' :: at')) * z0
                    = csum + (bk - ak * b0)
                      + Np.sum (Signal.zi_rhs (bk' :: bt) (ak' :: at') b0))
      by (simpl in *; lra).
    specialize (IH (bk' :: bt) Hlen Hne' (asum + ak) (csum + (bk - ak * b0)) Hsum').
    cbv zeta in IH.
    cbn [Signal.next_state hd tl].
    cbn [Signal.zi_rhs Signal.zi_tail Signal.next_state hd tl] in IH.
    rewrite IH; f_equal; ring.
Qed.

(** For a filter with [a[0] = 1] and as many numerator as denominator
    coefficients, the state [lfilter_zi] returns is kept by one step of
    [lfilter] on the input 1: it is the steady state of the step
    response. *)
Lemma lfilter_zi_steady (b0 : R) (bt at' zi : list R) :
  length bt = length at' -> at' <> [] ->
  Signal.lfilter_zi (b0 :: bt) (1 :: at') = Ok zi ->
  Signal.lfilter (b0 :: bt) (1 :: at') [1] zi
  = Ok ([hd 0 zi + b0 * 1], zi).
Proof.
  intros Hlen Hne Hzi.
  assert (Hdiv : forall l : list R, map (fun c => c / 1) l = l).
  { intros l; rewrite <- (map_id l) at 2; apply map_ext; intros c; field. }
  assert (Hpad : forall l : list R,
            Signal.pad_to (Nat.max (length (1 :: at')) (length (b0 :: bt))) l = l
            \/ length l <> S (length at')).
  { intros l; destruct (Nat.eq_dec (length l) (S (length at'))) as [E|E];
      [left | now right].
    unfold Signal.pad_to; simpl length; rewrite Hlen, Nat.max_id, E, Nat.sub_diag.
    apply app_nil_r. }
  unfold Signal.lfilter_zi in Hzi.
  assert (H1 : (1 : R) <> 0) by lra.
  rewrite (strip_zeros_head (1 :: at')) in Hzi by exact H1.
  apply Reqb_false in H1; rewrite H1 in Hzi.
  rewrite !Hdiv in Hzi.
  destruct (Hpad (1 :: at')) as [Ea|Ea]; [|simpl in Ea; lia].
  destruct (Hpad (b0 :: bt)) as [Eb|Eb]; [|simpl in Eb; lia].
  rewrite Ea, Eb in Hzi.
  destruct (Nat.ltb _ 2); [discriminate|].
  unfold Signal.solve_IminusA in Hzi; cbn [hd tl] in Hzi.
  destruct (Reqb (1 + Np.sum at') 0) eqn:Edet; [discriminate|].
  apply Reqb_false in Edet.
  injection Hzi as Hzi.
  set (z0 := Np.sum (Signal.zi_rhs bt at' b0) / (1 + Np.sum at')) in *.
  assert (Hsum : (1 + Np.sum at') * z0 = 0 + Np.sum (Signal.zi_rhs bt at' b0))
    by (subst z0; field; exact Edet).
  pose proof (@zi_tail_steady z0 b0 at' bt Hlen Hne 1 0 Hsum) as Hst.
  cbv zeta in Hst.
  unfold Signal.lfilter; rewrite H1.
  assert (Hlz : length zi
                = (Nat.max (length (1%R :: at')) (length (b0 :: bt)) - 1)%nat).
  { rewrite <- Hzi; simpl length.
    rewrite zi_tail_length, zi_rhs_length, length_removelast, Hlen.
    destruct at'; [contradiction | simpl; lia]. }
  rewrite Hlz, Nat.eqb_refl; cbn [negb].
  rewrite Ea, Eb, !Hdiv.
  cbn [Signal.lfilter_run hd tl].
  rewrite <- Hzi at 2; cbn [tl].
  replace (hd 0 zi) with z0 by (rewrite <- Hzi; reflexivity).
  rewrite Hst; do 2 f_equal.
  rewrite <- Hzi; f_equal; ring.
Qed.

(** ** Worked examples *)

Ltac real_list :=
  repeat (apply (f_equal2 (@cons R)); [field |]); reflexivity.

(** Four samples of a cosine at a quarter of the rate of 200 Hz: two
    bins, at 0 and 50 Hz, with all the power (|2|^2) in the second. *)
Example compute_psd_quarter_rate :
  compute_psd [1; 0; -1; 0] 200 = Ok ([0; 50], [0; 4]).
Proof.
  assert (Hx : [1; 0; -1; 0] <> []) by discriminate.
  assert (H200 : 200 <> 0) by lra.
  destruct (compute_psd_ok Hx H200) as (freqs & psd & Hrun & Hlf & Hlp & Hk).
  rewrite Hrun; clear Hrun.
  destruct freqs as [|f0 [|f1 [|? ?]]]; try discriminate.
  destruct psd as [|p0 [|p1 [|? ?]]]; try discriminate.
  destruct (Hk 0%nat ltac:(simpl; lia)) as [Hf0 Hp0].
  destruct (Hk 1%nat ltac:(simpl; lia)) as [Hf1 Hp1].
  simpl in Hf0, Hf1, Hp0, Hp1.
  assert (Ep0 : p0 = 0).
  { rewrite Hp0; unfold Np.dft_coeff, Cnorm2, Csum, Cscale, Cexp, Cplus,
      Czero, Cre, Cim; simpl.
    rewrite !Rmult_0_r; unfold Rdiv; rewrite !Rmult_0_l, Ropp_0, cos_0, sin_0.
    ring. }
  assert (Ep1 : p1 = 4).
  { rewrite Hp1; unfold Np.dft_coeff, Cnorm2, Csum, Cscale, Cexp, Cplus,
      Czero, Cre, Cim; simpl.
    replace (2 * PI * 0 * 1 / (1 + 1 + 1 + 1)) with 0 by field.
    replace (2 * PI * (1 + 1) * 1 / (1 + 1 + 1 + 1)) with PI by field.
    rewrite Ropp_0, cos_0, sin_0, !cos_neg, !sin_neg, cos_PI, sin_PI.
    ring. }
  rewrite Hf0, Hf1, Ep0, Ep1.
  replace (0 * 200 / (1 + 1 + 1 + 1)) with 0 by field.
  replace (1 * 200 / (1 + 1 + 1 + 1)) with 50 by field.
  reflexivity.
Qed.

(** The first-order Butterworth low-pass at half the Nyquist frequency
    is the two-point average. *)
Example butter_first_order :
  Signal.butter 1 (1 / 2) = Ok ([1 / 2; 1 / 2], [1; 0]).
Proof.
  unfold Signal.butter, Signal.buttap; simpl.
  assert (H0 : Rleb (1 / 2) 0 = false) by (apply Rleb_false; lra).
  assert (H1 : Rleb 1 (1 / 2) = false) by (apply Rleb_false; lra).
  rewrite H0, H1; simpl.
  unfold Signal.zpk2tf, Signal.poly; simpl.
  unfold Cdiv, Cinv, Cminus, Cmult, Cplus, Copp, Cscale, Cnorm2, RtoC,
    Cone, Czero, Cre, Cim, Cexp; simpl.
  replace (PI * (1 / 2) / 2) with (PI / 4) by field.
  replace (PI * 0 / (2 * 1)) with 0 by field.
  rewrite tan_PI4, cos_0, sin_0.
  apply f_equal, f_equal2; real_list.
Qed.

(** A two-tap moving sum run by [lfilter] from a zero state. *)
Example lfilter_moving_sum :
  Signal.lfilter [1; 1] [1] [1; 2; 3] [0] = Ok ([1; 3; 5], [3]).
Proof.
  unfold Signal.lfilter.
  assert (H1 : Reqb 1 0 = false) by (apply Reqb_false; lra).
  rewrite H1; simpl.
  apply f_equal, f_equal2; real_list.
Qed.

(** * Further properties *)

(** ** The signal generator *)

Lemma py_int_IZR (z : Z) : py_int (IZR z) = z.
Proof.
  unfold py_int; destruct (Rle_dec 0 (IZR z)) as [H|H].
  - symmetry; apply Int_part_spec; lra.
  - rewrite <- opp_IZR.
    assert (E : (- z)%Z = Int_part (IZR (- z))) by (apply Int_part_spec; lra).
    rewrite <- E; lia.
Qed.

Lemma py_int_nonneg (x : R) : 0 <= x -> (0 <= py_int x)%Z.
Proof.
  intros Hx; unfold py_int; destruct (Rle_dec 0 x) as [_|H]; [|contradiction].
  destruct (base_Int_part x) as [_ Hlow].
  assert (H1 : -1 < IZR (Int_part x)) by lra.
  apply lt_IZR in H1; lia.
Qed.

Lemma py_int_negative (x : R) : x <= -1 -> (py_int x < 0)%Z.
Proof.
  intros Hx; unfold py_int; destruct (Rle_dec 0 x) as [H|_]; [lra|].
  destruct (base_Int_part (- x)) as [_ Hlow].
  assert (H1 : 0 < IZR (Int_part (- x))) by lra.
  apply lt_IZR in H1; lia.
Qed.

Lemma arange_from_zero_nth (num : Z) (k : nat) :
  (k < Z.to_nat num)%nat -> nth k (map IZR (Np.arange 0 num)) 0 = INR k.
Proof.
  intros Hk.
  rewrite (nth_map_in _ _ 0 0%Z) by (rewrite arange_length; lia).
  rewrite arange_nth by lia.
  now rewrite Z.add_0_l, <- INR_IZR_INZ.
Qed.

(** The points of [np.linspace] without its end point. *)
Lemma np_linspace_ok (start stop : R) (num : Z) :
  (0 <= num)%Z ->
  exists t,
    np_linspace start stop num = Ok t /\
    length t = Z.to_nat num /\
    forall k, (k < Z.to_nat num)%nat ->
      nth k t 0 = start + INR k * ((stop - start) / IZR num).
Proof.
  intros Hnum; unfold np_linspace.
  destruct (Z.ltb_spec num 0) as [|_]; [lia|].
  eexists; split; [reflexivity|]; split.
  - destruct (0 <? num)%Z; [destruct (Reqb _ 0)|];
      now rewrite !length_map, arange_length, Z.sub_0_r.
  - intros k Hk.
    assert (Hlen : length (map IZR (Np.arange 0 num)) = Z.to_nat num)
      by now rewrite length_map, arange_length, Z.sub_0_r.
    assert (Hnum0 : (0 < num)%Z) by lia.
    destruct (Z.ltb_spec 0 num) as [_|]; [|lia].
    assert (Hdiv : IZR num <> 0) by (apply not_0_IZR; lia).
    destruct (Reqb ((stop - start) / IZR num) 0) eqn:E.
    + apply Reqb_true in E.
      rewrite (nth_map_in _ _ 0 0) by (now rewrite length_map, Hlen).
      rewrite (nth_map_in _ _ 0 0) by (now rewrite Hlen).
      rewrite arange_from_zero_nth by exact Hk.
      rewrite E.
      assert (Hd : stop - start = 0).
      { replace (stop - start) with ((stop - start) / IZR num * IZR num)
          by (field; exact Hdiv).
        rewrite E; ring. }
      rewrite Hd; ring.
    + rewrite (nth_map_in _ _ 0 0) by (now rewrite length_map, Hlen).
      rewrite (nth_map_in _ _ 0 0) by (now rewrite Hlen).
      rewrite arange_from_zero_nth by exact Hk; ring.
Qed.

Lemma np_linspace_negative (start stop : R) (num : Z) :
  (num < 0)%Z -> np_linspace start stop num = Raise ValueError.
Proof.
  intros H; unfold np_linspace; apply Z.ltb_lt in H; now rewrite H.
Qed.

Lemma zip_add_length (x y : list R) :
  length x = length y -> length (zip_add x y) = length x.
Proof.
  revert y; induction x as [|u x IH]; intros [|v y] H; simpl in *;
    try discriminate; [reflexivity|].
  now rewrite IH by lia.
Qed.

Lemma zip_add_nth (x y : list R) (k : nat) :
  length x = length y ->
  nth k (zip_add x y) 0 = nth k x 0 + nth k y 0.
Proof.
  revert y k; induction x as [|u x IH]; intros [|v y] k H; simpl in *;
    try discriminate.
  - destruct k; lra.
  - destruct k; [reflexivity | apply IH; lia].
Qed.

Lemma np_add_same_length (x y : list R) :
  length x = length y -> np_add x y = Ok (zip_add x y).
Proof. intros H; unfold np_add; now rewrite H, Nat.eqb_refl. Qed.

Section Generator.

Variable F : float_ops.
Variable randn : nat -> list R.
Hypothesis randn_length : forall n, length (randn n) = n.

(** What [generate_signal] returns when the truncation of the rounded
    product [rate * duration] is not negative. *)
Lemma generate_signal_ok (sample_rate duration : R) :
  (0 <= py_int (fl_round F (sample_rate * duration)))%Z ->
  let n := Z.to_nat (py_int (fl_round F (sample_rate * duration))) in
  exists t signal_data,
    generate_signal F randn sample_rate duration = Ok (t, signal_data) /\
    length t = n /\ length signal_data = n /\
    forall k, (k < n)%nat ->
      nth k t 0 = INR k * (duration / INR n) /\
      nth k signal_data 0
      = 0.8 * sin (2 * PI * 5 * nth k t 0)
        + 0.5 * sin (2 * PI * 15 * nth k t 0)
        + 0.2 * nth k (randn n) 0.
Proof.
  intros Hn n.
  destruct (@np_linspace_ok 0 duration _ Hn) as (t & Ht & Hlen & Hnth).
  fold n in Hlen, Hnth.
  unfold generate_signal; rewrite Ht; cbn [bind].
  set (tone5 := map (fun v => 0.8 * v) (map (fun v => sin (2 * PI * 5 * v)) t)).
  set (tone15 := map (fun v => 0.5 * v) (map (fun v => sin (2 * PI * 15 * v)) t)).
  set (noise := map (fun v => 0.2 * v) (randn (length t))).
  assert (L5 : length tone5 = n) by (subst tone5; now rewrite !length_map).
  assert (L15 : length tone15 = n) by (subst tone15; now rewrite !length_map).
  assert (Ln : length noise = n)
    by (subst noise; now rewrite length_map, randn_length).
  assert (Lt : length (zip_add tone5 tone15) = n)
    by (rewrite zip_add_length; congruence).
  rewrite (@np_add_same_length tone5 tone15) by congruence; cbn [bind].
  rewrite (@np_add_same_length (zip_add tone5 tone15) noise) by congruence.
  cbn [bind].
  do 2 eexists; split; [reflexivity|]; split; [exact Hlen|]; split.
  - rewrite zip_add_length; congruence.
  - intros k Hk; split.
    + rewrite (Hnth k Hk).
      rewrite (INR_IZR_INZ n); subst n; rewrite Z2Nat.id by exact Hn.
      replace (duration - 0) with duration by ring; ring.
    + rewrite zip_add_nth by congruence.
      rewrite zip_add_nth by congruence.
      subst tone5 tone15 noise; rewrite Hlen.
      rewrite !(nth_map_in _ _ 0 0)
        by (rewrite ?length_map, ?randn_length; lia).
      reflexivity.
Qed.

End Generator.

Lemma py_int_ge_1 (x : R) : 1 <= x -> (1 <= py_int x)%Z.
Proof.
  intros Hx; unfold py_int; destruct (Rle_dec 0 x) as [_|H]; [|lra].
  destruct (base_Int_part x) as [_ Hlow].
  assert (H1 : 0 < IZR (Int_part x)) by lra.
  apply lt_IZR in H1; lia.
Qed.

Lemma py_int_small (x : R) : -1 < x < 1 -> py_int x = 0%Z.
Proof.
  intros [Hlo Hhi]; unfold py_int; destruct (Rle_dec 0 x) as [H|H].
  - symmetry; apply Int_part_spec; lra.
  - assert (E : 0%Z = Int_part (- x)) by (apply Int_part_spec; lra).
    rewrite <- E; reflexivity.
Qed.

(** Rounding keeps a product on its side of 1 and of -1. *)
Lemma round_ge_1 (F : float_ops) (x : R) :
  round_ok F -> 1 <= x -> 1 <= fl_round F x.
Proof.
  intros [Hmono Hint] Hx.
  rewrite <- (Hint 1%Z) by (vm_compute; discriminate).
  now apply Hmono.
Qed.

Lemma round_le_m1 (F : float_ops) (x : R) :
  round_ok F -> x <= -1 -> fl_round F x <= -1.
Proof.
  intros [Hmono Hint] Hx.
  rewrite <- (Hint (-1)%Z) by (vm_compute; discriminate).
  now apply Hmono.
Qed.

(** X1: at a positive duration with [rate * duration >= 1] the generator
    returns a time axis and a signal of one length, at least 1: the
    truncation of the float product [rate * duration], which is the exact
    product rounded to a float.  The axis starts at 0, increases strictly
    and stays below the duration (the end point is left out). *)
Theorem generate_signal_time_axis (F : float_ops) (randn : nat -> list R)
  (sample_rate duration : R) :
  round_ok F ->
  (forall n, length (randn n) = n) ->
  0 < duration -> 1 <= sample_rate * duration ->
  exists t signal_data,
    generate_signal F randn sample_rate duration = Ok (t, signal_data) /\
    length t = Z.to_nat (py_int (fl_round F (sample_rate * duration))) /\
    length signal_data = length t /\
    (1 <= length t)%nat /\
    nth 0 t 0 = 0 /\
    strictly_increasing t /\
    forall k, (k < length t)%nat -> 0 <= nth k t 0 < duration.
Proof.
  intros HF Hrandn Hdur Hprod.
  pose proof (py_int_ge_1 (round_ge_1 HF Hprod)) as Hn1.
  destruct (@generate_signal_ok F randn Hrandn sample_rate duration ltac:(lia))
    as (t & s & Hrun & Hlt & Hls & Hk).
  cbv zeta in Hk.
  set (n := Z.to_nat (py_int (fl_round F (sample_rate * duration)))) in *.
  assert (Hn : (1 <= n)%nat) by (subst n; lia).
  assert (HnR : 0 < INR n) by (apply lt_0_INR; lia).
  assert (Hstep : 0 < duration / INR n) by (apply Rdiv_lt_0_compat; assumption).
  exists t, s; split; [exact Hrun|]; split; [exact Hlt|].
  split; [congruence|]; split; [lia|]; split; [|split].
  - destruct (Hk 0%nat ltac:(lia)) as [-> _]; simpl; ring.
  - intros i j [Hij Hj]; rewrite Hlt in Hj.
    destruct (Hk i ltac:(lia)) as [-> _]; destruct (Hk j Hj) as [-> _].
    apply lt_INR in Hij; now apply Rmult_lt_compat_r.
  - intros k Hlt'; rewrite Hlt in Hlt'.
    destruct (Hk k Hlt') as [-> _].
    pose proof (pos_INR k) as Hk0; apply lt_INR in Hlt'.
    split; [apply Rmult_le_pos; lra|].
    replace duration with (INR n * (duration / INR n)) at 2 by (field; lra).
    now apply Rmult_lt_compat_r.
Qed.

Lemma generate_signal_time_axis_witness :
  round_ok exact_ops /\
  (forall n, length (repeat 0 n) = n) /\ 0 < 5 /\ 1 <= 200 * 5 /\
  exists t signal_data,
    generate_signal exact_ops (fun n => repeat 0 n) 200 5
    = Ok (t, signal_data) /\
    length signal_data = length t /\ nth 0 t 0 = 0 /\ strictly_increasing t.
Proof.
  assert (Hr : forall n, length (repeat (0 : R) n) = n)
    by (intros n; apply repeat_length).
  assert (H5 : 0 < 5) by lra.
  assert (Hp : 1 <= 200 * 5) by lra.
  split; [exact exact_round_ok|].
  split; [exact Hr|]; split; [exact H5|]; split; [exact Hp|].
  destruct (@generate_signal_time_axis exact_ops (fun n => repeat 0 n) 200 5
              exact_round_ok Hr H5 Hp)
    as (t & s & Hrun & _ & Hls & _ & H0 & Hinc & _).
  exists t, s; repeat split; assumption.
Defined.

(** X2: when [rate * duration] is a positive whole number [m] that the
    floats hold exactly (as they hold every whole number up to [2^53]),
    the generator returns [m] samples taken at the instants [k / rate]. *)
Theorem generate_signal_instants (F : float_ops) (randn : nat -> list R)
  (sample_rate duration : R) (m : Z) :
  (forall n, length (randn n) = n) ->
  sample_rate * duration = IZR m -> fl_round F (IZR m) = IZR m ->
  (0 < m)%Z -> 0 < sample_rate ->
  exists t signal_data,
    generate_signal F randn sample_rate duration = Ok (t, signal_data) /\
    length t = Z.to_nat m /\ length signal_data = Z.to_nat m /\
    forall k, (k < Z.to_nat m)%nat -> nth k t 0 = INR k / sample_rate.
Proof.
  intros Hrandn Hprod Hfl Hm Hfs.
  assert (Hint : py_int (fl_round F (sample_rate * duration)) = m)
    by (rewrite Hprod, Hfl; apply py_int_IZR).
  destruct (@generate_signal_ok F randn Hrandn sample_rate duration ltac:(lia))
    as (t & s & Hrun & Hlt & Hls & Hk).
  cbv zeta in Hk; rewrite Hint in *.
  exists t, s; split; [exact Hrun|]; split; [exact Hlt|]; split; [exact Hls|].
  intros k Hlt'; destruct (Hk k Hlt') as [-> _].
  rewrite (INR_IZR_INZ (Z.to_nat m)), Z2Nat.id by lia.
  rewrite <- Hprod.
  assert (Hd : duration <> 0).
  { intros E; rewrite E, Rmult_0_r in Hprod.
    assert (0 < IZR m) by (apply IZR_lt; lia). lra. }
  assert (Hfs0 : sample_rate <> 0) by lra.
  field; split; assumption.
Qed.

Lemma generate_signal_instants_witness :
  (forall n, length (repeat 0 n) = n) /\ 200 * 5 = IZR 1000 /\
  fl_round exact_ops (IZR 1000) = IZR 1000 /\
  (0 < 1000)%Z /\ 0 < 200 /\
  exists t signal_data,
    generate_signal exact_ops (fun n => repeat 0 n) 200 5
    = Ok (t, signal_data) /\
    length t = 1000%nat /\ nth 1 t 0 = INR 1 / 200.
Proof.
  assert (Hr : forall n, length (repeat (0 : R) n) = n)
    by (intros n; apply repeat_length).
  assert (Hp : 200 * 5 = IZR 1000) by lra.
  assert (Hfl : fl_round exact_ops (IZR 1000) = IZR 1000) by reflexivity.
  assert (Hm : (0 < 1000)%Z) by lia.
  assert (Hfs : 0 < 200) by lra.
  split; [exact Hr|]; split; [exact Hp|]; split; [exact Hfl|];
    split; [exact Hm|]; split; [exact Hfs|].
  destruct (@generate_signal_instants exact_ops (fun n => repeat 0 n) 200 5 1000
              Hr Hp Hfl Hm Hfs) as (t & s & Hrun & Hlt & _ & Hk).
  exists t, s; split; [exact Hrun|]; split.
  - rewrite Hlt; lia.
  - apply Hk; lia.
Defined.

(** X3: every sample of the generated signal is within 1.3 of 0.2 times
    its noise draw: the two tones never exceed 0.8 + 0.5. *)
Theorem generate_signal_tone_bound (F : float_ops) (randn : nat -> list R)
  (sample_rate duration : R) (t signal_data : list R) :
  (forall n, length (randn n) = n) ->
  generate_signal F randn sample_rate duration = Ok (t, signal_data) ->
  forall k, (k < length signal_data)%nat ->
    Rabs (nth k signal_data 0 - 0.2 * nth k (randn (length t)) 0) <= 1.3.
Proof.
  intros Hrandn Hrun k Hk.
  destruct (Z_lt_le_dec (py_int (fl_round F (sample_rate * duration))) 0)
    as [Hneg|Hpos].
  - unfold generate_signal in Hrun.
    rewrite np_linspace_negative in Hrun by exact Hneg; discriminate.
  - destruct (@generate_signal_ok F randn Hrandn sample_rate duration Hpos)
      as (t' & s' & Hrun' & Hlt & Hls & Hnth).
    rewrite Hrun in Hrun'; injection Hrun' as <- <-.
    cbv zeta in Hnth; rewrite Hls in Hk.
    destruct (Hnth k Hk) as [_ ->]; rewrite Hlt.
    pose proof (SIN_bound (2 * PI * 5 * nth k t 0)) as [H1 H2].
    pose proof (SIN_bound (2 * PI * 15 * nth k t 0)) as [H3 H4].
    apply Rabs_le; lra.
Qed.

Lemma generate_signal_tone_bound_witness :
  (forall n, length (repeat 0 n) = n) /\
  exists t signal_data,
    generate_signal exact_ops (fun n => repeat 0 n) 200 5
    = Ok (t, signal_data) /\
    (1 <= length signal_data)%nat /\
    Rabs (nth 0 signal_data 0 - 0.2 * nth 0 (repeat 0 (length t)) 0) <= 1.3.
Proof.
  assert (Hr : forall n, length (repeat (0 : R) n) = n)
    by (intros n; apply repeat_length).
  split; [exact Hr|].
  assert (Hp : 200 * 5 = IZR 1000) by lra.
  assert (Hint : py_int (fl_round exact_ops (200 * 5)) = 1000%Z)
    by (cbn [fl_round exact_ops]; rewrite Hp; apply py_int_IZR).
  destruct (@generate_signal_ok exact_ops (fun n => repeat 0 n) Hr 200 5
              ltac:(lia))
    as (t & s & Hrun & Hlt & Hls & _).
  rewrite Hint in Hlt, Hls.
  exists t, s; split; [exact Hrun|]; split; [lia|].
  apply (@generate_signal_tone_bound exact_ops (fun n => repeat 0 n) 200 5 t s
           Hr Hrun).
  lia.
Defined.

(** X4: the edges of the generator are decided by the float product
    [rate * duration], the exact product rounded.  An exact product of -1
    or less is rejected with the [ValueError] of [np.linspace]; a rounded
    product strictly between -1 and 1 gives an empty axis and an empty
    signal; a rounded product of exactly 1, which an exact product just
    below 1 can reach, gives the single instant 0. *)
Theorem generate_signal_edges (F : float_ops) (randn : nat -> list R)
  (sample_rate duration : R) :
  round_ok F ->
  (forall n, length (randn n) = n) ->
  (sample_rate * duration <= -1 ->
   generate_signal F randn sample_rate duration = Raise ValueError) /\
  (-1 < fl_round F (sample_rate * duration) < 1 ->
   generate_signal F randn sample_rate duration = Ok ([], [])) /\
  (fl_round F (sample_rate * duration) = 1 ->
   exists v, generate_signal F randn sample_rate duration = Ok ([0], [v])).
Proof.
  intros HF Hrandn; split; [|split].
  - intros Hneg; unfold generate_signal.
    rewrite np_linspace_negative
      by (apply py_int_negative; now apply round_le_m1).
    reflexivity.
  - intros Hsmall.
    pose proof (py_int_small Hsmall) as Hint.
    destruct (@generate_signal_ok F randn Hrandn sample_rate duration ltac:(lia))
      as (t & s & Hrun & Hlt & Hls & _).
    rewrite Hint in Hlt, Hls; simpl in Hlt, Hls.
    apply length_zero_iff_nil in Hlt, Hls; now subst.
  - intros Hone.
    assert (Hint : py_int (fl_round F (sample_rate * duration)) = 1%Z)
      by (rewrite Hone; apply (py_int_IZR 1)).
    destruct (@generate_signal_ok F randn Hrandn sample_rate duration ltac:(lia))
      as (t & s & Hrun & Hlt & Hls & Hk).
    cbv zeta in Hk; rewrite Hint in Hlt, Hls, Hk.
    change (Z.to_nat 1) with 1%nat in *.
    destruct (Hk 0%nat ltac:(lia)) as [H0 _].
    destruct t as [|t0 [|t1 t]]; try discriminate.
    destruct s as [|s0 [|s1 s]]; try discriminate.
    simpl in H0; exists s0; rewrite Hrun; do 3 f_equal.
    rewrite H0; ring.
Qed.

Lemma generate_signal_edges_witness :
  round_ok exact_ops /\
  (forall n, length (repeat 0 n) = n) /\
  generate_signal exact_ops (fun n => repeat 0 n) 200 (-1) = Raise ValueError /\
  generate_signal exact_ops (fun n => repeat 0 n) 200 (1 / 400) = Ok ([], []) /\
  exists v,
    generate_signal exact_ops (fun n => repeat 0 n) 200 (1 / 200)
    = Ok ([0], [v]).
Proof.
  assert (Hr : forall n, length (repeat (0 : R) n) = n)
    by (intros n; apply repeat_length).
  split; [exact exact_round_ok|]; split; [exact Hr|]; split; [|split].
  - apply (proj1 (@generate_signal_edges exact_ops (fun n => repeat 0 n)
                    200 (-1) exact_round_ok Hr)).
    lra.
  - apply (proj1 (proj2 (@generate_signal_edges exact_ops (fun n => repeat 0 n)
                           200 (1 / 400) exact_round_ok Hr))).
    cbn [fl_round exact_ops]; lra.
  - apply (proj2 (proj2 (@generate_signal_edges exact_ops (fun n => repeat 0 n)
                           200 (1 / 200) exact_round_ok Hr))).
    cbn [fl_round exact_ops]; field.
Defined.

(** ** The entry point *)

(** Two estimates of signals of one length at one rate share their
    frequency axis. *)
Lemma compute_psd_same_axis (x y : list R) (sample_rate : R)
  (fx px fy py : list R) :
  length x = length y ->
  compute_psd x sample_rate = Ok (fx, px) ->
  compute_psd y sample_rate = Ok (fy, py) ->
  fx = fy.
Proof.
  intros Hlen Hx Hy.
  destruct (Req_dec_T sample_rate 0) as [E|Hfs].
  - subst; destruct x as [|x0 x]; [discriminate|].
    rewrite compute_psd_zero_rate in Hx by discriminate; discriminate.
  - destruct x as [|x0 x]; [discriminate|].
    destruct y as [|y0 y]; [discriminate|].
    assert (Hx0 : x0 :: x <> []) by discriminate.
    assert (Hy0 : y0 :: y <> []) by discriminate.
    destruct (compute_psd_ok Hx0 Hfs) as (f1 & p1 & H1 & Hl1 & _ & Hk1).
    destruct (compute_psd_ok Hy0 Hfs) as (f2 & p2 & H2 & Hl2 & _ & Hk2).
    rewrite Hx in H1; injection H1 as <- <-.
    rewrite Hy in H2; injection H2 as <- <-.
    apply (nth_ext _ _ 0 0); [congruence|].
    intros k Hk; rewrite Hl1 in Hk.
    destruct (Hk1 k Hk) as [-> _].
    rewrite Hlen in Hk |- *; destruct (Hk2 k Hk) as [-> _]; reflexivity.
Qed.

Section Main.

Variable F : float_ops.
Hypothesis round_F : round_ok F.
Hypothesis tan_F : tan_ok F.
Hypothesis divide_F : divide_ok F.
Variable randn : nat -> list R.
Hypothesis randn_length : forall n, length (randn n) = n.

Lemma main_ok :
  exists v,
    main F randn = Ok v /\
    length (mv_t v) = 1000%nat /\
    length (mv_raw_signal v) = 1000%nat /\
    length (mv_filtered_signal_low v) = 1000%nat /\
    compute_psd (mv_raw_signal v) 200 = Ok (mv_freqs_raw v, mv_psd_raw v) /\
    compute_psd (mv_filtered_signal_low v) 200
    = Ok (mv_freqs_cleaned v, mv_psd_cleaned v) /\
    mv_band_powers_raw v
    = map (band_sum (combine (mv_freqs_raw v) (mv_psd_raw v))) main_bands /\
    mv_band_powers_cleaned v
    = map (band_sum (combine (mv_freqs_cleaned v) (mv_psd_cleaned v)))
          main_bands /\
    mv_total_power_raw v = total_power (mv_band_powers_raw v) /\
    mv_total_power_cleaned v = total_power (mv_band_powers_cleaned v).
Proof.
  assert (Hp : 200 * 5 = IZR 1000) by lra.
  assert (Hint : py_int (fl_round F (200 * 5)) = 1000%Z).
  { rewrite Hp, (proj2 round_F) by (vm_compute; discriminate).
    apply py_int_IZR. }
  destruct (@generate_signal_ok F randn randn_length 200 5 ltac:(lia))
    as (t & raw & Hgen & Hlt & Hlraw & _).
  rewrite Hint in Hlt, Hlraw.
  assert (Hlt' : length t = 1000%nat) by lia.
  assert (Hlraw' : length raw = 1000%nat) by lia.
  clear Hlt Hlraw.
  (* the notch *)
  assert (Hbeta : 0 < float_beta F 15 200 30)
    by (apply float_beta_pos; [exact tan_F | lra..]).
  destruct (@design_notch_applicable F 15 200 30 divide_F
              ltac:(lra) ltac:(lra) ltac:(lra))
    as (bn & an & Hdn & Happn & Hbn & Han).
  destruct (@filtfilt_ok bn an raw Happn ltac:(rewrite Hbn, Han; simpl; lia))
    as (y1 & Hy1 & Hly1).
  (* the low-pass *)
  destruct (@design_lowpass_applicable 10 200 4 ltac:(lra) ltac:(lia))
    as (bl & al & Hdl & Happl & Hbl & Hal).
  assert (Hpad : (3 * Nat.max (length bl) (length al) < length y1)%nat)
    by (rewrite Hbl, Hal, Hly1, Hlraw'; simpl Z.to_nat; lia).
  destruct (@filtfilt_ok bl al y1 Happl Hpad) as (y2 & Hy2 & Hly2).
  (* the two estimates *)
  assert (H200 : 200 <> 0) by lra.
  assert (Hraw : raw <> []) by (intros E; rewrite E in Hlraw'; discriminate).
  assert (Hy2' : y2 <> [])
    by (intros E; rewrite E in Hly2; simpl in Hly2; lia).
  destruct (compute_psd_ok Hraw H200) as (fr & pr & Hpr & Hlfr & Hlpr & _).
  destruct (compute_psd_ok Hy2' H200) as (fc & pc & Hpc & Hlfc & Hlpc & _).
  unfold main.
  rewrite Hgen; cbn [bind].
  unfold apply_notch_filter; rewrite Hdn; cbn [bind]; rewrite Hy1; cbn [bind].
  unfold apply_lowpass_filter; rewrite Hdl; cbn [bind]; rewrite Hy2; cbn [bind].
  rewrite Hpr; cbn [bind]; rewrite Hpc; cbn [bind].
  rewrite !compute_band_powers_spec by congruence; cbn [bind].
  eexists; split; [reflexivity|]; cbn.
  repeat split; try assumption; try reflexivity; congruence.
Qed.

End Main.

(** X5: for every draw of the noise, and floating-point operations that
    are exact where the exact reading has a value, [main] runs through:
    no stage raises; the signal, the notch output and the cleaned signal have
    1000 samples, each estimate has 500 bins on one common frequency
    axis with bin [k] at [k / 5] Hz, and each report has 10 entries. *)
Theorem main_runs (F : float_ops) (randn : nat -> list R) :
  round_ok F -> tan_ok F -> divide_ok F ->
  (forall n, length (randn n) = n) ->
  exists v,
    main F randn = Ok v /\
    length (mv_t v) = 1000%nat /\
    length (mv_raw_signal v) = 1000%nat /\
    length (mv_filtered_signal_low v) = 1000%nat /\
    length (mv_psd_raw v) = 500%nat /\
    length (mv_psd_cleaned v) = 500%nat /\
    length (mv_freqs_raw v) = 500%nat /\
    mv_freqs_cleaned v = mv_freqs_raw v /\
    (forall k, (k < 500)%nat -> nth k (mv_freqs_raw v) 0 = INR k / 5) /\
    length (mv_band_powers_raw v) = 10%nat /\
    length (mv_band_powers_cleaned v) = 10%nat.
Proof.
  intros HR HT Hdiv Hrandn.
  destruct (@main_ok F HR HT Hdiv randn Hrandn)
    as (v & Hrun & Ht & Hraw & Hlow & Hpr & Hpc & Hbr & Hbc & _).
  assert (H200 : 200 <> 0) by lra.
  assert (Hraw0 : mv_raw_signal v <> [])
    by (intros E; rewrite E in Hraw; discriminate).
  assert (Hlow0 : mv_filtered_signal_low v <> [])
    by (intros E; rewrite E in Hlow; discriminate).
  destruct (compute_psd_ok Hraw0 H200) as (fr & pr & Hpr' & Hlfr & Hlpr & Hkr).
  destruct (compute_psd_ok Hlow0 H200) as (fc & pc & Hpc' & Hlfc & Hlpc & _).
  rewrite Hpr in Hpr'; injection Hpr' as <- <-.
  rewrite Hpc in Hpc'; injection Hpc' as <- <-.
  rewrite Hraw in Hlfr, Hlpr, Hkr; rewrite Hlow in Hlfc, Hlpc.
  change (1000 / 2)%nat with 500%nat in *.
  exists v; split; [exact Hrun|].
  repeat (split; [assumption|]).
  split; [|split; [|split]].
  - symmetry.
    apply (@compute_psd_same_axis (mv_raw_signal v) (mv_filtered_signal_low v)
             200 _ (mv_psd_raw v) _ (mv_psd_cleaned v));
      [congruence | exact Hpr | exact Hpc].
  - intros k Hk; destruct (Hkr k Hk) as [-> _].
    replace (INR 1000) with 1000 by (rewrite INR_IZR_INZ; reflexivity).
    field.
  - rewrite Hbr, length_map; reflexivity.
  - rewrite Hbc, length_map; reflexivity.
Qed.

Lemma main_runs_witness :
  round_ok exact_ops /\ tan_ok exact_ops /\ divide_ok exact_ops /\
  (forall n, length (repeat 0 n) = n) /\
  exists v, main exact_ops (fun n => repeat 0 n) = Ok v /\
            length (mv_filtered_signal_low v) = 1000%nat /\
            length (mv_band_powers_cleaned v) = 10%nat.
Proof.
  assert (Hr : forall n, length (repeat (0 : R) n) = n)
    by (intros n; apply repeat_length).
  split; [exact exact_round_ok|]; split; [exact exact_tan_ok|].
  split; [exact exact_divide_ok|]; split; [exact Hr|].
  destruct (@main_runs exact_ops (fun n => repeat 0 n)
              exact_round_ok exact_tan_ok exact_divide_ok Hr)
    as (v & Hrun & _ & _ & Hlow & _ & _ & _ & _ & _ & _ & Hbc).
  exists v; repeat split; assumption.
Defined.

(** X6: in [main], for every draw of the noise and the same
    floating-point operations, each of the two totals
    printed is the whole power of its estimate (the ten bands cover all
    500 bins exactly once), and no band power is negative. *)
Theorem main_totals (F : float_ops) (randn : nat -> list R) :
  round_ok F -> tan_ok F -> divide_ok F ->
  (forall n, length (randn n) = n) ->
  exists v,
    main F randn = Ok v /\
    mv_total_power_raw v = Np.sum (mv_psd_raw v) /\
    mv_total_power_cleaned v = Np.sum (mv_psd_cleaned v) /\
    (forall p, In p (mv_band_powers_raw v) -> 0 <= p) /\
    (forall p, In p (mv_band_powers_cleaned v) -> 0 <= p).
Proof.
  intros HR HT Hdiv Hrandn.
  destruct (@main_ok F HR HT Hdiv randn Hrandn)
    as (v & Hrun & _ & _ & _ & Hpr & Hpc & Hbr & Hbc & Htr & Htc).
  destruct (@compute_psd_range _ 200 _ _ ltac:(lra) Hpr) as [Hlr Hrr].
  destruct (@compute_psd_range _ 200 _ _ ltac:(lra) Hpc) as [Hlc Hrc].
  assert (Hnn : forall x fs f p, compute_psd x fs = Ok (f, p) ->
                forall q, In q p -> 0 <= q).
  { intros x fs f p Hrun' q Hq.
    destruct x as [|x0 x]; [discriminate|].
    destruct (Req_dec_T fs 0) as [E|Hfs].
    - subst; rewrite compute_psd_zero_rate in Hrun' by discriminate.
      discriminate.
    - assert (Hx0 : x0 :: x <> []) by discriminate.
      destruct (compute_psd_ok Hx0 Hfs) as (f' & p' & H' & _ & Hlp & Hk).
      rewrite Hrun' in H'; injection H' as <- <-.
      destruct (In_nth _ _ 0 Hq) as (k & Hlt & <-).
      rewrite Hlp in Hlt; destruct (Hk k Hlt) as [_ ->].
      apply Cnorm2_nonneg. }
  exists v; split; [exact Hrun|]; split; [|split; [|split]].
  - rewrite Htr, Hbr, total_power_sum.
    apply band_sums_total with (nyquist := 100);
      [exact Hlr | | exact main_bands_partition].
    intros f Hf; specialize (Hrr f Hf); lra.
  - rewrite Htc, Hbc, total_power_sum.
    apply band_sums_total with (nyquist := 100);
      [exact Hlc | | exact main_bands_partition].
    intros f Hf; specialize (Hrc f Hf); lra.
  - intros p Hp; rewrite Hbr in Hp.
    apply in_map_iff in Hp as (band & <- & _).
    apply band_sum_nonneg; intros f q Hin.
    apply (Hnn _ _ _ _ Hpr); eapply in_combine_r; exact Hin.
  - intros p Hp; rewrite Hbc in Hp.
    apply in_map_iff in Hp as (band & <- & _).
    apply band_sum_nonneg; intros f q Hin.
    apply (Hnn _ _ _ _ Hpc); eapply in_combine_r; exact Hin.
Qed.

Lemma main_totals_witness :
  round_ok exact_ops /\ tan_ok exact_ops /\ divide_ok exact_ops /\
  (forall n, length (repeat 0 n) = n) /\
  exists v, main exact_ops (fun n => repeat 0 n) = Ok v /\
            mv_total_power_raw v = Np.sum (mv_psd_raw v) /\
            mv_total_power_cleaned v = Np.sum (mv_psd_cleaned v).
Proof.
  assert (Hr : forall n, length (repeat (0 : R) n) = n)
    by (intros n; apply repeat_length).
  split; [exact exact_round_ok|]; split; [exact exact_tan_ok|].
  split; [exact exact_divide_ok|]; split; [exact Hr|].
  destruct (@main_totals exact_ops (fun n => repeat 0 n)
              exact_round_ok exact_tan_ok exact_divide_ok Hr)
    as (v & Hrun & Hr1 & Hr2 & _).
  exists v; repeat split; assumption.
Defined.

(** ** More on the spectral estimate *)

Lemma Csum_indexed_seq (term : nat -> R -> C) (x : list R) (k0 : nat) :
  Csum (map (fun m => term m (nth (m - k0) x 0)) (seq k0 (length x)))
  = Csum_indexed term k0 x.
Proof.
  revert k0; induction x as [|v t IH]; intros k0; simpl; [reflexivity|].
  rewrite Nat.sub_diag; f_equal.
  rewrite <- IH; f_equal; apply map_ext_in; intros m Hm.
  apply in_seq in Hm.
  replace (m - k0)%nat with (S (m - S k0)) by lia; reflexivity.
Qed.

Lemma dft_coeff_indexed (x : list R) (k : nat) :
  Np.dft_coeff x k
  = Csum_indexed
      (fun m v => Cscale v (Cexp (- (2 * PI * INR m * INR k / INR (length x)))))
      0 x.
Proof.
  rewrite <- Csum_indexed_seq; unfold Np.dft_coeff.
  f_equal; apply map_ext; intros m; now rewrite Nat.sub_0_r.
Qed.

Lemma Csum_indexed_ext (f g : nat -> R -> C) (x : list R) (k0 : nat) :
  (forall k v, f k v = g k v) -> Csum_indexed f k0 x = Csum_indexed g k0 x.
Proof.
  intros H; revert k0; induction x as [|v t IH]; intros k0; simpl;
    [reflexivity | now rewrite H, IH].
Qed.

Lemma Csum_indexed_real (x : list R) (k0 : nat) :
  Csum_indexed (fun _ v => RtoC v) k0 x = RtoC (Np.sum x).
Proof.
  revert k0; induction x as [|v t IH]; intros k0; simpl; [reflexivity|].
  rewrite IH; apply C_eq; Csimpl; ring.
Qed.

Lemma Csum_indexed_scale (c : R) (term : nat -> R -> C) (x : list R) (k0 : nat) :
  (forall k v, term k (c * v) = Cscale c (term k v)) ->
  Csum_indexed term k0 (map (Rmult c) x) = Cscale c (Csum_indexed term k0 x).
Proof.
  intros H; revert k0; induction x as [|v t IH]; intros k0; simpl.
  - apply C_eq; Csimpl; ring.
  - rewrite IH, H; apply C_eq; Csimpl; ring.
Qed.

(** The 0-th coefficient is the sum of the samples. *)
Lemma dft_coeff_dc (x : list R) : Np.dft_coeff x 0 = RtoC (Np.sum x).
Proof.
  rewrite dft_coeff_indexed, <- (Csum_indexed_real x 0).
  apply Csum_indexed_ext; intros m v.
  replace (- (2 * PI * INR m * INR 0 / INR (length x))) with 0
    by (simpl; unfold Rdiv; ring).
  unfold Cexp; rewrite cos_0, sin_0; apply C_eq; Csimpl; ring.
Qed.

Lemma dft_coeff_scale (c : R) (x : list R) (k : nat) :
  Np.dft_coeff (map (Rmult c) x) k = Cscale c (Np.dft_coeff x k).
Proof.
  rewrite !dft_coeff_indexed, length_map.
  apply Csum_indexed_scale; intros m v; apply C_eq; Csimpl; ring.
Qed.

(** X7: the first bin of the estimate of a signal of two samples or
    more lies at 0 Hz and holds the square of the sum of the samples. *)
Theorem compute_psd_dc_bin (signal_data : list R) (sample_rate : R) :
  (2 <= length signal_data)%nat -> sample_rate <> 0 ->
  exists freqs psd,
    compute_psd signal_data sample_rate = Ok (freqs, psd) /\
    nth 0 freqs 0 = 0 /\
    nth 0 psd 0 = Np.sum signal_data * Np.sum signal_data.
Proof.
  intros HN Hfs.
  assert (Hx : signal_data <> []) by (intros ->; simpl in HN; lia).
  destruct (compute_psd_ok Hx Hfs) as (freqs & psd & Hrun & _ & _ & Hk).
  assert (H0 : (0 < length signal_data / 2)%nat).
  { pose proof (Nat.div_mod_eq (length signal_data) 2).
    pose proof (Nat.mod_upper_bound (length signal_data) 2 ltac:(lia)). lia. }
  destruct (Hk 0%nat H0) as [Hf Hp].
  exists freqs, psd; split; [exact Hrun|]; split.
  - rewrite Hf; simpl; unfold Rdiv; ring.
  - rewrite Hp, dft_coeff_dc; Csimpl; ring.
Qed.

Lemma compute_psd_dc_bin_witness :
  (2 <= length [1; 2; 3; 4]%R)%nat /\ 200 <> 0 /\
  exists freqs psd,
    compute_psd [1; 2; 3; 4] 200 = Ok (freqs, psd) /\
    nth 0 freqs 0 = 0 /\
    nth 0 psd 0 = Np.sum [1; 2; 3; 4] * Np.sum [1; 2; 3; 4].
Proof.
  assert (HN : (2 <= length [1; 2; 3; 4]%R)%nat) by (simpl; lia).
  assert (H200 : 200 <> 0) by lra.
  split; [exact HN|]; split; [exact H200|].
  exact (@compute_psd_dc_bin [1; 2; 3; 4] 200 HN H200).
Defined.

(** X8: scaling a signal by [c] leaves the frequency axis of its
    estimate unchanged and multiplies every power by [c * c]. *)
Theorem compute_psd_scaling (c : R) (signal_data : list R) (sample_rate : R) :
  signal_data <> [] -> sample_rate <> 0 ->
  exists freqs psd,
    compute_psd signal_data sample_rate = Ok (freqs, psd) /\
    compute_psd (map (Rmult c) signal_data) sample_rate
    = Ok (freqs, map (Rmult (c * c)) psd).
Proof.
  intros Hx Hfs.
  assert (Hcx : map (Rmult c) signal_data <> [])
    by (destruct signal_data; [contradiction | discriminate]).
  destruct (compute_psd_ok Hx Hfs) as (f & p & Hrun & Hlf & Hlp & Hk).
  destruct (compute_psd_ok Hcx Hfs) as (f' & p' & Hrun' & Hlf' & Hlp' & Hk').
  rewrite length_map in Hlf', Hlp', Hk'.
  exists f, p; split; [exact Hrun|].
  rewrite Hrun'; do 2 f_equal.
  - apply (nth_ext _ _ 0 0); [congruence|].
    intros k Hlt; rewrite Hlf' in Hlt.
    destruct (Hk k Hlt) as [-> _]; destruct (Hk' k Hlt) as [-> _]; reflexivity.
  - apply (nth_ext _ _ 0 0); [rewrite length_map; congruence|].
    intros k Hlt; rewrite Hlp' in Hlt.
    rewrite (nth_map_in _ _ 0 0) by congruence.
    destruct (Hk k Hlt) as [_ ->]; destruct (Hk' k Hlt) as [_ ->].
    rewrite dft_coeff_scale; Csimpl; ring.
Qed.

Lemma compute_psd_scaling_witness :
  [1; 0; -1; 0] <> [] /\ 200 <> 0 /\
  exists freqs psd,
    compute_psd [1; 0; -1; 0] 200 = Ok (freqs, psd) /\
    compute_psd (map (Rmult 3) [1; 0; -1; 0]) 200
    = Ok (freqs, map (Rmult (3 * 3)) psd).
Proof.
  assert (Hx : [1; 0; -1; 0] <> []) by discriminate.
  assert (H200 : 200 <> 0) by lra.
  split; [exact Hx|]; split; [exact H200|].
  exact (@compute_psd_scaling 3 [1; 0; -1; 0] 200 Hx H200).
Defined.

(** X9: the powers of an estimate do not depend on the sample rate, and
    its frequency axis does not depend on the sample values: two signals
    of one length at one rate share the axis, and one signal at two
    non-zero rates has the same powers. *)
Theorem compute_psd_axis_and_powers (x y : list R) (rate rate' : R) :
  x <> [] -> length x = length y -> rate <> 0 -> rate' <> 0 ->
  exists freqs freqs' px py,
    compute_psd x rate = Ok (freqs, px) /\
    compute_psd y rate = Ok (freqs, py) /\
    compute_psd x rate' = Ok (freqs', px).
Proof.
  intros Hx Hlen Hr Hr'.
  assert (Hy : y <> [])
    by (intros ->; destruct x; [contradiction | discriminate]).
  destruct (compute_psd_ok Hx Hr) as (f & p & Hrun & Hlf & Hlp & Hk).
  destruct (compute_psd_ok Hy Hr) as (fy & py & Hruny & _).
  destruct (compute_psd_ok Hx Hr') as (f' & p' & Hrun' & _ & Hlp' & Hk').
  exists f, f', p, py; split; [exact Hrun|]; split.
  - rewrite Hruny; do 2 f_equal.
    symmetry; exact (@compute_psd_same_axis x y rate f p fy py Hlen Hrun Hruny).
  - rewrite Hrun'; do 2 f_equal.
    apply (nth_ext _ _ 0 0); [congruence|].
    intros k Hlt; rewrite Hlp' in Hlt.
    destruct (Hk k Hlt) as [_ ->]; destruct (Hk' k Hlt) as [_ ->]; reflexivity.
Qed.

Lemma compute_psd_axis_and_powers_witness :
  [1; 0; -1; 0] <> [] /\ length [1; 0; -1; 0] = length [4; 3; 2; 1] /\
  200 <> 0 /\ 50 <> 0 /\
  exists freqs freqs' px py,
    compute_psd [1; 0; -1; 0] 200 = Ok (freqs, px) /\
    compute_psd [4; 3; 2; 1] 200 = Ok (freqs, py) /\
    compute_psd [1; 0; -1; 0] 50 = Ok (freqs', px).
Proof.
  assert (Hx : [1; 0; -1; 0] <> []) by discriminate.
  assert (H200 : 200 <> 0) by lra.
  assert (H50 : 50 <> 0) by lra.
  split; [exact Hx|]; split; [reflexivity|]; split; [exact H200|];
    split; [exact H50|].
  exact (@compute_psd_axis_and_powers [1; 0; -1; 0] [4; 3; 2; 1] 200 50
           Hx eq_refl H200 H50).
Defined.

(** X10: at a zero sample rate [compute_psd] raises [ZeroDivisionError]
    on every non-empty signal, while the empty signal is rejected with
    the [ValueError] of the transform at any rate, zero included. *)
Theorem compute_psd_zero_rate_errors (signal_data : list R) (sample_rate : R) :
  (signal_data <> [] -> compute_psd signal_data 0 = Raise ZeroDivisionError) /\
  compute_psd [] sample_rate = Raise ValueError.
Proof.
  split; [apply compute_psd_zero_rate | reflexivity].
Qed.

Lemma compute_psd_zero_rate_errors_witness :
  [1; 2] <> [] /\ compute_psd [1; 2] 0 = Raise ZeroDivisionError /\
  compute_psd [] 0 = Raise ValueError.
Proof.
  assert (Hx : [1; 2] <> []) by discriminate.
  split; [exact Hx|]; split.
  - exact (proj1 (@compute_psd_zero_rate_errors [1; 2] 0) Hx).
  - exact (proj2 (@compute_psd_zero_rate_errors [1; 2] 0)).
Defined.

(** ** More on the band powers *)

Lemma band_sum_split (estimate : list (R * R)) (lo mid hi : R) :
  lo <= mid <= hi ->
  band_sum estimate (lo, hi)
  = band_sum estimate (lo, mid) + band_sum estimate (mid, hi).
Proof.
  intros [H1 H2]; induction estimate as [|[f p] t IH]; simpl; [lra|].
  rewrite IH.
  destruct (in_band_dec (lo, hi) f) as [[Ha Hb]|Hn];
    destruct (in_band_dec (lo, mid) f) as [[Hc Hd]|Hn1];
    destruct (in_band_dec (mid, hi) f) as [[He Hf]|Hn2];
    unfold in_band in *; simpl in *; try lra;
    try (exfalso; apply Hn; lra);
    try (exfalso; destruct (Rlt_dec f mid); [apply Hn1 | apply Hn2]; lra).
Qed.

Lemma band_sum_mono (estimate : list (R * R)) (b1 b2 : R * R) :
  (forall f p, In (f, p) estimate -> 0 <= p) ->
  fst b2 <= fst b1 -> snd b1 <= snd b2 ->
  band_sum estimate b1 <= band_sum estimate b2.
Proof.
  intros Hpos Hlo Hhi; induction estimate as [|[f p] t IH]; simpl; [lra|].
  assert (Hp : 0 <= p) by (apply (Hpos f p); now left).
  assert (IH' : band_sum t b1 <= band_sum t b2)
    by (apply IH; intros f' p' Hin; apply (Hpos f' p'); now right).
  destruct (in_band_dec b1 f) as [[Ha Hb]|Hn1];
    destruct (in_band_dec b2 f) as [[Hc Hd]|Hn2]; try lra.
  exfalso; apply Hn2; unfold in_band; lra.
Qed.

Lemma band_sum_le_total (freqs psd : list R) (band : R * R) :
  (forall p, In p psd -> 0 <= p) ->
  band_sum (combine freqs psd) band <= Np.sum psd.
Proof.
  revert psd; induction freqs as [|f t IH]; intros [|p psd] Hpos; simpl.
  - lra.
  - assert (0 <= p) by (apply Hpos; now left).
    assert (0 <= Np.sum psd).
    { clear - Hpos; induction psd as [|q psd IH]; simpl; [lra|].
      assert (0 <= q) by (apply Hpos; right; now left).
      assert (0 <= Np.sum psd)
        by (apply IH; intros r [<-|Hr]; apply Hpos; [now left | right; now right]).
      lra. }
    lra.
  - lra.
  - assert (Hp : 0 <= p) by (apply Hpos; now left).
    assert (IH' : band_sum (combine t psd) band <= Np.sum psd)
      by (apply IH; intros q Hq; apply Hpos; now right).
    destruct (in_band_dec band f); lra.
Qed.

Lemma band_sum_scale (c : R) (freqs psd : list R) (band : R * R) :
  band_sum (combine freqs (map (Rmult c) psd)) band
  = c * band_sum (combine freqs psd) band.
Proof.
  revert psd; induction freqs as [|f t IH]; intros [|p psd]; simpl;
    try lra.
  rewrite IH; destruct (in_band_dec band f); ring.
Qed.

(** X11: what [compute_band_powers] does when the frequencies and the
    powers differ in number.  With at least one frequency the boolean
    mask does not fit the powers and any non-empty list of bands raises
    [IndexError].  Without any frequency the mask is empty, numpy lets it
    select nothing from any array, and every band is reported with power
    0, whatever the powers.  The empty list of bands returns the empty
    report in both cases. *)
Theorem compute_band_powers_shape_mismatch (freqs psd : list R)
  (bands : list (R * R)) :
  length freqs <> length psd ->
  (freqs <> [] -> bands <> [] ->
   compute_band_powers freqs psd bands = Raise IndexError) /\
  (freqs = [] ->
   compute_band_powers freqs psd bands = Ok (map (fun _ => 0) bands)) /\
  compute_band_powers freqs psd [] = Ok [].
Proof.
  intros Hlen; split; [|split; [|reflexivity]].
  - intros Hf Hb; destruct bands as [|band rest]; [contradiction|].
    unfold compute_band_powers; now apply band_loop_mismatch.
  - intros ->; unfold compute_band_powers.
    now rewrite band_loop_no_freqs.
Qed.

Lemma compute_band_powers_shape_mismatch_witness :
  length [0; 5; 10] <> length [1; 2] /\ [0; 5; 10]%R <> [] /\
  [(0, 10)] <> [] /\
  compute_band_powers [0; 5; 10] [1; 2] [(0, 10)] = Raise IndexError /\
  length (@nil R) <> length [1] /\
  compute_band_powers [] [1] [(0, 10)] = Ok [0] /\
  compute_band_powers [0; 5; 10] [1; 2] [] = Ok [].
Proof.
  assert (Hlen : length [0; 5; 10] <> length [1; 2]) by discriminate.
  assert (Hf : [0; 5; 10]%R <> []) by discriminate.
  assert (Hb : [(0, 10)] <> []) by discriminate.
  assert (Hlen0 : length (@nil R) <> length [1]) by discriminate.
  split; [exact Hlen|]; split; [exact Hf|]; split; [exact Hb|].
  split; [|split; [exact Hlen0|]; split].
  - exact (proj1 (@compute_band_powers_shape_mismatch [0; 5; 10] [1; 2]
                    [(0, 10)] Hlen) Hf Hb).
  - exact (proj1 (proj2 (@compute_band_powers_shape_mismatch [] [1]
                           [(0, 10)] Hlen0)) eq_refl).
  - exact (proj2 (proj2 (@compute_band_powers_shape_mismatch [0; 5; 10] [1; 2]
                           [(0, 10)] Hlen))).
Defined.

(** X12: cutting a band [[low, high)] at a frequency [mid] in between
    splits its power: the power of the band is the sum of the powers of
    [[low, mid)] and [[mid, high)]. *)
Theorem compute_band_powers_split (freqs psd : list R) (lo mid hi : R) :
  length freqs = length psd -> lo <= mid <= hi ->
  exists whole left right,
    compute_band_powers freqs psd [(lo, hi)] = Ok [whole] /\
    compute_band_powers freqs psd [(lo, mid); (mid, hi)] = Ok [left; right] /\
    whole = left + right.
Proof.
  intros Hlen Hmid.
  rewrite !compute_band_powers_spec by exact Hlen; simpl.
  do 3 eexists; split; [reflexivity|]; split; [reflexivity|].
  now apply band_sum_split.
Qed.

Lemma compute_band_powers_split_witness :
  length [0; 5; 10; 15] = length [1; 2; 3; 4] /\ 0 <= 10 <= 20 /\
  exists whole left right,
    compute_band_powers [0; 5; 10; 15] [1; 2; 3; 4] [(0, 20)] = Ok [whole] /\
    compute_band_powers [0; 5; 10; 15] [1; 2; 3; 4] [(0, 10); (10, 20)]
    = Ok [left; right] /\
    whole = left + right.
Proof.
  assert (Hmid : 0 <= 10 <= 20) by lra.
  split; [reflexivity|]; split; [exact Hmid|].
  exact (@compute_band_powers_split [0; 5; 10; 15] [1; 2; 3; 4] 0 10 20
           eq_refl Hmid).
Defined.

(** X13: on non-negative powers a band never holds more power than a
    band that contains it, nor more than the whole estimate. *)
Theorem compute_band_powers_monotone (freqs psd : list R)
  (inner outer : R * R) :
  length freqs = length psd ->
  (forall p, In p psd -> 0 <= p) ->
  fst outer <= fst inner -> snd inner <= snd outer ->
  exists p_in p_out,
    compute_band_powers freqs psd [inner; outer] = Ok [p_in; p_out] /\
    0 <= p_in <= p_out /\ p_out <= Np.sum psd.
Proof.
  intros Hlen Hpos Hlo Hhi.
  rewrite compute_band_powers_spec by exact Hlen; simpl.
  assert (Hpos' : forall f p, In (f, p) (combine freqs psd) -> 0 <= p).
  { intros f p Hin; apply Hpos; eapply in_combine_r; exact Hin. }
  do 2 eexists; split; [reflexivity|]; split; [split|].
  - now apply band_sum_nonneg.
  - now apply band_sum_mono.
  - now apply band_sum_le_total.
Qed.

Lemma compute_band_powers_monotone_witness :
  length [0; 5; 10; 15] = length [1; 2; 3; 4] /\
  (forall p, In p [1; 2; 3; 4] -> 0 <= p) /\
  fst (0, 20) <= fst (5, 10) /\ snd (5, 10) <= snd (0, 20) /\
  exists p_in p_out,
    compute_band_powers [0; 5; 10; 15] [1; 2; 3; 4] [(5, 10); (0, 20)]
    = Ok [p_in; p_out] /\
    0 <= p_in <= p_out /\ p_out <= Np.sum [1; 2; 3; 4].
Proof.
  assert (Hpos : forall p, In p [1; 2; 3; 4] -> 0 <= p)
    by (simpl; intros p [<-|[<-|[<-|[<-|[]]]]]; lra).
  assert (Hlo : fst (0, 20) <= fst (5, 10)) by (simpl; lra).
  assert (Hhi : snd (5, 10) <= snd (0, 20)) by (simpl; lra).
  split; [reflexivity|]; split; [exact Hpos|]; split; [exact Hlo|];
    split; [exact Hhi|].
  exact (@compute_band_powers_monotone [0; 5; 10; 15] [1; 2; 3; 4]
           (5, 10) (0, 20) eq_refl Hpos Hlo Hhi).
Defined.

(** X14: scaling a signal by [c] multiplies every band power of its
    estimate by [c * c], whatever the bands. *)
Theorem band_powers_of_scaled_signal (c : R) (signal_data : list R)
  (sample_rate : R) (bands : list (R * R)) :
  signal_data <> [] -> sample_rate <> 0 ->
  exists freqs psd freqs' psd' report,
    compute_psd signal_data sample_rate = Ok (freqs, psd) /\
    compute_band_powers freqs psd bands = Ok report /\
    compute_psd (map (Rmult c) signal_data) sample_rate = Ok (freqs', psd') /\
    compute_band_powers freqs' psd' bands = Ok (map (Rmult (c * c)) report).
Proof.
  intros Hx Hfs.
  assert (Hcx : map (Rmult c) signal_data <> [])
    by (destruct signal_data; [contradiction | discriminate]).
  destruct (compute_psd_ok Hx Hfs) as (f & p & Hrun & Hlf & Hlp & Hk).
  destruct (compute_psd_ok Hcx Hfs) as (f' & p' & Hrun' & Hlf' & Hlp' & Hk').
  rewrite length_map in Hlf', Hlp', Hk'.
  assert (Ef : f' = f).
  { apply (nth_ext _ _ 0 0); [congruence|].
    intros k Hlt; rewrite Hlf' in Hlt.
    destruct (Hk k Hlt) as [-> _]; destruct (Hk' k Hlt) as [-> _]; reflexivity. }
  assert (Ep : p' = map (Rmult (c * c)) p).
  { apply (nth_ext _ _ 0 0); [rewrite length_map; congruence|].
    intros k Hlt; rewrite Hlp' in Hlt.
    rewrite (nth_map_in _ _ 0 0) by congruence.
    destruct (Hk k Hlt) as [_ ->]; destruct (Hk' k Hlt) as [_ ->].
    rewrite dft_coeff_scale; Csimpl; ring. }
  exists f, p, f', p', (map (band_sum (combine f p)) bands).
  split; [exact Hrun|]; split; [|split; [exact Hrun'|]].
  - apply compute_band_powers_spec; congruence.
  - rewrite compute_band_powers_spec by congruence.
    rewrite Ef, Ep, map_map; f_equal.
    apply map_ext; intros band; apply band_sum_scale.
Qed.

Lemma band_powers_of_scaled_signal_witness :
  [1; 0; -1; 0] <> [] /\ 200 <> 0 /\
  exists freqs psd freqs' psd' report,
    compute_psd [1; 0; -1; 0] 200 = Ok (freqs, psd) /\
    compute_band_powers freqs psd main_bands = Ok report /\
    compute_psd (map (Rmult 3) [1; 0; -1; 0]) 200 = Ok (freqs', psd') /\
    compute_band_powers freqs' psd' main_bands = Ok (map (Rmult (3 * 3)) report).
Proof.
  assert (Hx : [1; 0; -1; 0] <> []) by discriminate.
  assert (H200 : 200 <> 0) by lra.
  split; [exact Hx|]; split; [exact H200|].
  exact (@band_powers_of_scaled_signal 3 [1; 0; -1; 0] 200 main_bands Hx H200).
Defined.

(** ** Failures of the filter stages *)

Lemma odd_ext_succeeds (x : list R) (n : nat) :
  (n < length x)%nat -> succeeds (Signal.odd_ext x n).
Proof.
  intros H; destruct (odd_ext_shape x H) as (ext & Hext & _); now exists ext.
Qed.

(** A filter that [lfilter_zi] rejects is rejected by the applier on
    every signal. *)
Lemma filtfilt_zi_failure (b a x : list R) :
  Signal.lfilter_zi b a = Raise ValueError ->
  Signal.filtfilt b a x = Raise ValueError.
Proof.
  intros Hzi; unfold Signal.filtfilt.
  set (edge := (Nat.max (length a) (length b) * 3)%nat).
  destruct (Nat.leb_spec (length x) edge) as [|Hlong]; [reflexivity|].
  destruct (odd_ext_succeeds x Hlong) as (ext & Hext).
  destruct (Nat.ltb_spec 0 edge) as [|He0].
  - rewrite Hext; cbn [bind]; rewrite Hzi; reflexivity.
  - cbn [bind]; rewrite Hzi; reflexivity.
Qed.

Lemma lfilter_zi_singular (b : list R) (a0 : R) (at' : list R) :
  a0 <> 0 -> Np.sum (a0 :: at') = 0 ->
  Signal.lfilter_zi b (a0 :: at') = Raise ValueError.
Proof.
  intros Ha0 Hsum; unfold Signal.lfilter_zi.
  rewrite (strip_zeros_head (a0 :: at')) by exact Ha0.
  apply Reqb_false in Ha0 as Hb; rewrite Hb.
  destruct (Nat.ltb _ 2); [reflexivity|].
  unfold Signal.solve_IminusA.
  rewrite (padded_tail_sum at' _ Ha0), Hsum.
  replace (0 / a0) with 0 by (field; exact Ha0).
  now rewrite Reqb_refl.
Qed.

Lemma lfilter_zi_single_tap (b a : list R) :
  length a = 1%nat -> (length b <= 1)%nat ->
  Signal.lfilter_zi b a = Raise ValueError.
Proof.
  intros Ha Hb; destruct a as [|a0 [|? ?]]; try discriminate.
  unfold Signal.lfilter_zi; simpl Signal.strip_zeros; cbv iota.
  destruct (Reqb a0 0); [reflexivity|].
  rewrite !length_map; simpl length.
  destruct (Nat.ltb_spec (Nat.max 1 (length b)) 2) as [|H]; [reflexivity | lia].
Qed.

Lemma butter_negative_order (N : Z) (Wn : R) :
  (N < 0)%Z -> Signal.butter N Wn = Raise ValueError.
Proof.
  intros H; unfold Signal.butter, Signal.buttap.
  apply Z.ltb_lt in H; now rewrite H.
Qed.

Lemma butter_bad_cutoff (N : Z) (Wn : R) :
  Wn <= 0 \/ 1 <= Wn -> Signal.butter N Wn = Raise ValueError.
Proof.
  intros HW; unfold Signal.butter, Signal.buttap.
  destruct (Z.ltb_spec N 0); cbn [bind]; [reflexivity|].
  assert (Hor : (Rleb Wn 0 || Rleb 1 Wn)%bool = true).
  { apply orb_true_iff; destruct HW; [left | right]; now apply Rleb_true. }
  now rewrite Hor.
Qed.

(** X15: what [apply_lowpass_filter] does with its arguments.  At a zero
    rate it raises [ZeroDivisionError].  At a positive rate it returns
    exactly when the cutoff lies strictly between 0 and the Nyquist
    frequency, the order is 1 or more and the signal is longer than
    [3 * (order + 1)] samples; every other call raises [ValueError]. *)
Theorem apply_lowpass_filter_outcome (signal_data : list R)
  (cutoff sample_rate : R) (order : Z) :
  let valid := 0 < cutoff < sample_rate / 2 /\ (1 <= order)%Z /\
               (3 * (Z.to_nat order + 1) < length signal_data)%nat in
  (sample_rate = 0 ->
   apply_lowpass_filter signal_data cutoff sample_rate order
   = Raise ZeroDivisionError) /\
  (0 < sample_rate ->
   (succeeds (apply_lowpass_filter signal_data cutoff sample_rate order)
    <-> valid) /\
   (~ valid ->
    apply_lowpass_filter signal_data cutoff sample_rate order
    = Raise ValueError)).
Proof.
  intros valid; split.
  - intros ->; unfold apply_lowpass_filter, design_lowpass.
    replace (0 / 2) with 0 by field; rewrite py_div_zero; reflexivity.
  - intros Hfs.
    assert (Hgood : valid ->
              succeeds (apply_lowpass_filter signal_data cutoff sample_rate order)).
    { intros (Hc & Hord & Hlen).
      destruct (design_lowpass_applicable Hc Hord)
        as (b & a & Hrun & Happ & Hb & Ha).
      unfold apply_lowpass_filter; rewrite Hrun; cbn [bind].
      destruct (@filtfilt_ok b a signal_data Happ ltac:(rewrite Hb, Ha; lia))
        as (y & Hy & _).
      now exists y. }
    assert (Hbad : ~ valid ->
              apply_lowpass_filter signal_data cutoff sample_rate order
              = Raise ValueError).
    { intros Hnv.
      destruct (normalized_range cutoff Hfs) as (Hge0 & Hle1 & Hlt0 & Hgt1).
      unfold apply_lowpass_filter, design_lowpass.
      rewrite py_div_ok by lra; cbn [bind].
      set (w := cutoff / (sample_rate / 2)) in *.
      destruct (Z_lt_le_dec order 0) as [Hneg|Hnn].
      { rewrite butter_negative_order by exact Hneg; reflexivity. }
      destruct (Rle_dec w 0) as [Hw0|Hw0].
      { rewrite butter_bad_cutoff by (now left); reflexivity. }
      destruct (Rle_dec 1 w) as [Hw1|Hw1].
      { rewrite butter_bad_cutoff by (now right); reflexivity. }
      destruct (@butter_ok order w Hnn ltac:(lra))
        as (b & a & Hrun & Hb & Ha & Hhd & Hsum).
      rewrite Hrun; cbn [bind].
      destruct (Z.eq_dec order 0) as [E0|Hn0].
      - apply filtfilt_zi_failure, lfilter_zi_single_tap;
          rewrite ?Hb, ?Ha, E0; simpl; lia.
      - apply filtfilt_short; rewrite Hb, Ha.
        assert (Hc : 0 < cutoff < sample_rate / 2).
        { assert (Ec : cutoff = w * (sample_rate / 2)) by (subst w; field; lra).
          assert (Hw : 0 < w < 1) by lra.
          clearbody w; nra. }
        destruct (le_lt_dec (length signal_data) (3 * (Z.to_nat order + 1)))
          as [Hshort|Hlong]; [lia|].
        exfalso; apply Hnv; repeat split; try tauto; lia. }
    split; [split; [|exact Hgood] | exact Hbad].
    intros Hs; destruct (Classical_Prop.classic valid) as [|Hnv]; [assumption|].
    destruct Hs as (y & Hy); rewrite (Hbad Hnv) in Hy; discriminate.
Qed.

Lemma apply_lowpass_filter_outcome_witness :
  0 < 200 /\
  succeeds (apply_lowpass_filter [1; 2; 3; 4; 5; 6; 7; 8; 9; 10] 10 200 2) /\
  apply_lowpass_filter [1; 2; 3; 4; 5; 6; 7; 8; 9] 10 200 2 = Raise ValueError /\
  apply_lowpass_filter [1; 2; 3; 4; 5; 6; 7; 8; 9; 10] 10 200 0
  = Raise ValueError /\
  apply_lowpass_filter [1; 2; 3; 4; 5; 6; 7; 8; 9; 10] 100 200 2
  = Raise ValueError /\
  apply_lowpass_filter [1; 2; 3; 4; 5; 6; 7; 8; 9; 10] 10 0 2
  = Raise ZeroDivisionError.
Proof.
  assert (H200 : 0 < 200) by lra.
  split; [exact H200|]; split; [|split; [|split; [|split]]].
  - apply (proj2 (proj1 (proj2 (@apply_lowpass_filter_outcome
                                  [1; 2; 3; 4; 5; 6; 7; 8; 9; 10] 10 200 2) H200))).
    split; [lra|]; split; [lia | simpl; lia].
  - apply (proj2 (proj2 (@apply_lowpass_filter_outcome
                           [1; 2; 3; 4; 5; 6; 7; 8; 9] 10 200 2) H200)).
    intros (_ & _ & H); simpl in H; lia.
  - apply (proj2 (proj2 (@apply_lowpass_filter_outcome
                           [1; 2; 3; 4; 5; 6; 7; 8; 9; 10] 10 200 0) H200)).
    intros (_ & H & _); lia.
  - apply (proj2 (proj2 (@apply_lowpass_filter_outcome
                           [1; 2; 3; 4; 5; 6; 7; 8; 9; 10] 100 200 2) H200)).
    intros (H & _ & _); lra.
  - apply (proj1 (@apply_lowpass_filter_outcome
                    [1; 2; 3; 4; 5; 6; 7; 8; 9; 10] 10 0 2)); reflexivity.
Defined.

(** X16: the two ends of the frequency range of the notch.  At 0 Hz the
    coefficients are designed, but they have a pole at [z = 1] and the
    applier rejects them on every signal.  At the Nyquist frequency
    itself, with a quality factor above 1, the stage filters every
    signal of more than 9 samples.  The tangent has no pole at either
    end, and the gain divides by no zero. *)
Theorem apply_notch_filter_range_ends (F : float_ops)
  (signal_data : list R) (sample_rate q_factor : R) :
  tan_ok F -> divide_ok F ->
  0 < sample_rate ->
  (q_factor <> 0 ->
   succeeds (design_notch F 0 sample_rate q_factor) /\
   apply_notch_filter F signal_data 0 sample_rate q_factor = Raise ValueError) /\
  (1 < q_factor -> (9 < length signal_data)%nat ->
   exists y,
     apply_notch_filter F signal_data (sample_rate / 2) sample_rate q_factor
     = Ok y /\ length y = length signal_data).
Proof.
  intros HF Hdiv Hfs; split.
  - intros HQ.
    assert (Hd : design_notch F 0 sample_rate q_factor
                 = Ok ([1 * 1; 1 * (-2 * 1); 1 * 1], [1; -2 * 1 * 1; 2 * 1 - 1])).
    { rewrite design_notch_unfold by lra.
      replace (0 / (sample_rate / 2)) with 0 by (field; lra).
      rewrite iirnotch_ok by lra; cbv zeta.
      replace (0 / q_factor * PI / 2) with 0 by (field; exact HQ).
      rewrite HF by (rewrite cos_0; lra).
      rewrite Hdiv by (rewrite tan_0; lra).
      rewrite Rmult_0_l, tan_0, cos_0.
      replace (1 / (1 + 0)) with 1 by field; reflexivity. }
    split; [eexists; exact Hd|].
    unfold apply_notch_filter; rewrite Hd; cbn [bind].
    apply filtfilt_zi_failure, lfilter_zi_singular; [lra | simpl; ring].
  - intros HQ Hlen.
    assert (Hw : sample_rate / 2 / (sample_rate / 2) = 1) by (field; lra).
    assert (Hd : design_notch F (sample_rate / 2) sample_rate q_factor
                 = Signal.iirnotch F 1 q_factor)
      by (rewrite design_notch_unfold by lra; now rewrite Hw).
    rewrite iirnotch_ok in Hd by lra; cbv zeta in Hd.
    pose proof PI_RGT_0 as Hpi.
    assert (Hq : 0 < 1 / q_factor < 1).
    { split; [apply Rdiv_lt_0_compat; lra|].
      apply Rmult_lt_reg_r with q_factor; [lra|].
      unfold Rdiv; rewrite Rmult_assoc, Rinv_l by lra; lra. }
    assert (Hbeta : 0 < tan (1 / q_factor * PI / 2))
      by (apply tan_gt_0; nra).
    rewrite HF in Hd by (apply Rgt_not_eq, cos_gt_0; nra).
    rewrite Hdiv in Hd by lra.
    remember (tan (1 / q_factor * PI / 2)) as beta eqn:Ebeta.
    remember (1 / (1 + beta)) as g eqn:Eg.
    assert (Hg : g * (1 + beta) = 1) by (subst g; field; lra).
    assert (Hg0 : g <> 0) by (intros E; rewrite E in Hg; lra).
    rewrite Rmult_1_l, cos_PI in Hd.
    unfold apply_notch_filter; rewrite Hd; cbn [bind].
    apply filtfilt_ok; [|simpl; lia].
    split; [simpl; lra|]; split; [simpl; lia|].
    simpl; intros E; apply Hg0; lra.
Qed.

Lemma apply_notch_filter_range_ends_witness :
  tan_ok exact_ops /\ divide_ok exact_ops /\
  0 < 200 /\ 30 <> 0 /\
  apply_notch_filter exact_ops [1; 2; 3; 4; 5; 6; 7; 8; 9; 10] 0 200 30
  = Raise ValueError /\
  1 < 30 /\ (9 < length [1; 2; 3; 4; 5; 6; 7; 8; 9; 10]%R)%nat /\
  exists y,
    apply_notch_filter exact_ops [1; 2; 3; 4; 5; 6; 7; 8; 9; 10]
      (200 / 2) 200 30 = Ok y /\
    length y = 10%nat.
Proof.
  assert (H200 : 0 < 200) by lra.
  assert (HQ : 30 <> 0) by lra.
  assert (HQ1 : 1 < 30) by lra.
  assert (Hlen : (9 < length [1; 2; 3; 4; 5; 6; 7; 8; 9; 10]%R)%nat)
    by (simpl; lia).
  split; [exact exact_tan_ok|]; split; [exact exact_divide_ok|].
  split; [exact H200|]; split; [exact HQ|]; split;
    [|split; [exact HQ1|]; split; [exact Hlen|]].
  - exact (proj2 (proj1 (@apply_notch_filter_range_ends exact_ops
                           [1; 2; 3; 4; 5; 6; 7; 8; 9; 10] 200 30
                           exact_tan_ok exact_divide_ok H200) HQ)).
  - exact (proj2 (@apply_notch_filter_range_ends exact_ops
                    [1; 2; 3; 4; 5; 6; 7; 8; 9; 10] 200 30
                    exact_tan_ok exact_divide_ok H200) HQ1 Hlen).
Defined.

(** ** The applier is linear *)

(** [lfilter] either rejects a filter on every input, or runs the loop
    with the normalised coefficients on every state of the right length. *)
Lemma lfilter_form (b a : list R) :
  (exists b' a' n1, forall x zi,
      Signal.lfilter b a x zi
      = if Nat.eqb (length zi) n1
        then Ok (Signal.lfilter_run b' a' x zi)
        else Raise ValueError) \/
  (forall x zi, Signal.lfilter b a x zi = Raise ValueError).
Proof.
  unfold Signal.lfilter; destruct a as [|a0 a]; [now right|].
  destruct (Reqb a0 0); [now right|].
  left.
  exists (map (fun c => c / a0)
            (Signal.pad_to (Nat.max (length (a0 :: a)) (length b)) b)),
         (map (fun c => c / a0)
            (Signal.pad_to (Nat.max (length (a0 :: a)) (length b)) (a0 :: a))),
         (Nat.max (length (a0 :: a)) (length b) - 1)%nat.
  intros x zi.
  destruct (Nat.eqb (length zi) (Nat.max (length (a0 :: a)) (length b) - 1));
    reflexivity.
Qed.

Section Linearity.

Variables alpha beta : R.

Lemma lincomb_length (x y : list R) :
  length x = length y -> length (lincomb alpha beta x y) = length x.
Proof.
  intros H; unfold lincomb; rewrite length_map, length_combine; lia.
Qed.

Lemma lincomb_cons (u v : R) (x y : list R) :
  lincomb alpha beta (u :: x) (v :: y) = (alpha * u + beta * v) :: lincomb alpha beta x y.
Proof. reflexivity. Qed.

Lemma lincomb_nth (x y : list R) (k : nat) :
  length x = length y ->
  nth k (lincomb alpha beta x y) 0 = alpha * nth k x 0 + beta * nth k y 0.
Proof.
  revert y k; induction x as [|u x IH]; intros [|v y] k H; simpl in H;
    try discriminate.
  - destruct k; simpl; ring.
  - rewrite lincomb_cons; destruct k; simpl; [reflexivity | apply IH; lia].
Qed.

Lemma lincomb_hd (x y : list R) :
  length x = length y -> hd 0 (lincomb alpha beta x y) = alpha * hd 0 x + beta * hd 0 y.
Proof.
  intros H; rewrite !hd_nth; now apply lincomb_nth.
Qed.

Lemma lincomb_last (x y : list R) :
  length x = length y -> last (lincomb alpha beta x y) 0 = alpha * last x 0 + beta * last y 0.
Proof.
  intros H; rewrite !last_nth, lincomb_length, lincomb_nth by exact H.
  now rewrite H.
Qed.

Lemma lincomb_tl (x y : list R) : tl (lincomb alpha beta x y) = lincomb alpha beta (tl x) (tl y).
Proof.
  destruct x as [|u x], y as [|v y]; try reflexivity.
  simpl; unfold lincomb; destruct x; reflexivity.
Qed.

Lemma lincomb_app (x1 x2 y1 y2 : list R) :
  length x1 = length y1 -> lincomb alpha beta (x1 ++ x2) (y1 ++ y2) = lincomb alpha beta x1 y1 ++ lincomb alpha beta x2 y2.
Proof.
  revert y1; induction x1 as [|u x1 IH]; intros [|v y1] H; simpl in H;
    try discriminate; [reflexivity|].
  simpl app; rewrite !lincomb_cons, IH by lia; reflexivity.
Qed.

Lemma lincomb_rev (x y : list R) :
  length x = length y -> rev (lincomb alpha beta x y) = lincomb alpha beta (rev x) (rev y).
Proof.
  revert y; induction x as [|u x IH]; intros [|v y] H; simpl in H;
    try discriminate; [reflexivity|].
  rewrite lincomb_cons; simpl rev.
  rewrite IH, lincomb_app by (rewrite ?length_rev; lia); reflexivity.
Qed.

Lemma lincomb_firstn (n : nat) (x y : list R) :
  firstn n (lincomb alpha beta x y) = lincomb alpha beta (firstn n x) (firstn n y).
Proof. unfold lincomb; now rewrite firstn_map, combine_firstn. Qed.

Lemma lincomb_skipn (n : nat) (x y : list R) :
  length x = length y -> skipn n (lincomb alpha beta x y) = lincomb alpha beta (skipn n x) (skipn n y).
Proof.
  revert x y; induction n as [|n IH]; intros [|u x] [|v y] H; simpl in H;
    try discriminate; try reflexivity.
  rewrite lincomb_cons; simpl; apply IH; lia.
Qed.

Lemma lincomb_reflect (e1 e2 : R) (x y : list R) :
  map (fun v => 2 * (alpha * e1 + beta * e2) - v) (lincomb alpha beta x y)
  = lincomb alpha beta (map (fun v => 2 * e1 - v) x) (map (fun v => 2 * e2 - v) y).
Proof.
  revert y; induction x as [|u x IH]; intros [|v y]; try reflexivity.
  unfold lincomb in *; simpl; rewrite IH; f_equal; ring.
Qed.

Lemma lincomb_state (zi : list R) (x0 y0 : R) :
  map (fun z => z * (alpha * x0 + beta * y0)) zi
  = lincomb alpha beta (map (fun z => z * x0) zi) (map (fun z => z * y0) zi).
Proof.
  induction zi as [|z zi IH]; [reflexivity|].
  unfold lincomb in *; simpl; rewrite IH; f_equal; ring.
Qed.

Lemma odd_ext_linear (x y ex ey : list R) (n : nat) :
  length x = length y ->
  Signal.odd_ext x n = Ok ex -> Signal.odd_ext y n = Ok ey ->
  Signal.odd_ext (lincomb alpha beta x y) n = Ok (lincomb alpha beta ex ey) /\ length ex = length ey.
Proof.
  intros Hlen Hx Hy.
  assert (Hle : length ex = length ey).
  { destruct (Nat.ltb_spec n (length x)) as [Hn|Hn].
    - destruct (odd_ext_shape x Hn) as (ex' & Hex' & Hl & _).
      rewrite Hlen in Hn.
      destruct (odd_ext_shape y Hn) as (ey' & Hey' & Hl' & _).
      congruence.
    - unfold Signal.odd_ext in Hx, Hy; rewrite <- Hlen in Hy.
      destruct (Nat.ltb_spec n 1) as [|Hn1].
      + injection Hx as <-; injection Hy as <-; exact Hlen.
      + destruct (Nat.ltb_spec (length x - 1) n); [discriminate | lia]. }
  split; [|exact Hle].
  unfold Signal.odd_ext in *.
  rewrite lincomb_length by exact Hlen.
  destruct (Nat.ltb n 1).
  - injection Hx as <-; injection Hy as <-; reflexivity.
  - rewrite <- Hlen in Hy.
    destruct (Nat.ltb (length x - 1) n); [discriminate|].
    injection Hx as <-; injection Hy as <-.
    rewrite lincomb_hd, lincomb_last by exact Hlen.
    rewrite !lincomb_skipn by exact Hlen.
    rewrite !lincomb_firstn.
    rewrite !lincomb_rev
      by (rewrite !length_firstn, !length_skipn; lia).
    rewrite !lincomb_reflect.
    rewrite lincomb_app.
    2:{ rewrite ?length_map, ?length_rev, ?length_firstn, ?length_skipn.
        destruct x, y; simpl in *; lia. }
    rewrite lincomb_app by exact Hlen.
    reflexivity.
Qed.

Lemma next_state_linear (bt at' zx zy : list R) (x y yx yy : R) :
  length zx = length zy ->
  Signal.next_state bt at' (lincomb alpha beta zx zy) (alpha * x + beta * y)
    (alpha * yx + beta * yy)
  = lincomb alpha beta (Signal.next_state bt at' zx x yx) (Signal.next_state bt at' zy y yy).
Proof.
  revert at' zx zy; induction bt as [|bi bt IH]; intros [|ai at'] zx zy Hz;
    try reflexivity.
  cbn [Signal.next_state]; rewrite lincomb_cons, lincomb_hd by exact Hz.
  rewrite lincomb_tl, IH by (rewrite !length_tl; lia).
  f_equal; ring.
Qed.

Lemma lfilter_run_linear (b a x y zx zy : list R) :
  length x = length y -> length zx = length zy ->
  Signal.lfilter_run b a (lincomb alpha beta x y) (lincomb alpha beta zx zy)
  = (lincomb alpha beta (fst (Signal.lfilter_run b a x zx)) (fst (Signal.lfilter_run b a y zy)),
     lincomb alpha beta (snd (Signal.lfilter_run b a x zx)) (snd (Signal.lfilter_run b a y zy))).
Proof.
  revert y zx zy; induction x as [|u x IH]; intros [|v y] zx zy Hlen Hz;
    simpl in Hlen; try discriminate; [reflexivity|].
  rewrite lincomb_cons; cbn [Signal.lfilter_run].
  rewrite lincomb_hd, lincomb_tl by exact Hz.
  replace (alpha * hd 0 zx + beta * hd 0 zy + hd 0 b * (alpha * u + beta * v))
    with (alpha * (hd 0 zx + hd 0 b * u) + beta * (hd 0 zy + hd 0 b * v))
    by ring.
  rewrite next_state_linear by (rewrite !length_tl; lia).
  rewrite IH by (rewrite ?next_state_length; lia).
  destruct (Signal.lfilter_run b a x _) as [ysx sx].
  destruct (Signal.lfilter_run b a y _) as [ysy sy].
  reflexivity.
Qed.

Lemma lfilter_linear (b a x y zx zy yx sx yy sy : list R) :
  length x = length y ->
  Signal.lfilter b a x zx = Ok (yx, sx) ->
  Signal.lfilter b a y zy = Ok (yy, sy) ->
  Signal.lfilter b a (lincomb alpha beta x y) (lincomb alpha beta zx zy)
  = Ok (lincomb alpha beta yx yy, lincomb alpha beta sx sy).
Proof.
  intros Hlen Hx Hy.
  destruct (lfilter_form b a) as [(b' & a' & n1 & F)|F];
    [|rewrite F in Hx; discriminate].
  rewrite F in Hx, Hy |- *.
  destruct (Nat.eqb_spec (length zx) n1) as [Ex|]; [|discriminate].
  destruct (Nat.eqb_spec (length zy) n1) as [Ey|]; [|discriminate].
  rewrite lincomb_length, Ex, Nat.eqb_refl by congruence.
  rewrite lfilter_run_linear by congruence.
  injection Hx as Hx; injection Hy as Hy; rewrite Hx, Hy; reflexivity.
Qed.

(** Superposition through the applier. *)
Lemma filtfilt_linear (b a x y fx fy : list R) :
  length x = length y ->
  Signal.filtfilt b a x = Ok fx -> Signal.filtfilt b a y = Ok fy ->
  Signal.filtfilt b a (lincomb alpha beta x y) = Ok (lincomb alpha beta fx fy).
Proof.
  intros Hlen Hx Hy.
  destruct (filtfilt_inv _ _ _ Hx)
    as (Hlx & ex & zi & x1 & s1 & x2 & s2 & Hex & Hzi & Hx1 & Hx2 & Hlx2 & ->).
  destruct (filtfilt_inv _ _ _ Hy)
    as (Hly & ey & zi' & y1 & t1 & y2 & t2 & Hey & Hzi' & Hy1 & Hy2 & Hly2 & ->).
  rewrite Hzi in Hzi'; injection Hzi' as <-.
  cbv zeta in *.
  set (edge := (3 * Nat.max (length b) (length a))%nat) in *.
  destruct (@odd_ext_linear x y ex ey edge Hlen Hex Hey) as [Hext Hle].
  pose proof (lfilter_length _ _ _ _ Hx1) as Lx1.
  pose proof (lfilter_length _ _ _ _ Hy1) as Ly1.
  pose proof (lfilter_length _ _ _ _ Hx2) as Lx2.
  pose proof (lfilter_length _ _ _ _ Hy2) as Ly2.
  rewrite length_rev in Lx2, Ly2.
  unfold Signal.filtfilt.
  replace (Nat.max (length a) (length b) * 3)%nat with edge
    by (subst edge; lia).
  rewrite lincomb_length by exact Hlen.
  destruct (Nat.leb_spec (length x) edge) as [|_]; [lia|].
  assert (He : (0 < edge)%nat).
  { destruct (Nat.eq_dec edge 0) as [E|]; [|lia].
    exfalso; subst edge.
    assert (a = []) by (destruct a; [reflexivity | simpl in E; lia]).
    subst a; discriminate. }
  destruct (Nat.ltb_spec 0 edge) as [_|]; [|lia].
  rewrite Hext; cbn [bind]; rewrite Hzi; cbn [bind].
  rewrite lincomb_hd, lincomb_state by exact Hle.
  rewrite (@lfilter_linear b a ex ey _ _ x1 s1 y1 t1 Hle Hx1 Hy1); cbn [bind].
  rewrite lincomb_last, lincomb_state by congruence.
  rewrite lincomb_rev by congruence.
  rewrite (@lfilter_linear b a (rev x1) (rev y1) _ _ x2 s2 y2 t2
             ltac:(rewrite !length_rev; congruence) Hx2 Hy2).
  cbn [bind].
  f_equal.
  rewrite lincomb_rev, lincomb_skipn, lincomb_firstn
    by (rewrite ?length_rev; congruence).
  rewrite lincomb_length, length_rev by (rewrite !length_rev; congruence).
  rewrite Lx2, Lx1, Hlen.
  replace (length ex - edge - edge)%nat with (length y); [reflexivity|].
  destruct (odd_ext_shape x Hlx) as (ex' & Hex' & Hl & _).
  fold edge in Hex'; rewrite Hex in Hex'; injection Hex' as <-.
  lia.
Qed.

End Linearity.

(** X17: both filter stages obey superposition: for two signals of one
    length that a stage filters, the stage maps [alpha * x + beta * y]
    to [alpha] times the output for [x] plus [beta] times the output
    for [y]. *)
Theorem filter_stages_superposition (alpha beta : R) (x y : list R) :
  length x = length y ->
  (forall F f fs Q fx fy,
     apply_notch_filter F x f fs Q = Ok fx ->
     apply_notch_filter F y f fs Q = Ok fy ->
     apply_notch_filter F (lincomb alpha beta x y) f fs Q
     = Ok (lincomb alpha beta fx fy)) /\
  (forall cutoff fs order fx fy,
     apply_lowpass_filter x cutoff fs order = Ok fx ->
     apply_lowpass_filter y cutoff fs order = Ok fy ->
     apply_lowpass_filter (lincomb alpha beta x y) cutoff fs order
     = Ok (lincomb alpha beta fx fy)).
Proof.
  intros Hlen; split.
  - intros F f fs Q fx fy Hx Hy; unfold apply_notch_filter in *.
    destruct (design_notch F f fs Q) as [[b a]|e]; [|discriminate].
    cbn [bind] in *; now apply filtfilt_linear.
  - intros cutoff fs order fx fy Hx Hy; unfold apply_lowpass_filter in *.
    destruct (design_lowpass cutoff fs order) as [[b a]|e]; [|discriminate].
    cbn [bind] in *; now apply filtfilt_linear.
Qed.

Lemma filter_stages_superposition_witness :
  length [1; 2; 3; 4; 5; 6; 7; 8; 9; 10]
  = length [0; 1; 0; -1; 0; 1; 0; -1; 0; 1] /\
  exists fx fy,
    apply_lowpass_filter [1; 2; 3; 4; 5; 6; 7; 8; 9; 10] 10 200 2 = Ok fx /\
    apply_lowpass_filter [0; 1; 0; -1; 0; 1; 0; -1; 0; 1] 10 200 2 = Ok fy /\
    apply_lowpass_filter
      (lincomb 2 3 [1; 2; 3; 4; 5; 6; 7; 8; 9; 10]
                   [0; 1; 0; -1; 0; 1; 0; -1; 0; 1]) 10 200 2
    = Ok (lincomb 2 3 fx fy).
Proof.
  split; [reflexivity|].
  destruct (@design_lowpass_applicable 10 200 2 ltac:(lra) ltac:(lia))
    as (b & a & Hrun & Happ & Hb & Ha).
  destruct (@filtfilt_ok b a [1; 2; 3; 4; 5; 6; 7; 8; 9; 10] Happ
              ltac:(rewrite Hb, Ha; simpl; lia)) as (fx & Hfx & _).
  destruct (@filtfilt_ok b a [0; 1; 0; -1; 0; 1; 0; -1; 0; 1] Happ
              ltac:(rewrite Hb, Ha; simpl; lia)) as (fy & Hfy & _).
  assert (Hx : apply_lowpass_filter [1; 2; 3; 4; 5; 6; 7; 8; 9; 10] 10 200 2
               = Ok fx)
    by (unfold apply_lowpass_filter; rewrite Hrun; exact Hfx).
  assert (Hy : apply_lowpass_filter [0; 1; 0; -1; 0; 1; 0; -1; 0; 1] 10 200 2
               = Ok fy)
    by (unfold apply_lowpass_filter; rewrite Hrun; exact Hfy).
  exists fx, fy; split; [exact Hx|]; split; [exact Hy|].
  exact (proj2 (@filter_stages_superposition 2 3
                  [1; 2; 3; 4; 5; 6; 7; 8; 9; 10]
                  [0; 1; 0; -1; 0; 1; 0; -1; 0; 1] eq_refl)
               10 200 2%Z fx fy Hx Hy).
Defined.

(** ** The gains of the low-pass design *)

Lemma sum_rev (l : list R) : Np.sum (rev l) = Np.sum l.
Proof.
  induction l as [|x t IH]; simpl; [reflexivity|].
  rewrite sum_app, IH; simpl; ring.
Qed.

(** The indices of the Butterworth poles add up to zero. *)
Lemma pole_indices_sum (N : Z) :
  (0 <= N)%Z -> Np.sum (map IZR (Np.arange2 (- N + 1) N)) = 0.
Proof.
  intros HN.
  assert (H : Np.sum (map IZR (Np.arange2 (- N + 1) N))
              = - Np.sum (map IZR (Np.arange2 (- N + 1) N))).
  { rewrite <- sum_rev at 1.
    rewrite <- map_rev, arange2_symmetric_rev by exact HN.
    rewrite map_map.
    induction (Np.arange2 (- N + 1) N) as [|m ms IH]; simpl; [ring|].
    rewrite IH, opp_IZR; ring. }
  lra.
Qed.

Lemma Cexp_plus (s t : R) : Cmult (Cexp s) (Cexp t) = Cexp (s + t).
Proof.
  unfold Cexp; apply C_eq; Csimpl; rewrite ?cos_plus, ?sin_plus; ring.
Qed.

Lemma Cprod_Cexp (kappa : R) (l : list R) :
  Cprod (map (fun v => Cexp (kappa * v)) l) = Cexp (kappa * Np.sum l).
Proof.
  induction l as [|v l IH]; simpl.
  - rewrite Rmult_0_r; unfold Cexp; rewrite cos_0, sin_0; reflexivity.
  - rewrite IH, Cexp_plus; f_equal; ring.
Qed.

Lemma Cprod_map_mult {A : Type} (f g : A -> C) (l : list A) :
  Cprod (map (fun v => Cmult (f v) (g v)) l)
  = Cmult (Cprod (map f l)) (Cprod (map g l)).
Proof.
  induction l as [|v l IH]; simpl.
  - now rewrite Cmult_1_l.
  - rewrite IH; apply C_eq; Csimpl; ring.
Qed.

Lemma Cprod_map_scale {A : Type} (k : R) (f : A -> C) (l : list A) :
  Cprod (map (fun v => Cscale k (f v)) l)
  = Cscale (k ^ length l) (Cprod (map f l)).
Proof.
  induction l as [|v l IH]; simpl.
  - apply C_eq; Csimpl; ring.
  - rewrite IH; apply C_eq; Csimpl; ring.
Qed.

Lemma Cinv_mult (z w : C) :
  Cnorm2 z <> 0 -> Cnorm2 w <> 0 ->
  Cinv (Cmult z w) = Cmult (Cinv z) (Cinv w).
Proof.
  destruct z as [a b], w as [c d]; intros Hz Hw.
  assert (Hzw : Cnorm2 (Cmult (a, b) (c, d)) <> 0).
  { rewrite Cnorm2_mult; now apply Rmult_integral_contrapositive_currified. }
  apply C_eq; Csimpl; field; auto.
Qed.

Lemma Cprod_map_inv {A : Type} (f : A -> C) (l : list A) :
  (forall v, In v l -> 0 < Cnorm2 (f v)) ->
  Cprod (map (fun v => Cinv (f v)) l) = Cinv (Cprod (map f l)).
Proof.
  induction l as [|v l IH]; intros H; simpl.
  - apply C_eq; Csimpl; field.
  - rewrite IH by (intros u Hu; apply H; now right).
    rewrite Cinv_mult; [reflexivity | |].
    + apply Rgt_not_eq, H; now left.
    + apply Rgt_not_eq, Cnorm2_prod_pos; intros z Hz.
      apply in_map_iff in Hz as (u & <- & Hu); apply H; now right.
Qed.

Lemma Cprod_repeat_real (r : R) (z : C) (n : nat) :
  z = RtoC r -> Cprod (repeat z n) = RtoC (r ^ n).
Proof.
  intros ->; induction n as [|n IH]; simpl; [reflexivity|].
  rewrite IH; apply C_eq; Csimpl; ring.
Qed.

Lemma sum_scaled_Cre (k : R) (l : list C) :
  Np.sum (map (fun c => k * Cre c) l) = k * Cre (Csum l).
Proof.
  induction l as [|z t IH]; simpl; [ring|].
  rewrite IH; Csimpl; ring.
Qed.

(** The denominator of the bilinear map at a pole does not vanish. *)
Lemma pole_denominator_nonzero (N : Z) (wo : R) (m : Z) :
  0 < wo -> (- N < m < N)%Z ->
  0 < Cnorm2 (Cminus (RtoC (2 * 2))
                (Cscale wo (Copp (Cexp (PI * IZR m / (2 * IZR N)))))).
Proof.
  intros Hwo Hm.
  assert (HN : 0 < IZR N) by (apply IZR_lt; lia).
  pose proof PI_RGT_0 as Hpi.
  set (t := PI * IZR m / (2 * IZR N)).
  assert (Ht : - (PI / 2) < t < PI / 2).
  { assert (Hm1 : - IZR N < IZR m) by (rewrite <- opp_IZR; apply IZR_lt; lia).
    assert (Hm2 : IZR m < IZR N) by (apply IZR_lt; lia).
    assert (Hq : -1 < IZR m / IZR N < 1).
    { split.
      - apply Rmult_lt_reg_r with (IZR N); [exact HN|].
        unfold Rdiv; rewrite Rmult_assoc, Rinv_l by lra; lra.
      - apply Rmult_lt_reg_r with (IZR N); [exact HN|].
        unfold Rdiv; rewrite Rmult_assoc, Rinv_l by lra; lra. }
    replace t with (PI / 2 * (IZR m / IZR N)) by (subst t; field; lra).
    split; nra. }
  assert (Hcos : 0 < cos t) by (apply cos_gt_0; lra).
  unfold Cexp; Csimpl.
  assert (0 < 2 * 2 + - (wo * - cos t)) by nra.
  assert (0 <= (0 + - (wo * - sin t)) * (0 + - (wo * - sin t))) by nra.
  nra.
Qed.

(** One factor [1 - p] of the denominator at [z = 1]. *)
Lemma pole_factor_form (N : Z) (wo : R) (m : Z) :
  0 < wo -> (- N < m < N)%Z ->
  Cminus Cone (digital_pole N wo m)
  = Cmult (Cscale (2 * wo) (Cexp (PI * IZR m / (2 * IZR N))))
          (Cinv (Cminus (RtoC (2 * 2))
                   (Cscale wo (Copp (Cexp (PI * IZR m / (2 * IZR N))))))).
Proof.
  intros Hwo Hm.
  pose proof (pole_denominator_nonzero Hwo Hm) as Hu.
  unfold digital_pole; cbv zeta.
  set (e := Cexp (PI * IZR m / (2 * IZR N))) in *.
  destruct e as [c s].
  unfold Cnorm2 in Hu; Csimpl.
  apply C_eq; Csimpl; field; lra.
Qed.

Lemma freqz_poly_indexed (c : list R) (w : R) :
  freqz_poly c w
  = Csum_indexed (fun k v => Cscale v (Cexp (- (INR k * w)))) 0 c.
Proof.
  rewrite <- Csum_indexed_seq; unfold freqz_poly.
  f_equal; apply map_ext; intros m; now rewrite Nat.sub_0_r.
Qed.

(** At the angle 0 the response polynomial is the sum of the
    coefficients. *)
Lemma freqz_poly_dc (c : list R) : freqz_poly c 0 = RtoC (Np.sum c).
Proof.
  rewrite freqz_poly_indexed, <- (Csum_indexed_real c 0).
  apply Csum_indexed_ext; intros k v.
  rewrite Rmult_0_r, Ropp_0; unfold Cexp; rewrite cos_0, sin_0.
  apply C_eq; Csimpl; ring.
Qed.

Lemma cos_sin_multiple_PI (k : nat) :
  sin (INR k * PI) = 0 /\ (cos (INR k * PI) = 1 \/ cos (INR k * PI) = -1).
Proof.
  induction k as [|k [Hs Hc]].
  - simpl; rewrite Rmult_0_l, sin_0, cos_0; auto.
  - rewrite S_INR.
    replace ((INR k + 1) * PI) with (INR k * PI + PI) by ring.
    rewrite neg_sin, neg_cos, Hs; split; [ring|].
    destruct Hc as [-> | ->]; [right | left]; ring.
Qed.

Lemma cos_succ_multiple_PI (k : nat) :
  cos (INR (S k) * PI) = - cos (INR k * PI).
Proof.
  rewrite S_INR.
  replace ((INR k + 1) * PI) with (INR k * PI + PI) by ring.
  apply neg_cos.
Qed.

(** At the angle pi the response polynomial is the alternating sum of
    the coefficients. *)
Lemma freqz_poly_nyquist (c : list R) :
  freqz_poly c PI = RtoC (alt_sum 1 c).
Proof.
  rewrite freqz_poly_indexed.
  assert (H : forall k0,
    Csum_indexed (fun k v => Cscale v (Cexp (- (INR k * PI)))) k0 c
    = RtoC (alt_sum (cos (INR k0 * PI)) c)).
  { induction c as [|v t IH]; intros k0; simpl; [reflexivity|].
    rewrite IH, cos_succ_multiple_PI.
    destruct (cos_sin_multiple_PI k0) as [Hs _].
    unfold Cexp; rewrite cos_neg, sin_neg, Hs.
    apply C_eq; Csimpl; ring. }
  rewrite H; simpl; now rewrite Rmult_0_l, cos_0.
Qed.

(** The alternating sum of a polynomial multiplied by [z + 1]
    telescopes. *)
Lemma alt_sum_convolve_root (k s : R) (prev : C) (a : list C) :
  alt_sum s (map (fun c => k * Cre c)
                 (Signal.convolve_root prev a (Copp Cone)))
  = s * k * Cre prev.
Proof.
  revert s prev; induction a as [|c a IH]; intros s prev; simpl.
  - Csimpl; ring.
  - rewrite IH; Csimpl; ring.
Qed.

Lemma poly_fold_snoc (roots : list C) (r : C) (acc : list C) :
  fold_left (fun a zero => Signal.convolve_root Czero a zero)
            (roots ++ [r]) acc
  = Signal.convolve_root Czero
      (fold_left (fun a zero => Signal.convolve_root Czero a zero) roots acc) r.
Proof. now rewrite fold_left_app. Qed.

(** A polynomial with a root at [-1] has alternating sum 0. *)
Lemma alt_sum_poly_zeros (k : R) (n : nat) :
  alt_sum 1 (map (fun c => k * Cre c)
                 (Signal.poly (repeat (Copp Cone) (S n)))) = 0.
Proof.
  unfold Signal.poly.
  replace (repeat (Copp Cone) (S n)) with (repeat (Copp Cone) n ++ [Copp Cone]).
  - rewrite poly_fold_snoc, alt_sum_convolve_root; Csimpl; ring.
  - rewrite <- repeat_cons; reflexivity.
Qed.

(** The designed Butterworth filter, in closed form. *)
Lemma butter_unfold (N : Z) (Wn : R) :
  (0 <= N)%Z -> 0 < Wn < 1 ->
  let wo := 2 * 2 * tan (PI * Wn / 2) in
  let ms := Np.arange2 (- N + 1) N in
  let D := Cprod (map (fun m => Cminus (RtoC (2 * 2))
                   (Cscale wo (Copp (Cexp (PI * IZR m / (2 * IZR N)))))) ms) in
  let k2 := 1 * wo ^ Z.to_nat N * Cre (Cdiv Cone D) in
  Signal.butter N Wn
  = Ok (map (fun c => k2 * Cre c)
            (Signal.poly (repeat (Copp Cone) (Z.to_nat N))),
        map Cre (Signal.poly (map (digital_pole N wo) ms))).
Proof.
  intros HN [HW0 HW1] wo ms D k2.
  unfold Signal.butter, Signal.buttap.
  destruct (Z.ltb_spec N 0) as [|_]; [lia|]; cbn [bind].
  assert (H0 : Rleb Wn 0 = false) by (apply Rleb_false; lra).
  assert (H1 : Rleb 1 Wn = false) by (apply Rleb_false; lra).
  rewrite H0, H1; cbn [orb].
  unfold Signal.lp2lp_zpk, Signal.bilinear_zpk, Signal.zpk2tf.
  fold wo; fold ms.
  assert (Hlen : length ms = Z.to_nat N)
    by (subst ms; now apply arange2_symmetric_length).
  cbn [map app length Cprod].
  rewrite !length_map, Hlen, Nat.sub_0_r, !map_map.
  reflexivity.
Qed.

Lemma pole_angles_cancel (N : Z) :
  (0 <= N)%Z ->
  Cprod (map (fun m => Cexp (PI * IZR m / (2 * IZR N)))
             (Np.arange2 (- N + 1) N)) = Cone.
Proof.
  intros HN.
  rewrite (map_ext _ (fun m => Cexp (PI / (2 * IZR N) * IZR m)))
    by (intros m; f_equal; unfold Rdiv; ring).
  rewrite <- (map_map IZR (fun v => Cexp (PI / (2 * IZR N) * v))).
  rewrite Cprod_Cexp, pole_indices_sum by exact HN.
  rewrite Rmult_0_r; unfold Cexp; now rewrite cos_0, sin_0.
Qed.

(** The coefficient sums of the designed low-pass filter agree: its
    gain at [z = 1] is 1; and its numerator vanishes at [z = -1]. *)
Lemma butter_gains (N : Z) (Wn : R) :
  (0 <= N)%Z -> 0 < Wn < 1 ->
  exists b a,
    Signal.butter N Wn = Ok (b, a) /\
    length b = S (Z.to_nat N) /\ length a = S (Z.to_nat N) /\
    hd 0 a = 1 /\ Np.sum a <> 0 /\ Np.sum b = Np.sum a /\
    ((1 <= N)%Z -> alt_sum 1 b = 0).
Proof.
  intros HN HW.
  destruct (butter_ok HN HW) as (b & a & Hrun & Hlb & Hla & Hhd & Hsum).
  exists b, a; repeat (split; [assumption|]).
  pose proof (butter_unfold HN HW) as Hform; cbv zeta in Hform.
  set (wo := 2 * 2 * tan (PI * Wn / 2)) in *.
  assert (Hwo : 0 < wo).
  { pose proof PI_RGT_0 as Hpi.
    assert (0 < tan (PI * Wn / 2)) by (apply tan_gt_0; nra).
    subst wo; lra. }
  set (ms := Np.arange2 (- N + 1) N) in *.
  assert (Hlen : length ms = Z.to_nat N)
    by (subst ms; now apply arange2_symmetric_length).
  set (u := fun m => Cminus (RtoC (2 * 2))
                (Cscale wo (Copp (Cexp (PI * IZR m / (2 * IZR N)))))) in *.
  set (k2 := 1 * wo ^ Z.to_nat N * Cre (Cdiv Cone (Cprod (map u ms)))) in *.
  assert (Hb : b = map (fun c => k2 * Cre c)
                       (Signal.poly (repeat (Copp Cone) (Z.to_nat N))))
    by congruence.
  assert (Ha : a = map Cre (Signal.poly (map (digital_pole N wo) ms)))
    by congruence.
  clear Hform; split.
  - rewrite Hb, Ha; subst k2.
    rewrite sum_scaled_Cre, sum_Cre, !poly_sum, map_repeat, map_map.
    rewrite (@Cprod_repeat_real 2) by (apply C_eq; Csimpl; ring).
    rewrite (map_ext_in (fun m => Cminus Cone (digital_pole N wo m))
               (fun m => Cmult (Cscale (2 * wo)
                                  (Cexp (PI * IZR m / (2 * IZR N))))
                               (Cinv (u m)))).
    2:{ intros m Hm; apply pole_factor_form; [exact Hwo|].
        subst ms; now apply arange2_symmetric_bound. }
    rewrite Cprod_map_mult, Cprod_map_scale, Cprod_map_inv.
    2:{ intros m Hm; apply pole_denominator_nonzero; [exact Hwo|].
        subst ms; now apply arange2_symmetric_bound. }
    subst ms; rewrite pole_angles_cancel by exact HN.
    rewrite arange2_symmetric_length by exact HN.
    unfold Cdiv.
    destruct (Cinv (Cprod (map u (Np.arange2 (- N + 1) N)))) as [x y].
    Csimpl; rewrite Rpow_mult_distr; ring.
  - intros H1; rewrite Hb.
    replace (Z.to_nat N) with (S (Z.to_nat N - 1)) by lia.
    apply alt_sum_poly_zeros.
Qed.

Lemma alt_sum_Cre (s : R) (l : list C) :
  alt_sum s (map Cre l) = Cre (Calt_sum s l).
Proof.
  revert s; induction l as [|z t IH]; intros s; simpl; [reflexivity|].
  rewrite IH; Csimpl; ring.
Qed.

Lemma Calt_sum_convolve_root (s : R) (prev : C) (a : list C) (zero : C) :
  Calt_sum s (Signal.convolve_root prev a zero)
  = Cminus (Cmult (Cplus Cone zero) (Calt_sum s a))
           (Cscale s (Cmult prev zero)).
Proof.
  revert s prev; induction a as [|c a IH]; intros s prev; simpl.
  - apply C_eq; Csimpl; ring.
  - rewrite IH; apply C_eq; Csimpl; ring.
Qed.

Lemma poly_fold_alt_sum (roots : list C) (acc : list C) :
  Calt_sum 1 (fold_left (fun a zero => Signal.convolve_root Czero a zero)
                        roots acc)
  = Cmult (Calt_sum 1 acc) (Cprod (map (Cplus Cone) roots)).
Proof.
  revert acc; induction roots as [|r t IH]; intros acc; simpl.
  - now rewrite Cmult_1_r.
  - rewrite IH, Calt_sum_convolve_root; apply C_eq; Csimpl; ring.
Qed.

(** The alternating sum of the coefficients is, up to sign, the value of
    the polynomial at -1. *)
Lemma poly_alt_sum (roots : list C) :
  Calt_sum 1 (Signal.poly roots) = Cprod (map (Cplus Cone) roots).
Proof.
  unfold Signal.poly; rewrite poly_fold_alt_sum; simpl.
  rewrite <- (Cmult_1_l (Cprod _)) at 2; f_equal.
  apply C_eq; Csimpl; ring.
Qed.

Lemma Cnorm2_one_plus_div (u v : C) :
  Cnorm2 u <> 0 ->
  Cnorm2 (Cplus Cone (Cdiv v u)) = Cnorm2 (Cplus u v) / Cnorm2 u.
Proof.
  destruct u as [a b], v as [c d]; intros H; Csimpl; field; exact H.
Qed.

Lemma pole_plus_factor_nonzero (N : Z) (wo : R) (m : Z) :
  0 < wo -> (- N < m < N)%Z ->
  0 < Cnorm2 (Cplus Cone (digital_pole N wo m)).
Proof.
  intros Hwo Hm.
  pose proof (pole_denominator_nonzero Hwo Hm) as Hu.
  unfold digital_pole; cbv zeta.
  set (q := Cscale wo (Copp (Cexp (PI * IZR m / (2 * IZR N))))) in *.
  rewrite Cnorm2_one_plus_div by lra.
  apply Rdiv_lt_0_compat; [|exact Hu].
  destruct q as [x y]; Csimpl; nra.
Qed.

(** The product of the factors [1 + p] over the poles is real. *)
Lemma pole_plus_product_real (N : Z) (wo : R) :
  (0 <= N)%Z ->
  Cim (Cprod (map (fun m => Cplus Cone (digital_pole N wo m))
                  (Np.arange2 (- N + 1) N))) = 0.
Proof.
  intros HN.
  set (F := fun m => Cplus Cone (digital_pole N wo m)).
  set (ms := Np.arange2 (- N + 1) N).
  assert (Hconj : Cconj (Cprod (map F ms)) = Cprod (map F ms)).
  { rewrite <- Cprod_conj, map_map.
    rewrite <- (Cprod_rev (map F ms)), <- map_rev.
    subst ms; rewrite arange2_symmetric_rev by exact HN.
    rewrite map_map; f_equal; apply map_ext; intros m.
    subst F; cbv beta; rewrite digital_pole_conj.
    apply C_eq; Csimpl; ring. }
  apply (f_equal Cim) in Hconj; unfold Cconj, Cim in *; simpl in Hconj.
  lra.
Qed.

(** The denominator of the designed low-pass filter does not vanish at
    [z = -1]. *)
Lemma butter_den_nyquist (N : Z) (Wn : R) (b a : list R) :
  (0 <= N)%Z -> 0 < Wn < 1 -> Signal.butter N Wn = Ok (b, a) ->
  alt_sum 1 a <> 0.
Proof.
  intros HN HW Hrun.
  pose proof (butter_unfold HN HW) as Hform; cbv zeta in Hform.
  set (wo := 2 * 2 * tan (PI * Wn / 2)) in *.
  assert (Hwo : 0 < wo).
  { pose proof PI_RGT_0 as Hpi.
    assert (0 < tan (PI * Wn / 2)) by (apply tan_gt_0; nra).
    subst wo; lra. }
  set (ms := Np.arange2 (- N + 1) N) in *.
  assert (Ha : a = map Cre (Signal.poly (map (digital_pole N wo) ms)))
    by congruence.
  rewrite Ha, alt_sum_Cre, poly_alt_sum, map_map.
  match goal with |- Cre ?P <> 0 => set (P0 := P) end.
  assert (Him : Cim P0 = 0)
    by (subst P0 ms; now apply pole_plus_product_real).
  assert (Hnorm : 0 < Cnorm2 P0).
  { subst P0; apply Cnorm2_prod_pos; intros z Hz.
    apply in_map_iff in Hz as (m & <- & Hm).
    apply pole_plus_factor_nonzero; [exact Hwo|].
    subst ms; now apply arange2_symmetric_bound. }
  unfold Cnorm2 in Hnorm; rewrite Him in Hnorm.
  intros E; rewrite E in Hnorm; lra.
Qed.

Lemma design_lowpass_is_butter (cutoff fs : R) (order : Z) :
  0 < cutoff < fs / 2 ->
  0 < cutoff / (fs / 2) < 1 /\
  design_lowpass cutoff fs order = Signal.butter order (cutoff / (fs / 2)).
Proof.
  intros [Hc0 Hc1].
  assert (Hfs : 0 < fs) by lra.
  split.
  - assert (Hw0 : 0 < cutoff / (fs / 2)) by (apply Rdiv_lt_0_compat; lra).
    split; [exact Hw0|].
    apply Rmult_lt_reg_r with (fs / 2); [lra|].
    unfold Rdiv at 1; rewrite Rmult_assoc, Rinv_l by lra; lra.
  - unfold design_lowpass; rewrite py_div_ok by lra; reflexivity.
Qed.


